(** * react-traceroute: the route-resolution engine of [src/utils/traceroute.js]

    A shallow embedding of the address matcher ([ipToNumber],
    [isIPInNetwork]), of the route selection ([findRouteEntry],
    [findEquipmentByGateway]) and of the hop-by-hop traversal
    ([executeTraceroute]), followed by the properties of the specification
    that concern them.

    Routing records come from a CSV file parsed with headers and without
    dynamic typing, or from the table editor: every field is a string.  The
    arguments of [executeTraceroute] come from a form: strings again.  JS
    strings are modelled by [string], holding the UTF-8 encoding of the text;
    JS Numbers by [jsnum] below. *)

From Stdlib Require Import ZArith QArith Qreduction Bool List Lia.
From Stdlib Require Import Ascii String DecimalString.
Import ListNotations.

Local Open Scope string_scope.
Local Open Scope Z_scope.

(** ** The JavaScript built-ins used by the engine *)

Module JS.

(** *** Strings *)

(** [s.split(sep)] for a one-character separator: the pieces between the
    occurrences of [sep], in order; the empty string gives one empty piece. *)
Fixpoint split (sep : ascii) (s : string) : list string :=
  match s with
  | EmptyString => [EmptyString]
  | String c s' =>
      if Ascii.eqb c sep then EmptyString :: split sep s'
      else match split sep s' with
           | p :: ps => String c p :: ps
           | [] => [String c EmptyString]
           end
  end.

(** [s.replace(c, '')] for a one-character pattern: the first occurrence of
    [c] is removed, later ones stay. *)
Fixpoint replace_first (c : ascii) (s : string) : string :=
  match s with
  | EmptyString => EmptyString
  | String a s' => if Ascii.eqb a c then s' else String a (replace_first c s')
  end.

Definition lower_char (c : ascii) : ascii :=
  let n := N_of_ascii c in
  if ((65 <=? n) && (n <=? 90))%N then ascii_of_N (n + 32) else c.

(** [s.toLowerCase()] on the letters A-Z.  The engine only compares the
    result with the ASCII word ['directo']: the two characters outside ASCII
    whose lower case falls into ASCII (U+0130, which becomes "i" followed by
    a combining dot, and the Kelvin sign, which becomes "k") cannot produce
    that word, so leaving the bytes above 127 alone does not change any
    comparison. *)
Fixpoint toLowerCase (s : string) : string :=
  match s with
  | EmptyString => EmptyString
  | String c s' => String (lower_char c) (toLowerCase s')
  end.

(** Truthiness of a string: every string but the empty one. *)
Definition truthy (s : string) : bool :=
  match s with EmptyString => false | String _ _ => true end.

Definition bytes (l : list N) : string :=
  string_of_list_ascii (map ascii_of_N l).

(** The white space and line terminators that [Number] and [parseInt] skip:
    TAB, LF, VT, FF, CR, SP, and in UTF-8 U+00A0, U+1680, U+2000..U+200A,
    U+2028, U+2029, U+202F, U+205F, U+3000 and U+FEFF. *)
Definition StrWhiteSpaceChar : list string :=
  map bytes
    (List.app
       [[9]; [10]; [11]; [12]; [13]; [32]; [194; 160]; [225; 154; 128]]
       (List.app
          (map (fun b => [226; 128; b])
               [128; 129; 130; 131; 132; 133; 134; 135; 136; 137; 138])
          [[226; 128; 168]; [226; 128; 169]; [226; 128; 175]; [226; 129; 159];
           [227; 128; 128]; [239; 187; 191]]))%N.

Fixpoint strip_prefix (p s : string) : option string :=
  match p, s with
  | EmptyString, _ => Some s
  | String a p', String b s' => if Ascii.eqb a b then strip_prefix p' s' else None
  | String _ _, EmptyString => None
  end.

Fixpoint strip_any (ps : list string) (s : string) : option string :=
  match ps with
  | [] => None
  | p :: ps' => match strip_prefix p s with
                | Some r => Some r
                | None => strip_any ps' s
                end
  end.

Fixpoint trim_with (ws : list string) (fuel : nat) (s : string) : string :=
  match fuel with
  | O => s
  | S fuel' => match strip_any ws s with
               | Some r => trim_with ws fuel' r
               | None => s
               end
  end.

Definition rev_string (s : string) : string :=
  string_of_list_ascii (rev (list_ascii_of_string s)).

Definition trimStart (s : string) : string :=
  trim_with StrWhiteSpaceChar (String.length s) s.

Definition trimEnd (s : string) : string :=
  rev_string (trim_with (map rev_string StrWhiteSpaceChar) (String.length s) (rev_string s)).

Definition trim (s : string) : string := trimEnd (trimStart s).

(** *** Numbers *)

(** A Number is NaN, an infinity, or a finite double, held as the rational
    it denotes (in lowest terms).  The two zeros are not told apart: no
    operation used by the engine distinguishes them. *)
Inductive jsnum : Type :=
| NaN : jsnum
| Inf (negative : bool) : jsnum
| Fin (q : Q) : jsnum.

Definition of_Z (z : Z) : jsnum := Fin (inject_Z z).

(** Rounding of the positive rational [n/d] to the nearest double, ties to
    even: 53 significant bits, least exponent -1074, overflow to infinity
    from 2^1024 on. *)
Definition round_pos (n d : Z) : jsnum :=
  let e0 := Z.log2 n - Z.log2 d in
  let above := if 0 <=? e0 then d * 2 ^ e0 <=? n else d <=? n * 2 ^ (- e0) in
  let e := if above then e0 else e0 - 1 in
  let p := Z.max (e - 52) (-1074) in
  let num := if 0 <=? p then n else n * 2 ^ (- p) in
  let den := if 0 <=? p then d * 2 ^ p else d in
  let k := num / den in
  let r := num mod den in
  let m := if 2 * r <? den then k
           else if den <? 2 * r then k + 1
           else if Z.even k then k else k + 1 in
  if 0 <=? p
  then if 2 ^ 1024 <=? m * 2 ^ p then Inf false else Fin (inject_Z (m * 2 ^ p))
  else Fin (Qred (Qmake m (Z.to_pos (2 ^ (- p))))).

Definition negate (x : jsnum) : jsnum :=
  match x with
  | NaN => NaN
  | Inf s => Inf (negb s)
  | Fin q => Fin (Qopp q)
  end.

Definition round_double (q : Q) : jsnum :=
  match Qnum q with
  | Z0 => Fin 0
  | Zpos n => round_pos (Zpos n) (Zpos (Qden q))
  | Zneg n => negate (round_pos (Zpos n) (Zpos (Qden q)))
  end.

(** The integer part of a finite Number, towards zero. *)
Definition truncate (q : Q) : Z := Z.quot (Qnum q) (Zpos (Qden q)).

Definition uint32 (z : Z) : Z := z mod 2 ^ 32.

Definition int32 (z : Z) : Z :=
  let u := z mod 2 ^ 32 in if u <? 2 ^ 31 then u else u - 2 ^ 32.

(** [ToInt32]: NaN and the infinities become 0; a finite Number is
    truncated and wrapped into [-2^31, 2^31). *)
Definition ToInt32 (x : jsnum) : Z :=
  match x with
  | Fin q => int32 (truncate q)
  | _ => 0
  end.

(** [ToUint32]: the same, wrapped into [0, 2^32). *)
Definition ToUint32 (x : jsnum) : Z :=
  match x with
  | Fin q => uint32 (truncate q)
  | _ => 0
  end.

(** The operators on 32-bit integers.  Operands are given by their integer
    value; each operator wraps them first, as the language does. *)
Definition shl (x n : Z) : Z := int32 (Z.shiftl (int32 x) (uint32 n mod 32)).
Definition ushr (x n : Z) : Z := Z.shiftr (uint32 x) (uint32 n mod 32).
Definition bor (x y : Z) : Z := int32 (Z.lor (int32 x) (int32 y)).
Definition band (x y : Z) : Z := int32 (Z.land (int32 x) (int32 y)).

(** [a - b] on Numbers. *)
Definition sub (a b : jsnum) : jsnum :=
  match a, b with
  | NaN, _ | _, NaN => NaN
  | Inf s, Inf t => if Bool.eqb s t then NaN else Inf s
  | Inf s, Fin _ => Inf s
  | Fin _, Inf t => Inf (negb t)
  | Fin p, Fin q => round_double (Qminus p q)
  end.

(** [a > b] on Numbers: false as soon as one side is NaN. *)
Definition gt (a b : jsnum) : bool :=
  match a, b with
  | NaN, _ | _, NaN => false
  | Inf s, Inf t => negb s && t
  | Inf s, Fin _ => negb s
  | Fin _, Inf t => t
  | Fin p, Fin q => negb (Qle_bool p q)
  end.

Definition le (a b : jsnum) : bool :=
  match a, b with
  | NaN, _ | _, NaN => false
  | _, _ => negb (gt a b)
  end.

(** *** Reading numbers from strings *)

(** The value of a character as a digit: 0-9, then a-z or A-Z for 10-35. *)
Definition digit_value (c : ascii) : option Z :=
  let n := Z.of_N (N_of_ascii c) in
  if (48 <=? n) && (n <=? 57) then Some (n - 48)
  else if (97 <=? n) && (n <=? 122) then Some (n - 87)
  else if (65 <=? n) && (n <=? 90) then Some (n - 55)
  else None.

(** The longest prefix of [s] made of digits of the radix, as digit values,
    with the rest of the string. *)
Fixpoint take_digits (radix : Z) (s : string) : list Z * string :=
  match s with
  | EmptyString => ([], EmptyString)
  | String c s' =>
      match digit_value c with
      | Some d => if d <? radix
                  then let (ds, r) := take_digits radix s' in (d :: ds, r)
                  else ([], s)
      | None => ([], s)
      end
  end.

Definition digits_value (radix : Z) (ds : list Z) : Z :=
  fold_left (fun acc d => acc * radix + d) ds 0.

Definition take_sign (s : string) : bool * string :=
  match s with
  | String "-" s' => (true, s')
  | String "+" s' => (false, s')
  | _ => (false, s)
  end.

Definition signed (negative : bool) (x : jsnum) : jsnum :=
  if negative then negate x else x.

(** [0x], [0o], [0b] in either case, with the radix they announce. *)
Definition radix_prefix (s : string) : option (Z * string) :=
  match s with
  | String "0" (String c r) =>
      if Ascii.eqb (lower_char c) "x" then Some (16, r)
      else if Ascii.eqb (lower_char c) "o" then Some (8, r)
      else if Ascii.eqb (lower_char c) "b" then Some (2, r)
      else None
  | _ => None
  end.

(** [mant * 10^k] as a rational. *)
Definition scale10 (mant k : Z) : Q :=
  if 0 <=? k then inject_Z (mant * 10 ^ k)
  else Qmake mant (Z.to_pos (10 ^ (- k))).

(** The decimal literals of the grammar of numeric strings, sign removed:
    digits, an optional fraction, an optional exponent, with a digit before
    or after the point, and nothing left over. *)
Definition decimal_literal (s : string) : option Q :=
  let (ip, r1) := take_digits 10 s in
  let '(point, fp, r2) :=
    match r1 with
    | String "." r => let (fp, r') := take_digits 10 r in (true, fp, r')
    | _ => (false, [], r1)
    end in
  if match ip, fp with [], [] => true | _, _ => false end then None
  else
    let mant := digits_value 10 (List.app ip fp) in
    let shift := Z.of_nat (List.length fp) in
    match r2 with
    | EmptyString => Some (scale10 mant (- shift))
    | String c r3 =>
        if Ascii.eqb (lower_char c) "e" then
          let (neg, r4) := take_sign r3 in
          match take_digits 10 r4 with
          | (d :: ds, EmptyString) =>
              let ex := digits_value 10 (d :: ds) in
              Some (scale10 mant ((if neg then - ex else ex) - shift))
          | _ => None
          end
        else None
    end.

(** [Number(s)] on a string: white space trimmed at both ends; the empty
    string is 0; a binary, octal or hexadecimal literal carries no sign; a
    decimal literal or [Infinity] may; everything else is NaN. *)
Definition Number (s : string) : jsnum :=
  let t := trim s in
  match t with
  | EmptyString => Fin 0
  | _ =>
      match radix_prefix t with
      | Some (radix, r) =>
          match take_digits radix r with
          | (d :: ds, EmptyString) => round_double (inject_Z (digits_value radix (d :: ds)))
          | _ => NaN
          end
      | None =>
          let (neg, u) := take_sign t in
          if String.eqb u "Infinity" then Inf neg
          else match decimal_literal u with
               | Some q => signed neg (round_double q)
               | None => NaN
               end
      end
  end.

(** [parseInt(s, radix)], the radix absent ([None]) or an integer: leading
    white space and a sign are skipped, [0x] is skipped when the radix is
    absent or 16, then the longest run of digits is read; NaN when there is
    none. *)
Definition parseInt (s : string) (radix : option Z) : jsnum :=
  let (neg, t) := take_sign (trimStart s) in
  let R := match radix with Some r => int32 r | None => 0 end in
  if negb (R =? 0) && ((R <? 2) || (36 <? R)) then NaN
  else
    let '(R', u) :=
      match (if (R =? 0) || (R =? 16) then radix_prefix t else None) with
      | Some (16, r) => (16, r)
      | _ => (if R =? 0 then 10 else R, t)
      end in
    match take_digits R' u with
    | ([], _) => NaN
    | (ds, _) => signed neg (round_double (inject_Z (digits_value R' ds)))
    end.

End JS.

(** ** The data of the engine *)

(** A row of the routing table: [Equipo] owns the route to the network
    [IP_Destino] with prefix [Mascara] (as "/24"), through [Gateway], an
    address or the word "directo". *)
Record route : Type := {
  Equipo : string;
  IP_Destino : string;
  Mascara : string;
  Gateway : string
}.

(** An entry of the array [hops]; [nextEquipment] is [None] for [null]. *)
Module Hop.
Record t : Type := {
  currentEquipment : string;
  destNetwork : string;
  gateway : string;
  nextEquipment : option string
}.
End Hop.
Definition hop : Type := Hop.t.

(** The reason of a failure.  The source reports it as a message built from
    the values kept here; [message] gives that text.  The [catch] of
    [executeTraceroute] has no constructor: with string fields no statement
    of the loop throws. *)
Inductive failure : Type :=
| InvalidInput : failure
| UnknownDevice (equipment : string) : failure
| RoutingLoop (equipment : string) : failure
| NoRoute (destIP equipment : string) : failure
| UnresolvedGateway (gateway equipment : string) : failure
| HopLimitExceeded : failure.

Definition quote : ascii := ascii_of_N 34.

Definition quoted (s : string) : string := (String quote s ++ String quote "")%string.

Definition message (f : failure) : string :=
  match f with
  | InvalidInput => "Parámetros inválidos o tabla de ruteo vacía"
  | UnknownDevice e => "El equipo " ++ quoted e ++ " no existe en la tabla de ruteo"
  | RoutingLoop e => "Loop infinito detectado en el equipo " ++ quoted e
  | NoRoute d e => "No existe ruta hacia " ++ d ++ " desde el equipo " ++ quoted e
  | UnresolvedGateway g e => "No se puede resolver el gateway " ++ g ++ " desde " ++ quoted e
  | HopLimitExceeded => "Se excedió el límite de 30 saltos"
  end%string.

(** The object returned by [executeTraceroute]; [error] is [None] for
    [null]. *)
Module Trace.
Record result : Type := {
  success : bool;
  error : option failure;
  hops : list hop;
  sourceEquipment : string;
  sourceIP : string;
  destIP : string
}.
End Trace.
Definition TraceResult : Type := Trace.result.

Import JS.

(** ** The address matcher *)

(** [parts[i]] of an array of Numbers, used as an operand: a missing element
    is [undefined], which the operators read as NaN. *)
Definition part (parts : list jsnum) (i : nat) : jsnum := nth i parts NaN.

Definition ipToNumber (ip : string) : Z :=
  let parts := map Number (split "." ip) in
  bor (bor (bor (shl (ToInt32 (part parts 0)) 24) (shl (ToInt32 (part parts 1)) 16))
           (shl (ToInt32 (part parts 2)) 8))
      (ToInt32 (part parts 3)).

(** [parseInt(mask.replace('/', ''))]. *)
Definition maskBitsOf (mask : string) : jsnum :=
  parseInt (replace_first "/" mask) None.

(** [(-1 << (32 - maskBits)) >>> 0]. *)
Definition maskNumOf (maskBits : jsnum) : Z :=
  ushr (shl (-1) (ToUint32 (sub (of_Z 32) maskBits))) 0.

(** On strings nothing in the [try] block throws, so the [catch] is never
    taken and the function is total. *)
Definition isIPInNetwork (ip network mask : string) : bool :=
  if negb (truthy ip) || negb (truthy network) || negb (truthy mask) then false
  else
    let maskBits := maskBitsOf mask in
    let ipNum := ipToNumber ip in
    let networkNum := ipToNumber network in
    let maskNum := maskNumOf maskBits in
    band ipNum maskNum =? band networkNum maskNum.

(** The pattern [/^(\d{1,3}\.){3}\d{1,3}$/]: four groups of one to three
    decimal digits, separated by points. *)
Definition is_decimal_digit (c : ascii) : bool :=
  let n := N_of_ascii c in ((48 <=? n) && (n <=? 57))%N.

Definition ipRegex_test (ip : string) : bool :=
  let groups := split "." ip in
  (Nat.eqb (List.length groups) 4)
  && forallb (fun g => (Nat.leb 1 (String.length g)) && (Nat.leb (String.length g) 3)
                       && forallb is_decimal_digit (list_ascii_of_string g)) groups.

Definition validateIP (ip : string) : bool :=
  if negb (ipRegex_test ip) then false
  else
    let parts := split "." ip in
    forallb (fun part =>
               let num := parseInt part (Some 10) in
               le (of_Z 0) num && le num (of_Z 255)) parts.

(** ** Route selection *)

(** [array.reduce(f)] without initial value, on a non-empty array. *)
Definition reduce {A : Type} (f : A -> A -> A) (first : A) (others : list A) : A :=
  fold_left f others first.

Definition more_specific (best current : route) : route :=
  let bestMask := maskBitsOf (Mascara best) in
  let currentMask := maskBitsOf (Mascara current) in
  if gt currentMask bestMask then current else best.

Definition findRouteEntry (equipmentName destIP : string) (routingTable : list route)
  : option route :=
  let equipmentRoutes :=
    filter (fun route => String.eqb (Equipo route) equipmentName) routingTable in
  let matches :=
    filter (fun route => isIPInNetwork destIP (IP_Destino route) (Mascara route))
           equipmentRoutes in
  match matches with
  | [] => None
  | first :: others => Some (reduce more_specific first others)
  end.

Definition is_directo (gateway : string) : bool :=
  String.eqb (toLowerCase gateway) "directo".

(** The first row, in table order, of another equipment that reaches the
    gateway directly; [None] for [null]. *)
Definition findEquipmentByGateway (gateway : string) (routingTable : list route)
  (currentEquipment : string) : option string :=
  option_map Equipo
    (find (fun route =>
             negb (String.eqb (Equipo route) currentEquipment)
             && is_directo (Gateway route)
             && isIPInNetwork gateway (IP_Destino route) (Mascara route))
          routingTable).

(** ** The traversal *)

Definition MAX_HOPS : nat := 30.

(** The variables of the loop: the array [hops], the set
    [visitedEquipment] (its elements in insertion order) and
    [currentEquipment]. *)
Module Loop.
Record state : Type := {
  hops : list hop;
  visitedEquipment : list string;
  currentEquipment : string
}.
End Loop.

Definition has (visited : list string) (equipment : string) : bool :=
  existsb (String.eqb equipment) visited.

Section Traversal.

Variables (sourceEquipment sourceIP destIP : string) (routingTable : list route).

Definition failed (f : failure) (hops : list hop) : TraceResult :=
  {| Trace.success := false; Trace.error := Some f; Trace.hops := hops;
     Trace.sourceEquipment := sourceEquipment; Trace.sourceIP := sourceIP;
     Trace.destIP := destIP |}.

Definition reached (hops : list hop) : TraceResult :=
  {| Trace.success := true; Trace.error := None; Trace.hops := hops;
     Trace.sourceEquipment := sourceEquipment; Trace.sourceIP := sourceIP;
     Trace.destIP := destIP |}.

(** One turn of the [for] loop: [inr] when it returns, [inl] with the
    updated variables when it goes on. *)
Definition loop_body (st : Loop.state) : Loop.state + TraceResult :=
  let hops := Loop.hops st in
  let visitedEquipment := Loop.visitedEquipment st in
  let currentEquipment := Loop.currentEquipment st in
  if has visitedEquipment currentEquipment
  then inr (failed (RoutingLoop currentEquipment) hops)
  else
    let visitedEquipment := (visitedEquipment ++ [currentEquipment])%list in
    match findRouteEntry currentEquipment destIP routingTable with
    | None => inr (failed (NoRoute destIP currentEquipment) hops)
    | Some routeEntry =>
        if is_directo (Gateway routeEntry)
        then inr (reached
                    (hops ++ [{| Hop.currentEquipment := currentEquipment;
                                 Hop.destNetwork :=
                                   (IP_Destino routeEntry ++ Mascara routeEntry)%string;
                                 Hop.gateway := "directo";
                                 Hop.nextEquipment := None |}])%list)
        else
          match findEquipmentByGateway (Gateway routeEntry) routingTable currentEquipment with
          | Some (String c e as nextEquipment) =>
              inl {| Loop.hops :=
                       (hops ++ [{| Hop.currentEquipment := currentEquipment;
                                    Hop.destNetwork :=
                                      (IP_Destino routeEntry ++ Mascara routeEntry)%string;
                                    Hop.gateway := Gateway routeEntry;
                                    Hop.nextEquipment := Some nextEquipment |}])%list;
                     Loop.visitedEquipment := visitedEquipment;
                     Loop.currentEquipment := nextEquipment |}
          | _ => inr (failed (UnresolvedGateway (Gateway routeEntry) currentEquipment) hops)
          end
    end.

(** [for (let hopCount = 0; hopCount < MAX_HOPS; hopCount++)], by recursion
    on the turns that remain, [MAX_HOPS - hopCount]; the statement after the
    loop reports the exceeded limit. *)
Fixpoint for_loop (remaining : nat) (st : Loop.state) : TraceResult :=
  match remaining with
  | O => failed HopLimitExceeded (Loop.hops st)
  | S remaining' =>
      match loop_body st with
      | inr result => result
      | inl st' => for_loop remaining' st'
      end
  end.

(** The number of turns [for_loop] takes, and the variables after [n] turns
    that all went on ([None] when the loop has returned before). *)
Fixpoint turns (remaining : nat) (st : Loop.state) : nat :=
  match remaining with
  | O => O
  | S remaining' =>
      match loop_body st with
      | inr _ => 1%nat
      | inl st' => S (turns remaining' st')
      end
  end.

Fixpoint state_after (n : nat) (st : Loop.state) : option Loop.state :=
  match n with
  | O => Some st
  | S n' =>
      match loop_body st with
      | inr _ => None
      | inl st' => state_after n' st'
      end
  end.

Definition initial : Loop.state :=
  {| Loop.hops := []; Loop.visitedEquipment := [];
     Loop.currentEquipment := sourceEquipment |}.

Definition executeTraceroute : TraceResult :=
  if negb (truthy sourceEquipment) || negb (truthy sourceIP) || negb (truthy destIP)
     || Nat.eqb (List.length routingTable) 0
  then failed InvalidInput []
  else
    let equipmentExists :=
      existsb (fun r => String.eqb (Equipo r) sourceEquipment) routingTable in
    if negb equipmentExists
    then failed (UnknownDevice sourceEquipment) []
    else for_loop MAX_HOPS initial.

End Traversal.


(** ** One turn of the loop *)

(** The hop pushed when [currentEquipment] forwards through [routeEntry] to
    [nextEquipment]. *)
Definition forward_hop (currentEquipment : string) (routeEntry : route)
  (nextEquipment : string) : hop :=
  {| Hop.currentEquipment := currentEquipment;
     Hop.destNetwork := (IP_Destino routeEntry ++ Mascara routeEntry)%string;
     Hop.gateway := Gateway routeEntry;
     Hop.nextEquipment := Some nextEquipment |}.

(** The hop pushed when [routeEntry] is directly connected. *)
Definition final_hop (currentEquipment : string) (routeEntry : route) : hop :=
  {| Hop.currentEquipment := currentEquipment;
     Hop.destNetwork := (IP_Destino routeEntry ++ Mascara routeEntry)%string;
     Hop.gateway := "directo";
     Hop.nextEquipment := None |}.

(** Where the packet goes from [equipment]: the selected route and the
    equipment its gateway resolves to, when there is one. *)
Definition next_hop (destIP : string) (routingTable : list route) (equipment : string)
  : option (route * string) :=
  match findRouteEntry equipment destIP routingTable with
  | None => None
  | Some routeEntry =>
      if is_directo (Gateway routeEntry) then None
      else match findEquipmentByGateway (Gateway routeEntry) routingTable equipment with
           | Some (String c e as nextEquipment) => Some (routeEntry, nextEquipment)
           | _ => None
           end
  end.

(** [a] forwards to [b]: the gateway of the route selected at [a] resolves
    to [b]. *)
Definition forwards (destIP : string) (routingTable : list route) (a b : string) : Prop :=
  exists routeEntry, next_hop destIP routingTable a = Some (routeEntry, b).

Section Turn.

Variables (sE sIP dIP : string) (table : list route).

(** The ways a turn can end. *)
Inductive turn_outcome (st : Loop.state) : Loop.state + TraceResult -> Prop :=
| turn_loop :
    has (Loop.visitedEquipment st) (Loop.currentEquipment st) = true ->
    turn_outcome st
      (inr (failed sE sIP dIP (RoutingLoop (Loop.currentEquipment st)) (Loop.hops st)))
| turn_no_route :
    has (Loop.visitedEquipment st) (Loop.currentEquipment st) = false ->
    findRouteEntry (Loop.currentEquipment st) dIP table = None ->
    turn_outcome st
      (inr (failed sE sIP dIP (NoRoute dIP (Loop.currentEquipment st)) (Loop.hops st)))
| turn_reached routeEntry :
    has (Loop.visitedEquipment st) (Loop.currentEquipment st) = false ->
    findRouteEntry (Loop.currentEquipment st) dIP table = Some routeEntry ->
    is_directo (Gateway routeEntry) = true ->
    turn_outcome st
      (inr (reached sE sIP dIP
              (Loop.hops st ++ [final_hop (Loop.currentEquipment st) routeEntry])%list))
| turn_unresolved routeEntry :
    has (Loop.visitedEquipment st) (Loop.currentEquipment st) = false ->
    findRouteEntry (Loop.currentEquipment st) dIP table = Some routeEntry ->
    is_directo (Gateway routeEntry) = false ->
    next_hop dIP table (Loop.currentEquipment st) = None ->
    turn_outcome st
      (inr (failed sE sIP dIP
              (UnresolvedGateway (Gateway routeEntry) (Loop.currentEquipment st))
              (Loop.hops st)))
| turn_forward routeEntry next :
    has (Loop.visitedEquipment st) (Loop.currentEquipment st) = false ->
    next_hop dIP table (Loop.currentEquipment st) = Some (routeEntry, next) ->
    is_directo (Gateway routeEntry) = false ->
    next <> "" ->
    turn_outcome st
      (inl {| Loop.hops :=
                (Loop.hops st ++ [forward_hop (Loop.currentEquipment st) routeEntry next])%list;
              Loop.visitedEquipment :=
                (Loop.visitedEquipment st ++ [Loop.currentEquipment st])%list;
              Loop.currentEquipment := next |}).

End Turn.

(** ** Notions used by the statements *)

(** The rows of the table that compete at [equipment] for [destIP]: those it
    owns whose network contains the address. *)
Definition candidate (equipment destIP : string) (r : route) : bool :=
  String.eqb (Equipo r) equipment && isIPInNetwork destIP (IP_Destino r) (Mascara r).

(** The same result with another reported source address. *)
Definition report_sourceIP (s : string) (r : TraceResult) : TraceResult :=
  {| Trace.success := Trace.success r; Trace.error := Trace.error r;
     Trace.hops := Trace.hops r; Trace.sourceEquipment := Trace.sourceEquipment r;
     Trace.sourceIP := s; Trace.destIP := Trace.destIP r |}.

(** Each equipment of the list forwards to the one after it. *)
Fixpoint chain (destIP : string) (routingTable : list route) (ds : list string) : Prop :=
  match ds with
  | a :: (b :: _) as rest => forwards destIP routingTable a b /\ chain destIP routingTable rest
  | _ => True
  end.

(** A hop that goes on to another equipment, and a hop that ends the path. *)
Definition goes_on (h : hop) : Prop :=
  Hop.nextEquipment h <> None /\ is_directo (Hop.gateway h) = false.

Definition terminal (h : hop) : Prop :=
  Hop.nextEquipment h = None /\ Hop.gateway h = "directo".

(** ** Tables for concrete runs *)

(** A row, from the four cells of a line of the CSV file. *)
Definition row (e n m g : string) : route :=
  {| Equipo := e; IP_Destino := n; Mascara := m; Gateway := g |}.

(** The table of the end-to-end scenario, and the same with the gateway of
    A replaced by an address that no equipment reaches directly. *)
Definition scenario_table : list route :=
  [row "A" "10.0.1.0" "/24" "directo"; row "A" "192.168.1.0" "/24" "10.0.1.2";
   row "B" "10.0.1.0" "/24" "directo"; row "B" "192.168.1.0" "/24" "directo"].

Definition unresolved_table : list route :=
  [row "A" "10.0.1.0" "/24" "directo"; row "A" "192.168.1.0" "/24" "10.0.2.2";
   row "B" "10.0.1.0" "/24" "directo"; row "B" "192.168.1.0" "/24" "directo"].

(** A table where A and B send the packets for 192.168.1.0/24 to each
    other. *)
Definition loop_table : list route :=
  [row "A" "10.0.1.0" "/24" "directo"; row "A" "192.168.1.0" "/24" "10.0.1.2";
   row "B" "10.0.1.0" "/24" "directo"; row "B" "192.168.1.0" "/24" "10.0.1.1"].

(** A line of routers R0, R1, ...: Ri sits on the links 10.0.i.0/24 and
    10.0.(i+1).0/24 and sends the packets for 192.168.1.0/24 to the far end
    of the second, which is on R(i+1). *)
Definition decimal (n : nat) : string := NilEmpty.string_of_uint (Nat.to_uint n).

Definition line_name (i : nat) : string := ("R" ++ decimal i)%string.

Definition line_rows (i : nat) : list route :=
  [row (line_name i) ("10.0." ++ decimal i ++ ".0") "/24" "directo";
   row (line_name i) ("10.0." ++ decimal (S i) ++ ".0") "/24" "directo";
   row (line_name i) "192.168.1.0" "/24" ("10.0." ++ decimal (S i) ++ ".2")]%string.

Definition line_table (n : nat) : list route := flat_map line_rows (seq 0 n).

Definition line_names (n : nat) : list string := map line_name (seq 0 n).

(** [chain], as a test. *)
Fixpoint chainb (destIP : string) (routingTable : list route) (ds : list string) : bool :=
  match ds with
  | a :: (b :: _) as rest =>
      match next_hop destIP routingTable a with
      | Some (_, b') => String.eqb b' b
      | None => false
      end && chainb destIP routingTable rest
  | _ => true
  end.

(** Three routes of A towards 192.168.1.50: a /16, then two /24 that differ
    by their gateway. *)
Definition overlap_table : list route :=
  [row "A" "192.168.0.0" "/16" "10.0.1.2";
   row "A" "192.168.1.0" "/24" "10.0.1.3";
   row "B" "192.168.1.0" "/24" "directo";
   row "A" "192.168.1.0" "/24" "10.0.1.4"].

(** ** Further notions: paths *)

(** The hops lead from [start] to [stop]: each hop is at the equipment the
    one before it names as next, the first is at [start], and the last names
    [stop]; with no hop, [stop] is [start]. *)
Fixpoint path_to (start : string) (hs : list hop) (stop : string) : Prop :=
  match hs with
  | [] => stop = start
  | h :: rest =>
      Hop.currentEquipment h = start
      /\ exists next, Hop.nextEquipment h = Some next /\ path_to next rest stop
  end.

(** The hops are linked: the first is at [start], each one but the last
    names the equipment of the one after it, and only the last may name
    none. *)
Fixpoint linked (start : string) (hs : list hop) : Prop :=
  match hs with
  | [] => True
  | h :: rest =>
      Hop.currentEquipment h = start
      /\ match Hop.nextEquipment h with
         | Some next => linked next rest
         | None => rest = []
         end
  end.

(** The equipment that owns at least one row of the table. *)
Definition owns_row (routingTable : list route) (equipment : string) : Prop :=
  exists r, In r routingTable /\ Equipo r = equipment.

(** What the variables of the loop satisfy at the start of every turn. *)
Record loop_invariant (sE dIP : string) (table : list route) (st : Loop.state) : Prop := {
  inv_path : path_to sE (Loop.hops st) (Loop.currentEquipment st);
  inv_visited : map Hop.currentEquipment (Loop.hops st) = Loop.visitedEquipment st;
  inv_nodup : NoDup (Loop.visitedEquipment st);
  inv_routes :
    Forall (fun h =>
              exists routeEntry next,
                next_hop dIP table (Hop.currentEquipment h) = Some (routeEntry, next)
                /\ h = forward_hop (Hop.currentEquipment h) routeEntry next)
           (Loop.hops st)
}.

(** The route selected at [d] is directly connected: the traversal ends
    there. *)
Definition ends_direct (destIP : string) (routingTable : list route) (d : string) : Prop :=
  exists routeEntry,
    findRouteEntry d destIP routingTable = Some routeEntry
    /\ is_directo (Gateway routeEntry) = true.

(** The hop [h] reports the route selected at its equipment for [destIP]:
    its network, and either the direct delivery or the gateway with the
    equipment the gateway resolves to. *)
Definition hop_follows_route (destIP : string) (routingTable : list route) (h : hop) : Prop :=
  exists routeEntry,
    findRouteEntry (Hop.currentEquipment h) destIP routingTable = Some routeEntry
    /\ Hop.destNetwork h = (IP_Destino routeEntry ++ Mascara routeEntry)%string
    /\ match Hop.nextEquipment h with
       | None => is_directo (Gateway routeEntry) = true /\ Hop.gateway h = "directo"
       | Some next =>
           is_directo (Gateway routeEntry) = false
           /\ Hop.gateway h = Gateway routeEntry
           /\ findEquipmentByGateway (Gateway routeEntry) routingTable
                (Hop.currentEquipment h) = Some next
           /\ next <> ""
       end.

(** The test of [findEquipmentByGateway] on a row: another equipment,
    directly connected, to a network that contains the gateway. *)
Definition resolves (gateway currentEquipment : string) (r : route) : bool :=
  negb (String.eqb (Equipo r) currentEquipment)
  && is_directo (Gateway r)
  && isIPInNetwork gateway (IP_Destino r) (Mascara r).

(** ** Further notions: dotted quads *)

(** The number a string of decimal digits denotes. *)
Definition decimal_value (g : string) : Z :=
  fold_left (fun acc c => acc * 10 + (Z.of_N (N_of_ascii c) - 48))
            (list_ascii_of_string g) 0.

(** The four numbers of a dotted quad. *)
Definition octets (ip : string) : list Z := map decimal_value (split "." ip).

(** One to three decimal digits, denoting at most 255. *)
Definition octet_string (g : string) : Prop :=
  (1 <= String.length g <= 3)%nat
  /\ forallb is_decimal_digit (list_ascii_of_string g) = true
  /\ decimal_value g <= 255.

(** The ten digits, and the strings of one to three digits. *)
Definition digit_chars : list ascii :=
  list_ascii_of_string "0123456789".

Definition digit_strings : list string :=
  (map (fun a => String a "") digit_chars
   ++ flat_map (fun a => map (fun b => String a (String b "")) digit_chars) digit_chars
   ++ flat_map (fun a =>
        flat_map (fun b => map (fun c => String a (String b (String c ""))) digit_chars)
                 digit_chars) digit_chars)%list.

Definition Q_eqb (p q : Q) : bool :=
  (Qnum p =? Qnum q) && Pos.eqb (Qden p) (Qden q).

Definition jsnum_eqb (a b : jsnum) : bool :=
  match a, b with
  | NaN, NaN => true
  | Inf s, Inf t => Bool.eqb s t
  | Fin p, Fin q => Q_eqb p q
  | _, _ => false
  end.

(** Both readers give the string the number it denotes, from 0 to 999. *)
Definition reads_as_decimal (g : string) : bool :=
  jsnum_eqb (Number g) (of_Z (decimal_value g))
  && jsnum_eqb (parseInt g (Some 10)) (of_Z (decimal_value g))
  && jsnum_eqb (parseInt g None) (of_Z (decimal_value g))
  && (0 <=? decimal_value g) && (decimal_value g <=? 999).

(** ** Loading a table: [FileUploader.jsx] *)

(** A parsed line of the CSV file: the parser gives each column the line
    has, as a string, under the name of its header; a column the line lacks
    is absent ([None] for [undefined]). *)
Module Csv.
Record row : Type := {
  Equipo : option string;
  IP_Destino : option string;
  Mascara : option string;
  Gateway : option string
}.
End Csv.

(** [array.join(sep)]. *)
Fixpoint join (sep : string) (l : list string) : string :=
  match l with
  | [] => ""
  | [s] => s
  | s :: rest => (s ++ sep ++ join sep rest)%string
  end.

Definition present (cell : option string) : bool :=
  match cell with Some _ => true | None => false end.

Definition requiredColumns : list (string * (Csv.row -> option string)) :=
  [("Equipo", Csv.Equipo); ("IP_Destino", Csv.IP_Destino);
   ("Mascara", Csv.Mascara); ("Gateway", Csv.Gateway)].

(** [validateCSVStructure]: [Some] of the message of the error it throws,
    [None] when it returns. *)
Definition validateCSVStructure (data : list Csv.row) : option string :=
  match data with
  | [] => Some "El archivo CSV está vacío"
  | first :: _ =>
      let missingColumns :=
        filter (fun col => negb (present (snd col first))) requiredColumns in
      match missingColumns with
      | [] => None
      | _ => Some ("Columnas faltantes en el CSV: " ++ join ", " (map fst missingColumns))%string
      end
  end.

(** The two tests the filter makes on a cell: [row.X], its truthiness, and
    [row.X.trim() !== '']; the second is only evaluated on a cell that
    passed the first, hence on a string. *)
Definition truthy_cell (c : option string) : bool :=
  match c with Some s => truthy s | None => false end.

Definition not_blank (c : option string) : bool :=
  match c with Some s => negb (String.eqb (trim s) "") | None => false end.

Definition cleanCSVData (data : list Csv.row) : list Csv.row :=
  filter (fun row =>
            truthy_cell (Csv.Equipo row) && truthy_cell (Csv.IP_Destino row)
            && truthy_cell (Csv.Mascara row) && truthy_cell (Csv.Gateway row)
            && not_blank (Csv.Equipo row) && not_blank (Csv.IP_Destino row)
            && not_blank (Csv.Mascara row) && not_blank (Csv.Gateway row)) data.

(** The callback [complete] of the parser: [inr] for the table handed to
    [onDataLoaded], [inl] for the message handed to [onError]. *)
Definition complete (data : list Csv.row) : string + list Csv.row :=
  match validateCSVStructure data with
  | Some message => inl message
  | None =>
      let cleanedData := cleanCSVData data in
      if Nat.eqb (List.length cleanedData) 0
      then inl "No se encontraron filas válidas en el CSV"
      else inr cleanedData
  end.

(** A loaded line as the engine reads it. *)
Definition cell (c : option string) : string :=
  match c with Some s => s | None => "" end.

Definition route_of (r : Csv.row) : route :=
  {| Equipo := cell (Csv.Equipo r); IP_Destino := cell (Csv.IP_Destino r);
     Mascara := cell (Csv.Mascara r); Gateway := cell (Csv.Gateway r) |}.

(** ** Editing the table from the diagram *)

(** The answers of the dialogs are arguments: [None] for a [prompt] that
    was cancelled.  Each handler gives the table it hands to
    [onRoutingDataChange], or [None] when it returns without calling it. *)

Definition handleDeleteNode (editMode confirmed : bool) (nodeId : string)
  (routingData : list route) : option (list route) :=
  if negb editMode then None
  else if confirmed
       then Some (filter (fun r => negb (String.eqb (Equipo r) nodeId)) routingData)
       else None.

(** The table it hands over: [routingData.filter(r => r.Equipo !== nodeId)]. *)
Definition without_equipment (nodeId : string) (routingData : list route) : list route :=
  filter (fun r => negb (String.eqb (Equipo r) nodeId)) routingData.

Definition handleAddNode (editMode : bool) (newNodeName ipDestino mascara : option string)
  (routingData : list route) : option (list route) :=
  if negb editMode then None
  else if negb (truthy_cell newNodeName) || String.eqb (trim (cell newNodeName)) "" then None
  else if existsb (fun r => String.eqb (Equipo r) (cell newNodeName)) routingData then None
  else if negb (truthy_cell ipDestino) then None
  else if negb (truthy_cell mascara) then None
  else Some (routingData
             ++ [{| Equipo := cell newNodeName; IP_Destino := cell ipDestino;
                    Mascara := cell mascara; Gateway := "directo" |}])%list.

(** [r.Equipo === label ? { ...r, Equipo: newName } : r]. *)
Definition rename_row (label newName : string) (r : route) : route :=
  if String.eqb (Equipo r) label
  then {| Equipo := newName; IP_Destino := IP_Destino r; Mascara := Mascara r;
          Gateway := Gateway r |}
  else r.

Definition onNodeDoubleClick (editMode : bool) (label : string) (answer : option string)
  (routingData : list route) : option (list route) :=
  if negb editMode then None
  else
    match answer with
    | None => None
    | Some newName =>
        if truthy newName && negb (String.eqb (trim newName) "")
           && negb (String.eqb newName label)
        then if existsb (fun r => String.eqb (Equipo r) newName) routingData then None
             else Some (map (rename_row label newName) routingData)
        else None
    end.

(** The renaming of [label] into [newName], on names and on what a result
    holds. *)
Definition rename (label newName s : string) : string :=
  if String.eqb s label then newName else s.

Definition rename_hop (label newName : string) (h : hop) : hop :=
  {| Hop.currentEquipment := rename label newName (Hop.currentEquipment h);
     Hop.destNetwork := Hop.destNetwork h;
     Hop.gateway := Hop.gateway h;
     Hop.nextEquipment := option_map (rename label newName) (Hop.nextEquipment h) |}.

Definition rename_failure (label newName : string) (f : failure) : failure :=
  match f with
  | InvalidInput => InvalidInput
  | UnknownDevice e => UnknownDevice (rename label newName e)
  | RoutingLoop e => RoutingLoop (rename label newName e)
  | NoRoute d e => NoRoute d (rename label newName e)
  | UnresolvedGateway g e => UnresolvedGateway g (rename label newName e)
  | HopLimitExceeded => HopLimitExceeded
  end.

Definition rename_result (label newName : string) (r : TraceResult) : TraceResult :=
  {| Trace.success := Trace.success r;
     Trace.error := option_map (rename_failure label newName) (Trace.error r);
     Trace.hops := map (rename_hop label newName) (Trace.hops r);
     Trace.sourceEquipment := rename label newName (Trace.sourceEquipment r);
     Trace.sourceIP := Trace.sourceIP r;
     Trace.destIP := Trace.destIP r |}.

(** A cell that holds a string with something else than white space, and
    a line whose four cells do. *)
Definition complete_cell (c : option string) : Prop :=
  exists s, c = Some s /\ s <> "" /\ trim s <> "".

Definition complete_row (row : Csv.row) : Prop :=
  complete_cell (Csv.Equipo row) /\ complete_cell (Csv.IP_Destino row)
  /\ complete_cell (Csv.Mascara row) /\ complete_cell (Csv.Gateway row).

(** ** Exporting the table: [exportToCSV] *)

Definition newline : string := String (ascii_of_N 10) "".

(** [value || ''] on a string. *)
Definition or_empty (s : string) : string := if truthy s then s else "".

Definition export_cells (r : route) : list string :=
  [or_empty (Equipo r); or_empty (IP_Destino r); or_empty (Mascara r);
   or_empty (Gateway r)].

(** The text [exportToCSV] puts in the file it offers for download; [None]
    when it returns without a file. *)
Definition exportToCSV (data : list route) : option string :=
  if Nat.eqb (List.length data) 0 then None
  else
    let headers := ["Equipo"; "IP_Destino"; "Mascara"; "Gateway"] in
    let rows := map export_cells data in
    Some (join newline (join "," headers :: map (fun row => join "," row) rows)).

(** The character occurs in the string. *)
Definition contains (c : ascii) (s : string) : bool :=
  existsb (Ascii.eqb c) (list_ascii_of_string s).

(** ** Files for concrete runs *)

Definition csv_line (e n m g : string) : Csv.row :=
  {| Csv.Equipo := Some e; Csv.IP_Destino := Some n; Csv.Mascara := Some m;
     Csv.Gateway := Some g |}.

(** The lines of [unresolved_table], with an empty line and a line cut short
    among them. *)
Definition unresolved_file : list Csv.row :=
  [csv_line "A" "10.0.1.0" "/24" "directo";
   csv_line "A" "192.168.1.0" "/24" "10.0.2.2";
   csv_line " " "" "" "";
   {| Csv.Equipo := Some "B"; Csv.IP_Destino := Some "10.0.9.0"; Csv.Mascara := None;
      Csv.Gateway := None |};
   csv_line "B" "10.0.1.0" "/24" "directo";
   csv_line "B" "192.168.1.0" "/24" "directo"].

Definition unresolved_file_cleaned : list Csv.row :=
  [csv_line "A" "10.0.1.0" "/24" "directo";
   csv_line "A" "192.168.1.0" "/24" "10.0.2.2";
   csv_line "B" "10.0.1.0" "/24" "directo";
   csv_line "B" "192.168.1.0" "/24" "directo"].


(** The scenario's table with a third equipment beside it. *)
Definition three_table : list route :=
  (scenario_table ++ [row "C" "172.16.0.0" "/16" "directo"])%list.

(** The renaming on the variables of the loop. *)
Definition rename_state (label newName : string) (st : Loop.state) : Loop.state :=
  {| Loop.hops := map (rename_hop label newName) (Loop.hops st);
     Loop.visitedEquipment := map (rename label newName) (Loop.visitedEquipment st);
     Loop.currentEquipment := rename label newName (Loop.currentEquipment st) |}.

(** The states that do not hold the new name. *)
Definition old_names (newName : string) (st : Loop.state) : Prop :=
  Loop.currentEquipment st <> newName
  /\ forall v, In v (Loop.visitedEquipment st) -> v <> newName.

(** The four fields of a row, in the order of the columns. *)
Definition fields (r : route) : list string :=
  [Equipo r; IP_Destino r; Mascara r; Gateway r].

(** Reading an exported text back: the lines, and the cells of each. *)
Definition read_back (content : string) : list (list string) :=
  map (split ",") (split (ascii_of_N 10) content).

(** ** Connecting two equipment in the diagram *)

(** The diagram has its own [isIPInNetwork], which is the one of the engine
    with [ipToNumber] written out in it (and without the [try]); the
    embedding of the engine's serves for both. *)

(** [routingData.filter(...)[0] || null]. *)
Definition getEquipmentNetwork (equipName : string) (routingData : list route)
  : option route :=
  hd_error
    (filter (fun r => String.eqb (Equipo r) equipName
                      && String.eqb (Gateway r) "directo"
                      && negb (String.eqb (IP_Destino r) "0.0.0.0"))
            routingData).

(** [isConnecting] is the flag [isConnectingRef.current]; [ipDestino],
    [mascara] and [gateway] are the answers to the prompts, of which the
    first two are only asked when the target has no network yet. *)
Definition onConnect (editMode isConnecting : bool) (sourceEquipo targetEquipo : string)
  (ipDestino mascara gateway : option string) (routingData : list route)
  : option (list route) :=
  if negb editMode || isConnecting then None
  else if String.eqb sourceEquipo targetEquipo then None
  else if negb (truthy sourceEquipo) || negb (truthy targetEquipo) then None
  else
    let existingConnection :=
      find (fun r =>
              String.eqb (Equipo r) sourceEquipo
              && negb (String.eqb (Gateway r) "directo")
              && existsb (fun target =>
                            String.eqb (Equipo target) targetEquipo
                            && String.eqb (Gateway target) "directo"
                            && isIPInNetwork (Gateway r) (IP_Destino target)
                                 (Mascara target))
                         routingData)
           routingData in
    match existingConnection with
    | Some _ => None
    | None =>
        match getEquipmentNetwork targetEquipo routingData with
        | None =>
            if negb (truthy_cell ipDestino) then None
            else if negb (truthy_cell mascara) then None
            else
              let newTargetRoute :=
                {| Equipo := targetEquipo; IP_Destino := cell ipDestino;
                   Mascara := cell mascara; Gateway := "directo" |} in
              if negb (truthy_cell gateway) then None
              else
                let newSourceRoute :=
                  {| Equipo := sourceEquipo; IP_Destino := cell ipDestino;
                     Mascara := cell mascara; Gateway := cell gateway |} in
                Some (routingData ++ [newTargetRoute; newSourceRoute])%list
        | Some targetNetwork =>
            if negb (truthy_cell gateway) then None
            else
              let newSourceRoute :=
                {| Equipo := sourceEquipo; IP_Destino := IP_Destino targetNetwork;
                   Mascara := Mascara targetNetwork; Gateway := cell gateway |} in
              Some (routingData ++ [newSourceRoute])%list
        end
    end.

(** ** The form and the application *)

(** [handleSubmit] of the form, whose [validateIP] is the one of the engine
    word for word: the request it passes to [onExecute], or [None] when it
    sets errors instead.  The three booleans are the keys of [newErrors]. *)
Definition handleSubmit (sourceEquipment sourceIP destIP : string)
  : option (string * string * string) :=
  let sourceEquipment_error := negb (truthy sourceEquipment) in
  let sourceIP_error :=
    if negb (truthy sourceIP) then true else negb (validateIP sourceIP) in
  let destIP_error :=
    if negb (truthy destIP) then true else negb (validateIP destIP) in
  if sourceEquipment_error || sourceIP_error || destIP_error then None
  else Some (sourceEquipment, sourceIP, destIP).

(** [handleExecuteTraceroute] of the application: the result it stores for
    a request. *)
Definition handleExecuteTraceroute (request : string * string * string)
  (routingData : list route) : TraceResult :=
  let '(sourceEquipment, sourceIP, destIP) := request in
  executeTraceroute sourceEquipment sourceIP destIP routingData.

(** [toggleEditMode]: the new mode and the new table. *)
Definition toggleEditMode (editMode : bool) (routingData : list route)
  : bool * list route :=
  (negb editMode,
   if negb editMode && Nat.eqb (List.length routingData) 0
   then [{| Equipo := "Equipo1"; IP_Destino := "0.0.0.0"; Mascara := "/0";
            Gateway := "directo" |}]
   else routingData).
(** ** The model on known values *)

Example split_address : split "." "192.168.1.50" = ["192"; "168"; "1"; "50"].
Proof. reflexivity. Qed.

Example Number_readings :
  Number "168" = of_Z 168 /\ Number "" = of_Z 0 /\ Number " 0x1f " = of_Z 31
  /\ Number "1e3" = of_Z 1000 /\ Number "abc" = NaN /\ Number "1 2" = NaN
  /\ Number "9007199254740993" = of_Z 9007199254740992.
Proof. repeat split; vm_compute; reflexivity. Qed.

Example parseInt_readings :
  parseInt "24" None = of_Z 24 /\ parseInt "24abc" None = of_Z 24
  /\ parseInt "-5" None = of_Z (-5) /\ parseInt "0x10" None = of_Z 16
  /\ parseInt "" None = NaN /\ parseInt "abc" None = NaN
  /\ parseInt "08" (Some 10) = of_Z 8.
Proof. repeat split; vm_compute; reflexivity. Qed.

Example shift_counts_wrap :
  shl (-1) 8 = -256 /\ shl (-1) 32 = -1 /\ ushr (-256) 0 = 4294967040
  /\ shl 192 24 = -1073741824.
Proof. repeat split; vm_compute; reflexivity. Qed.

Example ipToNumber_values :
  ipToNumber "10.0.1.2" = 167772418 /\ ipToNumber "192.168.1.50" = -1062731470
  /\ ipToNumber "10" = 167772160 /\ ipToNumber "abc" = 0.
Proof. repeat split; vm_compute; reflexivity. Qed.

Example isIPInNetwork_values :
  isIPInNetwork "192.168.1.50" "192.168.1.0" "/24" = true
  /\ isIPInNetwork "192.168.2.50" "192.168.1.0" "/24" = false
  /\ isIPInNetwork "192.168.2.50" "192.168.0.0" "/16" = true
  /\ isIPInNetwork "10.0.1.2" "10.0.1.2" "/32" = true
  /\ isIPInNetwork "10.0.1.3" "10.0.1.2" "/32" = false
  /\ isIPInNetwork "10.0.1.2" "10.0.1.0" "" = false.
Proof. repeat split; vm_compute; reflexivity. Qed.

Example validateIP_values :
  validateIP "192.168.1.50" = true /\ validateIP "256.1.1.1" = false
  /\ validateIP "1.2.3" = false /\ validateIP "1.2.3.4.5" = false
  /\ validateIP "a.b.c.d" = false /\ validateIP "" = false.
Proof. repeat split; vm_compute; reflexivity. Qed.

(** The first case of the documentation: two hops, through B. *)
Example scenario_run :
  executeTraceroute "A" "192.168.1.1" "192.168.1.50" scenario_table
  = reached "A" "192.168.1.1" "192.168.1.50"
      [forward_hop "A" (row "A" "192.168.1.0" "/24" "10.0.1.2") "B";
       final_hop "B" (row "B" "192.168.1.0" "/24" "directo")].
Proof. vm_compute. reflexivity. Qed.

Example messages :
  message (RoutingLoop "A") = "Loop infinito detectado en el equipo " ++ quoted "A"
  /\ String.length (quoted "A") = 3%nat.
Proof. split; reflexivity. Qed.

(** ** 32-bit arithmetic *)

Lemma int32_range z : - 2 ^ 31 <= int32 z < 2 ^ 31.
Proof.
  unfold int32.
  pose proof (Z.mod_pos_bound z (2 ^ 32) ltac:(lia)) as Hb.
  destruct (Z.ltb_spec (z mod 2 ^ 32) (2 ^ 31)); lia.
Qed.

Lemma int32_small z : - 2 ^ 31 <= z < 2 ^ 31 -> int32 z = z.
Proof.
  intros Hz. unfold int32.
  destruct (Z_lt_ge_dec z 0) as [Hneg | Hpos].
  - replace (z mod 2 ^ 32) with (z + 2 ^ 32).
    + destruct (Z.ltb_spec (z + 2 ^ 32) (2 ^ 31)); lia.
    + apply Z.mod_unique with (q := -1); lia.
  - rewrite Z.mod_small by lia.
    destruct (Z.ltb_spec z (2 ^ 31)); lia.
Qed.

Lemma int32_idem z : int32 (int32 z) = int32 z.
Proof. apply int32_small, int32_range. Qed.

Lemma bor_int32 x y : int32 (bor x y) = bor x y.
Proof. apply int32_idem. Qed.

Lemma ipToNumber_int32 ip : int32 (ipToNumber ip) = ipToNumber ip.
Proof. apply bor_int32. Qed.

Lemma band_all_ones x : band x 4294967295 = int32 x.
Proof.
  unfold band. replace (int32 4294967295) with (-1) by reflexivity.
  rewrite Z.land_m1_r. apply int32_idem.
Qed.

(** ** Strings *)

Lemma truthy_true s : truthy s = true <-> s <> "".
Proof. destruct s; simpl; split; congruence. Qed.

Lemma truthy_false s : truthy s = false <-> s = "".
Proof. destruct s; simpl; split; congruence. Qed.

Lemma is_directo_literal g : g = "directo" -> is_directo g = true.
Proof. intros ->. reflexivity. Qed.

(** ** Numbers that are integers *)

Lemma Qred_inject_Z z : Qred (inject_Z z) = inject_Z z.
Proof.
  pose proof (Qred_correct (inject_Z z)) as Hc.
  pose proof (gcd_Qred (inject_Z z)) as Hg.
  destruct (Qred (inject_Z z)) as [a b].
  unfold Qeq in Hc. simpl in Hc, Hg.
  rewrite Z.mul_1_r in Hc. subst a.
  rewrite Z.gcd_comm, (Z.mul_comm z), Z.gcd_mul_diag_l in Hg by lia.
  unfold inject_Z. f_equal; [lia|].
  apply Pos2Z.inj. exact Hg.
Qed.

Lemma round_pos_exact n : 0 < n < 2 ^ 53 -> round_pos n 1 = of_Z n.
Proof.
  intros [Hpos Hlt].
  pose proof (Z.log2_spec n Hpos) as [Hlo _].
  assert (He : 0 <= Z.log2 n <= 52).
  { split; [apply Z.log2_nonneg|].
    apply (Z.log2_lt_pow2 n 53 Hpos) in Hlt. lia. }
  unfold round_pos.
  change (Z.log2 1) with 0. rewrite Z.sub_0_r.
  set (e := Z.log2 n) in *.
  replace (0 <=? e) with true by (symmetry; apply Z.leb_le; lia).
  replace (1 * 2 ^ e <=? n) with true by (symmetry; apply Z.leb_le; lia).
  rewrite Z.max_l by lia.
  destruct (Z.eq_dec e 52) as [E | E].
  - rewrite E. change (52 - 52) with 0. cbv beta iota zeta.
    change (0 <=? 0) with true. cbv iota.
    change (1 * 2 ^ 0) with 1.
    rewrite Z.div_1_r, Z.mod_1_r. change (2 * 0 <? 1) with true. cbv iota.
    change (2 ^ 0) with 1. rewrite Z.mul_1_r.
    replace (2 ^ 1024 <=? n) with false; [reflexivity|].
    symmetry. apply Z.leb_gt.
    apply Z.lt_trans with (2 ^ 53); [exact Hlt|]. apply Z.pow_lt_mono_r; lia.
  - replace (0 <=? e - 52) with false by (symmetry; apply Z.leb_gt; lia).
    rewrite Z.div_1_r, Z.mod_1_r. change (2 * 0 <? 1) with true. cbv iota.
    unfold of_Z. f_equal.
    rewrite <- (Qred_inject_Z n). apply Qred_complete.
    unfold Qeq, inject_Z. simpl Qnum. simpl Qden.
    rewrite Z2Pos.id by (apply Z.pow_pos_nonneg; lia). lia.
Qed.

Lemma round_double_exact z : Z.abs z < 2 ^ 53 -> round_double (inject_Z z) = of_Z z.
Proof.
  intros Hz. unfold round_double. simpl Qnum. simpl Qden.
  destruct z as [|n|n].
  - reflexivity.
  - apply round_pos_exact. lia.
  - rewrite round_pos_exact by lia. reflexivity.
Qed.

Lemma truncate_inject_Z z : truncate (inject_Z z) = z.
Proof. unfold truncate. simpl. apply Z.quot_1_r. Qed.

Lemma sub_of_Z a b : Z.abs (a - b) < 2 ^ 53 -> sub (of_Z a) (of_Z b) = of_Z (a - b).
Proof.
  intros H. unfold sub, of_Z.
  replace (inject_Z a - inject_Z b)%Q with (inject_Z (a - b)).
  - apply round_double_exact, H.
  - unfold Qminus, Qplus, Qopp, inject_Z. simpl. f_equal. lia.
Qed.

Lemma shl_count x n : shl x n = shl x (n mod 32).
Proof.
  unfold shl, uint32. f_equal. f_equal.
  assert (Hd : (32 | 2 ^ 32)) by (exists (2 ^ 27); reflexivity).
  rewrite !(Z.mod_mod_divide _ _ _ Hd). now rewrite Z.mod_mod.
Qed.

Lemma maskNumOf_of_Z p :
  Z.abs p < 2 ^ 52 -> maskNumOf (of_Z p) = ushr (shl (-1) ((32 - p) mod 32)) 0.
Proof.
  intros Hp. unfold maskNumOf.
  rewrite sub_of_Z by lia.
  unfold ToUint32, of_Z. rewrite truncate_inject_Z.
  rewrite shl_count. unfold uint32.
  assert (Hd : (32 | 2 ^ 32)) by (exists (2 ^ 27); reflexivity).
  now rewrite (Z.mod_mod_divide _ _ _ Hd).
Qed.

Lemma maskNumOf_wraps p :
  Z.abs p < 2 ^ 52 -> maskNumOf (of_Z p) = maskNumOf (of_Z (p mod 32)).
Proof.
  intros Hp.
  pose proof (Z.mod_pos_bound p 32 ltac:(lia)) as Hb.
  rewrite (maskNumOf_of_Z p Hp), (maskNumOf_of_Z (p mod 32)) by lia.
  now rewrite Zminus_mod_idemp_r.
Qed.

(** ** The address matcher *)

Lemma isIPInNetwork_unfold ip net mask :
  isIPInNetwork ip net mask
  = truthy ip && truthy net && truthy mask
    && (band (ipToNumber ip) (maskNumOf (maskBitsOf mask))
        =? band (ipToNumber net) (maskNumOf (maskBitsOf mask))).
Proof.
  unfold isIPInNetwork.
  destruct (truthy ip), (truthy net), (truthy mask); cbv beta iota zeta delta [negb orb andb];
    reflexivity.
Qed.

(** C1.  On the code the claim fails: the shift count [32 - 0] is reduced
    modulo 32 to 0, so the mask of the prefix length 0 has all its 32 bits
    set and "/0" only matches a network equal to the address.  The valid
    address 1.2.3.4 is not in 0.0.0.0/0. *)
Theorem prefix_zero_is_exact_match :
  (forall ip net,
     isIPInNetwork ip net "/0"
     = truthy ip && truthy net && (ipToNumber ip =? ipToNumber net))
  /\ validateIP "1.2.3.4" = true /\ validateIP "0.0.0.0" = true
  /\ isIPInNetwork "1.2.3.4" "0.0.0.0" "/0" = false.
Proof.
  split; [|repeat split; vm_compute; reflexivity].
  intros ip net. rewrite isIPInNetwork_unfold.
  replace (maskNumOf (maskBitsOf "/0")) with 4294967295 by (vm_compute; reflexivity).
  rewrite !band_all_ones, !ipToNumber_int32.
  simpl truthy. now rewrite andb_true_r.
Qed.

(** ** Malformed addresses *)





(** ** Prefix lengths out of range *)

(** A prefix length of 33 is not a non-match: it selects the top bit. *)
Lemma prefix_33_matches :
  maskBitsOf "/33" = of_Z 33
  /\ isIPInNetwork "1.2.3.4" "1.2.3.4" "/33" = true
  /\ isIPInNetwork "200.2.3.4" "128.0.0.0" "/33" = true.
Proof. repeat split; vm_compute; reflexivity. Qed.

(** C7, amended.  [isIPInNetwork] is total also for a prefix length [p]
    outside 0..32, and such a length is not rejected: an address still
    matches itself, and as the shift count is reduced modulo 32, the call
    returns, when [p] is not a multiple of 32, what it returns for the prefix
    length [p mod 32]. *)
Theorem prefix_length_out_of_range_wraps (ip network mask mask' : string) (p : Z) :
  (ip <> "" -> mask <> "" -> isIPInNetwork ip ip mask = true)
  /\
  (mask <> "" -> mask' <> "" ->
   maskBitsOf mask = of_Z p -> (p < 0 \/ 32 < p) -> Z.abs p < 2 ^ 52 -> p mod 32 <> 0 ->
   maskBitsOf mask' = of_Z (p mod 32) ->
   isIPInNetwork ip network mask = isIPInNetwork ip network mask').
Proof.
  split.
  - intros H1 H2. rewrite isIPInNetwork_unfold.
    apply truthy_true in H1, H2. rewrite H1, H2. apply Z.eqb_refl.
  - intros H1 H2 Hm _ Hp _ Hm'.
    rewrite !isIPInNetwork_unfold, Hm, Hm', (maskNumOf_wraps p Hp).
    apply truthy_true in H1, H2. now rewrite H1, H2.
Qed.

Lemma prefix_length_out_of_range_wraps_witness :
  isIPInNetwork "200.2.3.4" "200.2.3.4" "/33" = true
  /\ isIPInNetwork "200.2.3.4" "128.0.0.0" "/33" = isIPInNetwork "200.2.3.4" "128.0.0.0" "/1".
Proof.
  split.
  - apply (proj1 (prefix_length_out_of_range_wraps "200.2.3.4" "128.0.0.0" "/33" "/1" 33));
      discriminate.
  - apply (proj2 (prefix_length_out_of_range_wraps "200.2.3.4" "128.0.0.0" "/33" "/1" 33)).
    + discriminate.
    + discriminate.
    + vm_compute. reflexivity.
    + right. lia.
    + simpl. lia.
    + discriminate.
    + vm_compute. reflexivity.
Defined.

(** ** The order of prefix lengths *)

Lemma Qgt_bool_iff p q : negb (Qle_bool p q) = true <-> (q < p)%Q.
Proof.
  rewrite negb_true_iff. split; intros H.
  - apply Qnot_le_lt. intros Hle. apply Qle_bool_iff in Hle. congruence.
  - apply not_true_is_false. intros Hle. apply Qle_bool_iff in Hle.
    exact (Qlt_not_le _ _ H Hle).
Qed.

Lemma Qgt_bool_false_iff p q : negb (Qle_bool p q) = false <-> (p <= q)%Q.
Proof. rewrite negb_false_iff. apply Qle_bool_iff. Qed.

Lemma gt_trans a b c : gt b a = true -> gt c b = true -> gt c a = true.
Proof.
  destruct a as [|[|]|a], b as [|[|]|b], c as [|[|]|c]; simpl; try congruence.
  rewrite !Qgt_bool_iff. intros H1 H2. exact (Qlt_trans _ _ _ H1 H2).
Qed.

Lemma gt_after_le m b x :
  m <> NaN -> gt m b = false -> gt x b = true -> gt x m = true.
Proof.
  destruct m as [|[|]|m], b as [|[|]|b], x as [|[|]|x]; simpl; try congruence.
  rewrite Qgt_bool_false_iff, !Qgt_bool_iff. intros _ H1 H2.
  exact (Qle_lt_trans _ _ _ H1 H2).
Qed.

(** ** Route selection: longest prefix, first among equals *)

(** The invariant of the reduction: the best row so far is more specific
    than every row before it and at least as specific as every row after
    it. *)
Lemma fold_more_specific others :
  forall before best after,
    (forall r, In r (after ++ others) -> maskBitsOf (Mascara r) <> NaN) ->
    (forall r, In r before ->
       gt (maskBitsOf (Mascara best)) (maskBitsOf (Mascara r)) = true) ->
    (forall r, In r after ->
       gt (maskBitsOf (Mascara r)) (maskBitsOf (Mascara best)) = false) ->
    exists before' after',
      (before ++ best :: after ++ others
       = before' ++ fold_left more_specific others best :: after')%list
      /\ (forall r, In r before' ->
            gt (maskBitsOf (Mascara (fold_left more_specific others best)))
               (maskBitsOf (Mascara r)) = true)
      /\ (forall r, In r after' ->
            gt (maskBitsOf (Mascara r))
               (maskBitsOf (Mascara (fold_left more_specific others best))) = false).
Proof.
  induction others as [|x xs IH]; intros before best after Hnan Hb Ha.
  - exists before, after. rewrite app_nil_r. auto.
  - simpl fold_left. unfold more_specific at 2 4 6.
    destruct (gt (maskBitsOf (Mascara x)) (maskBitsOf (Mascara best))) eqn:Hx.
    + destruct (IH (before ++ best :: after)%list x []) as [b' [a' [Heq [Hb' Ha']]]].
      * intros r Hin. apply Hnan. apply in_or_app. right. right. exact Hin.
      * intros r Hin. apply in_app_or in Hin. destruct Hin as [Hin | [<- | Hin]].
        -- exact (gt_trans _ _ _ (Hb r Hin) Hx).
        -- exact Hx.
        -- apply (gt_after_le _ _ _ (Hnan r (in_or_app _ _ _ (or_introl Hin)))
                    (Ha r Hin) Hx).
      * intros r [].
      * exists b', a'. split; [|auto].
        rewrite <- Heq. rewrite <- app_assoc. reflexivity.
    + destruct (IH before best (after ++ [x])%list) as [b' [a' [Heq [Hb' Ha']]]].
      * intros r Hin. apply Hnan. rewrite <- app_assoc in Hin. exact Hin.
      * exact Hb.
      * intros r Hin. apply in_app_or in Hin. destruct Hin as [Hin | [<- | []]].
        -- exact (Ha r Hin).
        -- exact Hx.
      * exists b', a'. split; [|auto].
        rewrite <- Heq. rewrite <- app_assoc. reflexivity.
Qed.

Lemma filter_filter {A : Type} (p q : A -> bool) (l : list A) :
  filter q (filter p l) = filter (fun x => p x && q x) l.
Proof.
  induction l as [|a l IH]; simpl; [reflexivity|].
  destruct (p a); simpl; [destruct (q a)|]; now rewrite IH.
Qed.

Lemma filter_split {A : Type} (p : A -> bool) (t : list A) :
  forall l1 r l2,
    filter p t = (l1 ++ r :: l2)%list ->
    exists t1 t2, t = (t1 ++ r :: t2)%list /\ filter p t1 = l1 /\ filter p t2 = l2.
Proof.
  induction t as [|a t IH]; intros l1 r l2 H; simpl in H.
  - destruct l1; discriminate.
  - destruct (p a) eqn:Hp.
    + destruct l1 as [|x l1]; simpl in H; injection H as Ha Ht.
      * subst a. exists [], t. auto.
      * subst a. destruct (IH _ _ _ Ht) as [t1 [t2 [E [E1 E2]]]].
        exists (x :: t1), t2. simpl. rewrite Hp, E1. subst t. auto.
    + destruct (IH _ _ _ H) as [t1 [t2 [E [E1 E2]]]].
      exists (a :: t1), t2. simpl. rewrite Hp. subst t. auto.
Qed.

Lemma findRouteEntry_matches equipment destIP table :
  findRouteEntry equipment destIP table
  = match filter (candidate equipment destIP) table with
    | [] => None
    | first :: others => Some (fold_left more_specific others first)
    end.
Proof. unfold findRouteEntry. rewrite filter_filter. reflexivity. Qed.

Lemma findRouteEntry_split equipment destIP table :
  (forall r, In r table -> candidate equipment destIP r = true ->
             maskBitsOf (Mascara r) <> NaN) ->
  match findRouteEntry equipment destIP table with
  | None => forall r, In r table -> candidate equipment destIP r = false
  | Some best =>
      exists before after,
        table = (before ++ best :: after)%list
        /\ candidate equipment destIP best = true
        /\ (forall r, In r before -> candidate equipment destIP r = true ->
              gt (maskBitsOf (Mascara best)) (maskBitsOf (Mascara r)) = true)
        /\ (forall r, In r after -> candidate equipment destIP r = true ->
              gt (maskBitsOf (Mascara r)) (maskBitsOf (Mascara best)) = false)
  end.
Proof.
  intros Hnan. rewrite findRouteEntry_matches.
  destruct (filter (candidate equipment destIP) table) as [|first others] eqn:Hm.
  - intros r Hin. apply not_true_is_false. intros Hc.
    assert (Hf : In r (filter (candidate equipment destIP) table))
      by (apply filter_In; auto).
    rewrite Hm in Hf. destruct Hf.
  - destruct (fold_more_specific others [] first []) as [b [a [Heq [Hb Ha]]]].
    + simpl. intros r Hin.
      assert (Hf : In r (filter (candidate equipment destIP) table))
        by (rewrite Hm; now right).
      apply filter_In in Hf. destruct Hf as [Hf Hc]. exact (Hnan r Hf Hc).
    + intros r [].
    + intros r [].
    + simpl in Heq. rewrite <- Hm in Heq.
      destruct (filter_split _ _ _ _ _ Heq) as [t1 [t2 [E [E1 E2]]]].
      exists t1, t2. split; [exact E|]. split.
      * assert (Hf : In (fold_left more_specific others first)
                        (filter (candidate equipment destIP) table))
          by (rewrite Heq; apply in_or_app; right; now left).
        apply filter_In in Hf. apply Hf.
      * split; intros r Hin Hc.
        -- apply Hb. rewrite <- E1. apply filter_In. auto.
        -- apply Ha. rewrite <- E2. apply filter_In. auto.
Qed.

(** C2. Among the rows of the table that the equipment owns and whose
    network contains the destination, whose prefix lengths are numbers,
    [findRouteEntry] returns one whose prefix length is greatest, and among
    those the first in table order: every such row before it has a
    strictly smaller prefix length and none after it has a greater one
    (it returns nothing exactly when there is no such row).  In
    particular, when the rows in competition are a /24 and a /16, the /24 is
    returned. *)
Theorem longest_prefix_first_in_table (equipment destIP : string) (table : list route) :
  ((forall r, In r table -> candidate equipment destIP r = true ->
              maskBitsOf (Mascara r) <> NaN) ->
   match findRouteEntry equipment destIP table with
   | None => forall r, In r table -> candidate equipment destIP r = false
   | Some best =>
       exists before after,
         table = (before ++ best :: after)%list
         /\ candidate equipment destIP best = true
         /\ (forall r, In r before -> candidate equipment destIP r = true ->
               gt (maskBitsOf (Mascara best)) (maskBitsOf (Mascara r)) = true)
         /\ (forall r, In r after -> candidate equipment destIP r = true ->
               gt (maskBitsOf (Mascara r)) (maskBitsOf (Mascara best)) = false)
   end)
  /\
  (forall r24 r16,
     Mascara r24 = "/24" -> Mascara r16 = "/16" ->
     In r24 table -> In r16 table ->
     candidate equipment destIP r24 = true -> candidate equipment destIP r16 = true ->
     (forall r, In r table -> candidate equipment destIP r = true -> r = r24 \/ r = r16) ->
     findRouteEntry equipment destIP table = Some r24).
Proof.
  split; [apply findRouteEntry_split|].
  intros r24 r16 M24 M16 In24 In16 C24 C16 Honly.
  assert (Hnan : forall r, In r table -> candidate equipment destIP r = true ->
                           maskBitsOf (Mascara r) <> NaN).
  { intros r Hin Hc. destruct (Honly r Hin Hc) as [-> | ->];
      [rewrite M24 | rewrite M16]; vm_compute; discriminate. }
  pose proof (findRouteEntry_split equipment destIP table Hnan) as Hsel.
  destruct (findRouteEntry equipment destIP table) as [best|].
  - destruct Hsel as [before [after [E [Hc [Hb Ha]]]]].
    assert (Hin : In best table) by (rewrite E; apply in_or_app; right; now left).
    destruct (Honly best Hin Hc) as [-> | ->]; [reflexivity|]. exfalso.
    rewrite E in In24. apply in_app_or in In24.
    destruct In24 as [Hin24 | [Heq | Hin24]].
    + specialize (Hb r24 Hin24 C24). rewrite M24, M16 in Hb.
      vm_compute in Hb. discriminate.
    + rewrite Heq, M24 in M16. discriminate.
    + specialize (Ha r24 Hin24 C24). rewrite M24, M16 in Ha.
      vm_compute in Ha. discriminate.
  - rewrite (Hsel r24 In24) in C24. discriminate.
Qed.

Lemma longest_prefix_first_in_table_witness :
  (exists before after,
     overlap_table
     = (before ++ row "A" "192.168.1.0" "/24" "10.0.1.3" :: after)%list
     /\ (forall r, In r before -> candidate "A" "192.168.1.50" r = true ->
           gt (of_Z 24) (maskBitsOf (Mascara r)) = true)
     /\ (forall r, In r after -> candidate "A" "192.168.1.50" r = true ->
           gt (maskBitsOf (Mascara r)) (of_Z 24) = false))
  /\ findRouteEntry "A" "192.168.1.50"
       [row "A" "192.168.0.0" "/16" "10.0.1.2"; row "A" "192.168.1.0" "/24" "directo"]
     = Some (row "A" "192.168.1.0" "/24" "directo").
Proof.
  split.
  - assert (Hnan : forall r, In r overlap_table -> candidate "A" "192.168.1.50" r = true ->
                             maskBitsOf (Mascara r) <> NaN).
    { intros r Hin _.
      repeat (destruct Hin as [<- | Hin]; [vm_compute; discriminate|]). destruct Hin. }
    pose proof (proj1 (longest_prefix_first_in_table "A" "192.168.1.50" overlap_table) Hnan)
      as Hsel.
    replace (findRouteEntry "A" "192.168.1.50" overlap_table)
      with (Some (row "A" "192.168.1.0" "/24" "10.0.1.3")) in Hsel
      by (vm_compute; reflexivity).
    destruct Hsel as [before [after [E [_ [Hb Ha]]]]].
    exists before, after. repeat split; assumption.
  - apply (proj2 (longest_prefix_first_in_table "A" "192.168.1.50" _)
             (row "A" "192.168.1.0" "/24" "directo") (row "A" "192.168.0.0" "/16" "10.0.1.2"));
      try reflexivity.
    + right. now left.
    + now left.
    + intros r [<- | [<- | []]] _; auto.
Defined.

(** ** Route selection picks a row of the table *)

Lemma reduce_more_specific_In others :
  forall first, In (reduce more_specific first others) (first :: others).
Proof.
  unfold reduce.
  induction others as [|x xs IH]; intros first; simpl.
  - now left.
  - destruct (IH (more_specific first x)) as [H | H].
    + rewrite <- H. unfold more_specific.
      destruct (gt _ _); [right; left | left]; reflexivity.
    + right. right. exact H.
Qed.

Lemma findRouteEntry_candidate equipment destIP table r :
  findRouteEntry equipment destIP table = Some r ->
  In r table /\ candidate equipment destIP r = true.
Proof.
  unfold findRouteEntry, candidate.
  destruct (filter _ (filter _ table)) as [|first others] eqn:Hm; [discriminate|].
  intros H. injection H as <-.
  pose proof (reduce_more_specific_In others first) as Hin.
  rewrite <- Hm in Hin.
  apply filter_In in Hin. destruct Hin as [Hin Hnet].
  apply filter_In in Hin. destruct Hin as [Hin Heq].
  split; [exact Hin|]. now rewrite Heq, Hnet.
Qed.

Lemma findRouteEntry_owner equipment destIP table r :
  findRouteEntry equipment destIP table = Some r -> Equipo r = equipment.
Proof.
  intros H. apply findRouteEntry_candidate in H. destruct H as [_ H].
  unfold candidate in H. apply andb_true_iff in H. destruct H as [H _].
  now apply String.eqb_eq.
Qed.

Lemma findEquipmentByGateway_other gateway table current next :
  findEquipmentByGateway gateway table current = Some next -> next <> current.
Proof.
  unfold findEquipmentByGateway.
  destruct (find _ table) as [r|] eqn:Hf; [|discriminate].
  simpl. intros H. injection H as <-.
  apply find_some in Hf. destruct Hf as [_ Hf].
  apply andb_true_iff in Hf. destruct Hf as [Hf _].
  apply andb_true_iff in Hf. destruct Hf as [Hf _].
  apply negb_true_iff in Hf. now apply String.eqb_neq.
Qed.

Lemma findEquipmentByGateway_none gateway table current :
  (forall r, In r table -> Equipo r <> current -> is_directo (Gateway r) = true ->
             isIPInNetwork gateway (IP_Destino r) (Mascara r) = false) ->
  findEquipmentByGateway gateway table current = None.
Proof.
  intros H. unfold findEquipmentByGateway.
  destruct (find _ table) as [r|] eqn:Hf; [|reflexivity].
  apply find_some in Hf. destruct Hf as [Hin Hf].
  apply andb_true_iff in Hf. destruct Hf as [Hf Hnet].
  apply andb_true_iff in Hf. destruct Hf as [Hne Hd].
  apply negb_true_iff, String.eqb_neq in Hne.
  rewrite (H r Hin Hne Hd) in Hnet. discriminate.
Qed.

Lemma next_hop_spec destIP table a r b :
  next_hop destIP table a = Some (r, b) ->
  findRouteEntry a destIP table = Some r /\ is_directo (Gateway r) = false
  /\ findEquipmentByGateway (Gateway r) table a = Some b /\ b <> "" /\ b <> a.
Proof.
  unfold next_hop.
  destruct (findRouteEntry a destIP table) as [r0|]; [|discriminate].
  destruct (is_directo (Gateway r0)) eqn:Hd; [discriminate|].
  destruct (findEquipmentByGateway _ _ _) as [[|c e]|] eqn:Hg; try discriminate.
  intros H. injection H as <- <-.
  repeat split; auto; [discriminate|].
  now apply findEquipmentByGateway_other in Hg.
Qed.

Lemma forwards_owner destIP table a b :
  forwards destIP table a b ->
  existsb (fun r => String.eqb (Equipo r) a) table = true.
Proof.
  intros [r H]. apply next_hop_spec in H. destruct H as [H _].
  apply existsb_exists. exists r.
  split; [apply (findRouteEntry_candidate _ _ _ _ H)|].
  apply String.eqb_eq. apply (findRouteEntry_owner _ _ _ _ H).
Qed.

Lemma executeTraceroute_loop sE sIP dIP table :
  sE <> "" -> sIP <> "" -> dIP <> "" ->
  existsb (fun r => String.eqb (Equipo r) sE) table = true ->
  executeTraceroute sE sIP dIP table = for_loop sE sIP dIP table MAX_HOPS (initial sE).
Proof.
  intros H1 H2 H3 Hex. apply truthy_true in H1, H2, H3.
  unfold executeTraceroute. rewrite H1, H2, H3, Hex. simpl.
  destruct table; [discriminate|]. reflexivity.
Qed.

(** ** One turn of the loop *)

Section TurnFacts.

Variables (sE sIP dIP : string) (table : list route).

Lemma loop_body_visited st :
  has (Loop.visitedEquipment st) (Loop.currentEquipment st) = true ->
  loop_body sE sIP dIP table st
  = inr (failed sE sIP dIP (RoutingLoop (Loop.currentEquipment st)) (Loop.hops st)).
Proof. intros H. unfold loop_body. rewrite H. reflexivity. Qed.

Lemma loop_body_forward st routeEntry next :
  has (Loop.visitedEquipment st) (Loop.currentEquipment st) = false ->
  next_hop dIP table (Loop.currentEquipment st) = Some (routeEntry, next) ->
  loop_body sE sIP dIP table st
  = inl {| Loop.hops :=
             (Loop.hops st ++ [forward_hop (Loop.currentEquipment st) routeEntry next])%list;
           Loop.visitedEquipment :=
             (Loop.visitedEquipment st ++ [Loop.currentEquipment st])%list;
           Loop.currentEquipment := next |}.
Proof.
  intros Hv Hn. unfold loop_body, next_hop in *. rewrite Hv.
  destruct (findRouteEntry _ _ _) as [r|]; [|discriminate].
  destruct (is_directo (Gateway r)); [discriminate|].
  destruct (findEquipmentByGateway _ _ _) as [[|c e]|]; try discriminate.
  injection Hn as <- <-. reflexivity.
Qed.

Lemma loop_body_outcome st : turn_outcome sE sIP dIP table st (loop_body sE sIP dIP table st).
Proof.
  unfold loop_body.
  destruct (has _ _) eqn:Hv; [now apply turn_loop|].
  destruct (findRouteEntry _ _ _) as [r|] eqn:Hr; [|now apply turn_no_route].
  destruct (is_directo (Gateway r)) eqn:Hd; [now apply (turn_reached _ _ _ _ st r)|].
  destruct (findEquipmentByGateway _ _ _) as [[|c e]|] eqn:Hg.
  - apply (turn_unresolved _ _ _ _ st r); auto. unfold next_hop. now rewrite Hr, Hd, Hg.
  - apply (turn_forward _ _ _ _ st r (String c e)); auto; [|discriminate].
    unfold next_hop. now rewrite Hr, Hd, Hg.
  - apply (turn_unresolved _ _ _ _ st r); auto. unfold next_hop. now rewrite Hr, Hd, Hg.
Qed.

End TurnFacts.

(** ** The checks before the loop *)

(** C8. The arguments are checked before the loop is entered: an empty
    equipment name, source address or destination address, or an empty
    table, gives the failure [InvalidInput] with no hop; otherwise an
    equipment that owns no row of the table gives [UnknownDevice] with no
    hop. *)
Theorem preconditions_fail_fast (sE sIP dIP : string) (table : list route) :
  ((sE = "" \/ sIP = "" \/ dIP = "" \/ table = []) ->
   executeTraceroute sE sIP dIP table = failed sE sIP dIP InvalidInput [])
  /\
  (sE <> "" -> sIP <> "" -> dIP <> "" -> table <> [] ->
   (forall r, In r table -> Equipo r <> sE) ->
   executeTraceroute sE sIP dIP table = failed sE sIP dIP (UnknownDevice sE) []).
Proof.
  split.
  - intros H. unfold executeTraceroute.
    destruct H as [-> | [-> | [-> | ->]]]; simpl;
      rewrite ?orb_true_r; reflexivity.
  - intros H1 H2 H3 H4 Hnone. unfold executeTraceroute.
    apply truthy_true in H1, H2, H3. rewrite H1, H2, H3. simpl.
    destruct table as [|r0 t0]; [congruence|]. simpl Nat.eqb. cbv iota.
    replace (existsb _ _) with false; [reflexivity|].
    symmetry. apply not_true_is_false. intros Hex.
    apply existsb_exists in Hex. destruct Hex as [r [Hin Heq]].
    apply String.eqb_eq in Heq. exact (Hnone r Hin Heq).
Qed.

Lemma preconditions_fail_fast_witness :
  executeTraceroute "" "192.168.1.1" "192.168.1.50"
    [{| Equipo := "A"; IP_Destino := "10.0.1.0"; Mascara := "/24"; Gateway := "directo" |}]
  = failed "" "192.168.1.1" "192.168.1.50" InvalidInput []
  /\
  executeTraceroute "Z" "192.168.1.1" "192.168.1.50"
    [{| Equipo := "A"; IP_Destino := "10.0.1.0"; Mascara := "/24"; Gateway := "directo" |}]
  = failed "Z" "192.168.1.1" "192.168.1.50" (UnknownDevice "Z") [].
Proof.
  split.
  - apply (proj1 (preconditions_fail_fast "" "192.168.1.1" "192.168.1.50" _)).
    left. reflexivity.
  - apply (proj2 (preconditions_fail_fast "Z" "192.168.1.1" "192.168.1.50" _));
      try discriminate.
    intros r [<- | []]. simpl. discriminate.
Defined.

(** ** The source address *)

Lemma loop_body_sourceIP sE s1 s2 dIP table st :
  loop_body sE s1 dIP table st
  = match loop_body sE s2 dIP table st with
    | inl st' => inl st'
    | inr r => inr (report_sourceIP s1 r)
    end.
Proof.
  unfold loop_body.
  destruct (has _ _); [reflexivity|].
  destruct (findRouteEntry _ _ _) as [r|]; [|reflexivity].
  destruct (is_directo _); [reflexivity|].
  destruct (findEquipmentByGateway _ _ _) as [[|c e]|]; reflexivity.
Qed.

Lemma for_loop_sourceIP sE s1 s2 dIP table n :
  forall st,
    for_loop sE s1 dIP table n st = report_sourceIP s1 (for_loop sE s2 dIP table n st).
Proof.
  induction n as [|n IH]; intros st; simpl.
  - reflexivity.
  - rewrite (loop_body_sourceIP sE s1 s2).
    destruct (loop_body sE s2 dIP table st) as [st'|r]; [apply IH | reflexivity].
Qed.

Lemma executeTraceroute_sourceIP sE s1 s2 dIP table :
  s1 <> "" -> s2 <> "" ->
  executeTraceroute sE s1 dIP table
  = report_sourceIP s1 (executeTraceroute sE s2 dIP table).
Proof.
  intros H1 H2. apply truthy_true in H1, H2.
  unfold executeTraceroute. rewrite H1, H2. simpl negb.
  rewrite !orb_false_r.
  destruct (negb (truthy sE) || negb (truthy dIP) || Nat.eqb (List.length table) 0) eqn:Hv.
  - replace (negb (truthy sE) || false || negb (truthy dIP) || Nat.eqb (List.length table) 0)
      with true by (rewrite orb_false_r; now rewrite Hv).
    reflexivity.
  - replace (negb (truthy sE) || false || negb (truthy dIP) || Nat.eqb (List.length table) 0)
      with false by (rewrite orb_false_r; now rewrite Hv).
    destruct (negb (existsb _ table)); [reflexivity|].
    apply for_loop_sourceIP.
Qed.

(** C10. The source address takes no part in the resolution: with the
    equipment, the destination and the table fixed, two non-empty source
    addresses give results with the same outcome, the same error and the
    same hops; only the reported source address differs. *)
Theorem sourceIP_only_reported (sE s1 s2 dIP : string) (table : list route) :
  s1 <> "" -> s2 <> "" ->
  let r1 := executeTraceroute sE s1 dIP table in
  let r2 := executeTraceroute sE s2 dIP table in
  Trace.success r1 = Trace.success r2
  /\ Trace.error r1 = Trace.error r2
  /\ Trace.hops r1 = Trace.hops r2
  /\ Trace.sourceEquipment r1 = Trace.sourceEquipment r2
  /\ Trace.destIP r1 = Trace.destIP r2
  /\ Trace.sourceIP r1 = s1 /\ Trace.sourceIP r2 = s2.
Proof.
  intros H1 H2 r1 r2.
  pose proof (executeTraceroute_sourceIP sE s1 s2 dIP table H1 H2) as E12.
  pose proof (executeTraceroute_sourceIP sE s2 s1 dIP table H2 H1) as E21.
  fold r1 r2 in E12, E21. clearbody r1 r2.
  repeat split; try (rewrite E12; reflexivity).
  rewrite E21. reflexivity.
Qed.

Lemma sourceIP_only_reported_witness :
  "192.168.1.1" <> "" /\ "10.9.9.9" <> "" /\
  Trace.hops (executeTraceroute "A" "192.168.1.1" "192.168.1.50" scenario_table)
  = Trace.hops (executeTraceroute "A" "10.9.9.9" "192.168.1.50" scenario_table).
Proof.
  split; [discriminate|]. split; [discriminate|].
  apply (sourceIP_only_reported "A" "192.168.1.1" "10.9.9.9" "192.168.1.50" scenario_table);
    discriminate.
Defined.

(** ** The run of the loop *)

Section Run.

Variables (sE sIP dIP : string) (table : list route).

(** A turn that goes on pushes one hop and keeps the earlier ones. *)
Lemma loop_body_pushes st st' :
  loop_body sE sIP dIP table st = inl st' ->
  exists h, Loop.hops st' = (Loop.hops st ++ [h])%list /\ goes_on h.
Proof.
  intros H. pose proof (loop_body_outcome sE sIP dIP table st) as Ho.
  rewrite H in Ho. inversion Ho; subst.
  eexists. split; [reflexivity|].
  split; simpl; [discriminate | assumption].
Qed.

(** A turn that returns a failure returns the hops it was given. *)
Lemma loop_body_failure st r :
  loop_body sE sIP dIP table st = inr r -> Trace.success r = false ->
  Trace.hops r = Loop.hops st /\ Trace.error r <> Some HopLimitExceeded.
Proof.
  intros H Hs. pose proof (loop_body_outcome sE sIP dIP table st) as Ho.
  rewrite H in Ho. inversion Ho; subst; simpl in *;
    try discriminate; split; try reflexivity; discriminate.
Qed.

(** A turn that returns a success returns them with one terminal hop. *)
Lemma loop_body_success st r :
  loop_body sE sIP dIP table st = inr r -> Trace.success r = true ->
  exists t, Trace.hops r = (Loop.hops st ++ [t])%list /\ terminal t.
Proof.
  intros H Hs. pose proof (loop_body_outcome sE sIP dIP table st) as Ho.
  rewrite H in Ho. inversion Ho; subst; simpl in *; try discriminate.
  eexists. split; [reflexivity|]. split; reflexivity.
Qed.

Lemma turns_bound n : forall st, (turns sE sIP dIP table n st <= n)%nat.
Proof.
  induction n as [|n IH]; intros st; simpl; [lia|].
  destruct (loop_body sE sIP dIP table st) as [st'|r]; [specialize (IH st')|]; lia.
Qed.

Lemma state_after_hops n :
  forall st st', state_after sE sIP dIP table n st = Some st' ->
    exists pushed, Loop.hops st' = (Loop.hops st ++ pushed)%list
                   /\ List.length pushed = n /\ Forall goes_on pushed.
Proof.
  induction n as [|n IH]; intros st st' H; simpl in H.
  - injection H as <-. exists []. rewrite app_nil_r. repeat split. constructor.
  - destruct (loop_body sE sIP dIP table st) as [st1|r] eqn:Hb; [|discriminate].
    destruct (loop_body_pushes st st1 Hb) as [h [Hh Hg]].
    destruct (IH st1 st' H) as [pushed [Hp [Hl Hf]]].
    exists (h :: pushed). rewrite Hp, Hh, <- app_assoc. simpl.
    repeat split; [now rewrite Hl | now constructor].
Qed.

Lemma state_after_le n :
  forall m st st', state_after sE sIP dIP table n st = Some st' -> (m <= n)%nat ->
    exists stm, state_after sE sIP dIP table m st = Some stm
                /\ state_after sE sIP dIP table (n - m) stm = Some st'.
Proof.
  induction n as [|n IH]; intros m st st' H Hm.
  - replace m with 0%nat by lia. exists st. simpl in *. auto.
  - destruct m as [|m].
    + exists st. split; [reflexivity | exact H].
    + simpl in H |- *. destruct (loop_body sE sIP dIP table st) as [st1|r]; [|discriminate].
      apply (IH m st1 st' H). lia.
Qed.

(** Where [for_loop] stops: once [k] turns have gone on, either the next
    turn returns the result, or the turns are used up. *)
Lemma for_loop_stops n :
  forall st, exists k stk,
    (k <= n)%nat /\ state_after sE sIP dIP table k st = Some stk
    /\ (((k < n)%nat
         /\ loop_body sE sIP dIP table stk = inr (for_loop sE sIP dIP table n st))
        \/ (k = n
            /\ for_loop sE sIP dIP table n st
               = failed sE sIP dIP HopLimitExceeded (Loop.hops stk))).
Proof.
  induction n as [|n IH]; intros st.
  - exists 0%nat, st. simpl. repeat split; auto.
  - simpl. destruct (loop_body sE sIP dIP table st) as [st1|r] eqn:Hb.
    + destruct (IH st1) as [k [stk [Hk [Ha Hc]]]].
      exists (S k), stk. simpl. rewrite Hb.
      repeat split; [lia | exact Ha |].
      destruct Hc as [[Hlt Hc] | [-> Hc]]; [left; split; [lia | exact Hc] | right; auto].
    + exists 0%nat, st. simpl. repeat split; [lia|]. left. split; [lia | exact Hb].
Qed.

End Run.

(** ** Failures keep the hops *)

(** C5. A failure carries exactly the hops pushed before it: when the
    result is a failure, it was produced after some number [n] of turns that
    each pushed one hop, by the checks made before the loop ([n = 0]), by
    the turn that follows, or by the end of the loop; its hops are those of
    the variable [hops] at that point, [n] of them, and they extend the hops
    held after every earlier turn.  In particular, when the gateway of
    the route selected at the first equipment is in no network that another
    equipment declares directly connected, the result is
    [UnresolvedGateway] with no hop. *)
Theorem failures_keep_hops (sE sIP dIP : string) (table : list route) :
  (let r := executeTraceroute sE sIP dIP table in
   Trace.success r = false ->
   exists n st,
     (n <= MAX_HOPS)%nat
     /\ state_after sE sIP dIP table n (initial sE) = Some st
     /\ Trace.hops r = Loop.hops st
     /\ List.length (Trace.hops r) = n
     /\ (forall m stm, (m <= n)%nat ->
           state_after sE sIP dIP table m (initial sE) = Some stm ->
           exists later, Trace.hops r = (Loop.hops stm ++ later)%list)
     /\ ((n = 0%nat /\ (Trace.error r = Some InvalidInput
                         \/ Trace.error r = Some (UnknownDevice sE)))
         \/ loop_body sE sIP dIP table st = inr r
         \/ (n = MAX_HOPS /\ Trace.error r = Some HopLimitExceeded)))
  /\
  (forall routeEntry,
     sE <> "" -> sIP <> "" -> dIP <> "" ->
     findRouteEntry sE dIP table = Some routeEntry ->
     is_directo (Gateway routeEntry) = false ->
     (forall r, In r table -> Equipo r <> sE -> is_directo (Gateway r) = true ->
                isIPInNetwork (Gateway routeEntry) (IP_Destino r) (Mascara r) = false) ->
     executeTraceroute sE sIP dIP table
     = failed sE sIP dIP (UnresolvedGateway (Gateway routeEntry) sE) []).
Proof.
  split.
  - intros r Hfail.
    assert (Hcases :
              (Trace.hops r = []
               /\ (Trace.error r = Some InvalidInput
                   \/ Trace.error r = Some (UnknownDevice sE)))
              \/ r = for_loop sE sIP dIP table MAX_HOPS (initial sE)).
    { subst r. unfold executeTraceroute.
      destruct (_ || _); [left; split; [reflexivity | left; reflexivity]|].
      destruct (negb _); [left; split; [reflexivity | right; reflexivity] | right; reflexivity]. }
    destruct Hcases as [[Hnil Herr] | Hrun].
    + exists 0%nat, (initial sE). rewrite Hnil. simpl.
      repeat split; [lia | | left; split; [reflexivity | exact Herr]].
      intros m stm Hm Ha. replace m with 0%nat in Ha by lia.
      simpl in Ha. injection Ha as <-. exists []. reflexivity.
    + destruct (for_loop_stops sE sIP dIP table MAX_HOPS (initial sE))
        as [k [stk [Hk [Ha Hc]]]].
      rewrite <- Hrun in Hc.
      assert (Hh : Trace.hops r = Loop.hops stk).
      { destruct Hc as [[_ Hb] | [_ Hl]].
        - apply (loop_body_failure _ _ _ _ _ _ Hb Hfail).
        - rewrite Hl. reflexivity. }
      destruct (state_after_hops _ _ _ _ _ _ _ Ha) as [pushed [Hp [Hlen _]]].
      simpl in Hp.
      exists k, stk. repeat split; auto.
      * rewrite Hh, Hp. exact Hlen.
      * intros m stm Hm Hs.
        destruct (state_after_le _ _ _ _ _ _ _ _ Ha Hm) as [stm' [Hs' Hrest]].
        rewrite Hs in Hs'. injection Hs' as <-.
        destruct (state_after_hops _ _ _ _ _ _ _ Hrest) as [later [Hl _]].
        exists later. now rewrite Hh.
      * destruct Hc as [[_ Hb] | [Hn Hl]]; [right; left; exact Hb|].
        right. right. split; [exact Hn|]. rewrite Hl. reflexivity.
  - intros routeEntry H1 H2 H3 Hroute Hgw Hnone.
    rewrite executeTraceroute_loop; auto.
    + simpl. unfold loop_body. simpl.
      rewrite Hroute, Hgw.
      rewrite (findEquipmentByGateway_none _ _ _ Hnone). reflexivity.
    + apply existsb_exists. exists routeEntry.
      split; [apply (findRouteEntry_candidate _ _ _ _ Hroute)|].
      apply String.eqb_eq. apply (findRouteEntry_owner _ _ _ _ Hroute).
Qed.

Lemma failures_keep_hops_witness :
  executeTraceroute "A" "192.168.1.1" "192.168.1.50" unresolved_table
  = failed "A" "192.168.1.1" "192.168.1.50" (UnresolvedGateway "10.0.2.2" "A") [].
Proof.
  apply (proj2 (failures_keep_hops "A" "192.168.1.1" "192.168.1.50" unresolved_table)
           (row "A" "192.168.1.0" "/24" "10.0.2.2"));
    try discriminate; try reflexivity.
  intros r Hin Hne Hd.
  repeat (destruct Hin as [<- | Hin]; [try reflexivity; try discriminate |]);
    destruct Hin.
Defined.

(** ** The shape of the hops *)

Lemma for_loop_shape sE sIP dIP table n :
  forall st, Forall goes_on (Loop.hops st) ->
    let r := for_loop sE sIP dIP table n st in
    (Trace.success r = false /\ Forall goes_on (Trace.hops r))
    \/ (Trace.success r = true
        /\ exists before t, Trace.hops r = (before ++ [t])%list
                            /\ Forall goes_on before /\ terminal t).
Proof.
  induction n as [|n IH]; intros st Hinv; simpl.
  - left. split; [reflexivity | exact Hinv].
  - destruct (loop_body sE sIP dIP table st) as [st1|r] eqn:Hb.
    + apply IH.
      destruct (loop_body_pushes _ _ _ _ _ _ Hb) as [h [Hh Hg]].
      rewrite Hh. apply Forall_app. split; [exact Hinv | now constructor].
    + destruct (Trace.success r) eqn:Hs.
      * right. split; [reflexivity|].
        destruct (loop_body_success _ _ _ _ _ _ Hb Hs) as [t [Ht Hterm]].
        exists (Loop.hops st), t. auto.
      * left. split; [reflexivity|].
        destruct (loop_body_failure _ _ _ _ _ _ Hb Hs) as [Hh _].
        now rewrite Hh.
Qed.

Lemma executeTraceroute_shape sE sIP dIP table :
  let r := executeTraceroute sE sIP dIP table in
  (Trace.success r = false /\ Forall goes_on (Trace.hops r))
  \/ (Trace.success r = true
      /\ exists before t, Trace.hops r = (before ++ [t])%list
                          /\ Forall goes_on before /\ terminal t).
Proof.
  unfold executeTraceroute.
  destruct (_ || _); [left; split; [reflexivity | constructor]|].
  destruct (negb _); [left; split; [reflexivity | constructor]|].
  apply for_loop_shape. constructor.
Qed.

Lemma goes_on_not_terminal h :
  goes_on h ->
  Hop.nextEquipment h <> None /\ Hop.gateway h <> "directo"
  /\ is_directo (Hop.gateway h) = false.
Proof.
  intros [Hn Hg]. repeat split; auto.
  intros Heq. rewrite (is_directo_literal _ Heq) in Hg. discriminate.
Qed.

(** C9. In every result, a hop has no next equipment exactly when its
    gateway is the word "directo" (also when compared without regard to
    case), and such a hop only occurs as the last hop of a success: the hops
    of a failure contain none. *)
Theorem terminal_hop_only_last (sE sIP dIP : string) (table : list route) :
  let r := executeTraceroute sE sIP dIP table in
  (forall h, In h (Trace.hops r) ->
     (Hop.nextEquipment h = None <-> Hop.gateway h = "directo")
     /\ (Hop.nextEquipment h = None <-> is_directo (Hop.gateway h) = true))
  /\
  (forall i h, nth_error (Trace.hops r) i = Some h ->
     Hop.nextEquipment h = None ->
     Trace.success r = true /\ S i = List.length (Trace.hops r)).
Proof.
  intros r.
  assert (Hgo : forall h, goes_on h ->
            (Hop.nextEquipment h = None <-> Hop.gateway h = "directo")
            /\ (Hop.nextEquipment h = None <-> is_directo (Hop.gateway h) = true)).
  { intros h Hg. destruct (goes_on_not_terminal h Hg) as [H1 [H2 H3]].
    split; split; intros H; try contradiction.
    rewrite H3 in H. discriminate. }
  pose proof (executeTraceroute_shape sE sIP dIP table) as Hshape.
  cbv zeta in Hshape. fold r in Hshape. clearbody r.
  destruct Hshape as [[Hs Hall] | [Hs [before [t [Hh [Hall [Ht1 Ht2]]]]]]].
  - split.
    + intros h Hin. apply Hgo. rewrite Forall_forall in Hall. now apply Hall.
    + intros i h Hnth Hnone. apply nth_error_In in Hnth.
      rewrite Forall_forall in Hall. destruct (Hall h Hnth) as [Hn _]. contradiction.
  - split.
    + intros h Hin. rewrite Hh in Hin. apply in_app_or in Hin.
      destruct Hin as [Hin | [<- | []]].
      * apply Hgo. rewrite Forall_forall in Hall. now apply Hall.
      * rewrite Ht1, Ht2. repeat split; reflexivity.
    + intros i h Hnth Hnone. split; [exact Hs|].
      rewrite Hh in Hnth |- *. rewrite length_app. simpl.
      destruct (Nat.lt_ge_cases i (List.length before)) as [Hlt | Hge].
      * rewrite nth_error_app1 in Hnth by exact Hlt.
        apply nth_error_In in Hnth. rewrite Forall_forall in Hall.
        destruct (Hall h Hnth) as [Hn _]. contradiction.
      * assert (Hi : (i < List.length (before ++ [t]))%nat).
        { apply nth_error_Some. rewrite Hnth. discriminate. }
        rewrite length_app in Hi. simpl in Hi. lia.
Qed.

(** ** The hop limit *)

Lemma for_loop_length sE sIP dIP table n st :
  (List.length (Trace.hops (for_loop sE sIP dIP table n st))
   <= List.length (Loop.hops st) + n)%nat.
Proof.
  destruct (for_loop_stops sE sIP dIP table n st) as [k [stk [Hk [Ha Hc]]]].
  destruct (state_after_hops _ _ _ _ _ _ _ Ha) as [pushed [Hp [Hlen _]]].
  assert (Hstk : List.length (Loop.hops stk) = (List.length (Loop.hops st) + k)%nat).
  { rewrite Hp, length_app, Hlen. reflexivity. }
  destruct Hc as [[Hlt Hb] | [-> Hl]].
  - destruct (Trace.success (for_loop sE sIP dIP table n st)) eqn:Hs.
    + destruct (loop_body_success _ _ _ _ _ _ Hb Hs) as [t [Ht _]].
      rewrite Ht, length_app, Hstk. simpl. lia.
    + destruct (loop_body_failure _ _ _ _ _ _ Hb Hs) as [Hh _].
      rewrite Hh, Hstk. lia.
  - rewrite Hl. simpl. lia.
Qed.

Lemma has_app visited a d :
  has (visited ++ [a]) d = has visited d || String.eqb d a.
Proof.
  unfold has. rewrite existsb_app. simpl. now rewrite orb_false_r.
Qed.

(** Along a chain of distinct equipment not yet visited, every turn goes
    on: the loop pushes one hop per turn until the turns are used up. *)
Lemma for_loop_chain sE sIP dIP table n :
  forall ds st,
    List.length ds = S n -> NoDup ds ->
    hd_error ds = Some (Loop.currentEquipment st) ->
    chain dIP table ds ->
    (forall d, In d ds -> has (Loop.visitedEquipment st) d = false) ->
    exists pushed,
      for_loop sE sIP dIP table n st
      = failed sE sIP dIP HopLimitExceeded (Loop.hops st ++ pushed)
      /\ map Hop.currentEquipment pushed = firstn n ds
      /\ map Hop.nextEquipment pushed = map Some (firstn n (tl ds)).
Proof.
  induction n as [|n IH]; intros ds st Hlen Hnd Hhd Hch Hvis.
  - exists []. simpl. rewrite app_nil_r. auto.
  - destruct ds as [|a [|b rest]]; try discriminate.
    simpl in Hhd. injection Hhd as Ha.
    destruct Hch as [[r Hfw] Hch].
    assert (Hva : has (Loop.visitedEquipment st) (Loop.currentEquipment st) = false).
    { rewrite <- Ha. apply Hvis. now left. }
    rewrite Ha in Hfw.
    pose proof (loop_body_forward sE sIP dIP table st r b Hva Hfw) as Hb.
    simpl for_loop. rewrite Hb.
    set (st1 := {| Loop.hops := _; Loop.visitedEquipment := _;
                   Loop.currentEquipment := b |}).
    inversion Hnd as [|x l Hnotin Hnd']; subst x l.
    destruct (IH (b :: rest) st1) as [pushed [Hrun [Hcur Hnext]]];
      [ | exact Hnd' | | exact Hch | | ].
    + simpl in Hlen |- *. lia.
    + reflexivity.
    + simpl Loop.visitedEquipment. intros d Hd. rewrite has_app.
      rewrite (Hvis d (or_intror Hd)). simpl.
      apply String.eqb_neq. intros ->. apply Hnotin. rewrite Ha. exact Hd.
    + exists (forward_hop (Loop.currentEquipment st) r b :: pushed).
      rewrite Hrun. simpl Loop.hops. rewrite <- app_assoc. simpl.
      rewrite Hcur, Hnext, Ha. auto.
Qed.

(** C3. The loop takes at most 30 turns, so a result never has more than 30
    hops; and along a chain of 31 distinct equipment, each forwarding to the
    next, the result is the failure [HopLimitExceeded] with exactly 30 hops,
    one for each of the first 30 equipment. *)
Theorem hop_limit (sE sIP dIP : string) (table : list route) :
  ((turns sE sIP dIP table MAX_HOPS (initial sE) <= 30)%nat
   /\ (List.length (Trace.hops (executeTraceroute sE sIP dIP table)) <= 30)%nat)
  /\
  (forall ds,
     List.length ds = 31%nat -> NoDup ds -> hd_error ds = Some sE ->
     sE <> "" -> sIP <> "" -> dIP <> "" ->
     chain dIP table ds ->
     let r := executeTraceroute sE sIP dIP table in
     Trace.success r = false
     /\ Trace.error r = Some HopLimitExceeded
     /\ List.length (Trace.hops r) = 30%nat
     /\ map Hop.currentEquipment (Trace.hops r) = firstn 30 ds
     /\ map Hop.nextEquipment (Trace.hops r) = map Some (firstn 30 (tl ds))).
Proof.
  split.
  - split; [apply turns_bound|].
    unfold executeTraceroute.
    destruct (_ || _); [simpl; lia|].
    destruct (negb _); [simpl; lia|].
    apply (for_loop_length sE sIP dIP table MAX_HOPS (initial sE)).
  - intros ds Hlen Hnd Hhd H1 H2 H3 Hch r.
    assert (Hex : existsb (fun x => String.eqb (Equipo x) sE) table = true).
    { destruct ds as [|a [|b rest]]; try discriminate.
      simpl in Hhd. injection Hhd as ->.
      destruct Hch as [Hfw _]. apply (forwards_owner _ _ _ _ Hfw). }
    pose proof (executeTraceroute_loop sE sIP dIP table H1 H2 H3 Hex) as Hrun.
    fold r in Hrun.
    destruct (for_loop_chain sE sIP dIP table 30 ds (initial sE) Hlen Hnd Hhd Hch)
      as [pushed [Hres [Hcur Hnext]]]; [reflexivity|].
    change (for_loop sE sIP dIP table 30) with (for_loop sE sIP dIP table MAX_HOPS) in Hres.
    rewrite Hres in Hrun. clearbody r. subst r. simpl.
    repeat split; auto.
    rewrite <- (length_map Hop.currentEquipment), Hcur.
    rewrite length_firstn, Hlen. reflexivity.
Qed.

(** ** Routing loops *)

(** C4. When the gateway of the route selected at A resolves to B and the
    gateway of the route selected at B resolves back to A, the traversal
    started at A fails with [RoutingLoop] at A after exactly two hops
    (A to B, then B to A), and not with [HopLimitExceeded]. *)
Theorem routing_loop_detected (A B sIP dIP : string) (table : list route) :
  sIP <> "" -> dIP <> "" ->
  forwards dIP table A B -> forwards dIP table B A ->
  let r := executeTraceroute A sIP dIP table in
  Trace.success r = false
  /\ Trace.error r = Some (RoutingLoop A)
  /\ Trace.error r <> Some HopLimitExceeded
  /\ (List.length (Trace.hops r) <= 2)%nat
  /\ map Hop.currentEquipment (Trace.hops r) = [A; B]
  /\ map Hop.nextEquipment (Trace.hops r) = [Some B; Some A].
Proof.
  intros H2 H3 HAB HBA r.
  assert (Hex := forwards_owner _ _ _ _ HAB).
  destruct HAB as [rA HA]. destruct HBA as [rB HB].
  destruct (next_hop_spec _ _ _ _ _ HA) as [_ [_ [_ [_ HneB]]]].
  destruct (next_hop_spec _ _ _ _ _ HB) as [_ [_ [_ [HA0 _]]]].
  pose proof (executeTraceroute_loop A sIP dIP table HA0 H2 H3 Hex) as Hrun.
  fold r in Hrun. clearbody r. subst r.
  change MAX_HOPS with (S (S (S 27))). cbn [for_loop].
  rewrite (loop_body_forward A sIP dIP table (initial A) rA B); [|reflexivity|exact HA].
  rewrite (loop_body_forward A sIP dIP table _ rB A); [| |exact HB].
  - rewrite loop_body_visited.
    + simpl. repeat split; auto; discriminate.
    + simpl. rewrite String.eqb_refl. reflexivity.
  - simpl. apply orb_false_iff. split; [|reflexivity].
    now apply String.eqb_neq.
Qed.

(** ** Concrete runs *)

Lemma chainb_chain destIP table ds : chainb destIP table ds = true -> chain destIP table ds.
Proof.
  induction ds as [|a [|b rest] IH]; intros H; try exact I.
  change (chainb destIP table (a :: b :: rest))
    with (match next_hop destIP table a with
          | Some (_, b') => String.eqb b' b
          | None => false
          end && chainb destIP table (b :: rest)) in H.
  apply andb_true_iff in H. destruct H as [H1 H2].
  split; [|exact (IH H2)].
  destruct (next_hop destIP table a) as [[r b']|] eqn:Hn; [|discriminate].
  apply String.eqb_eq in H1. subst b'. exists r. exact Hn.
Qed.

Lemma NoDup_test (l : list string) : nodup string_dec l = l -> NoDup l.
Proof. intros <-. apply NoDup_nodup. Qed.

Lemma hop_limit_witness :
  let r := executeTraceroute "R0" "10.0.0.9" "192.168.1.50" (line_table 31) in
  Trace.success r = false
  /\ Trace.error r = Some HopLimitExceeded
  /\ List.length (Trace.hops r) = 30%nat
  /\ map Hop.currentEquipment (Trace.hops r) = firstn 30 (line_names 31)
  /\ map Hop.nextEquipment (Trace.hops r) = map Some (firstn 30 (tl (line_names 31))).
Proof.
  apply (proj2 (hop_limit "R0" "10.0.0.9" "192.168.1.50" (line_table 31)) (line_names 31)).
  - reflexivity.
  - apply NoDup_test. vm_compute. reflexivity.
  - reflexivity.
  - discriminate.
  - discriminate.
  - discriminate.
  - apply chainb_chain. vm_compute. reflexivity.
Defined.

Lemma routing_loop_detected_witness :
  let r := executeTraceroute "A" "192.168.1.1" "192.168.1.50" loop_table in
  Trace.success r = false
  /\ Trace.error r = Some (RoutingLoop "A")
  /\ Trace.error r <> Some HopLimitExceeded
  /\ (List.length (Trace.hops r) <= 2)%nat
  /\ map Hop.currentEquipment (Trace.hops r) = ["A"; "B"]
  /\ map Hop.nextEquipment (Trace.hops r) = [Some "B"; Some "A"].
Proof.
  apply (routing_loop_detected "A" "B" "192.168.1.1" "192.168.1.50" loop_table).
  - discriminate.
  - discriminate.
  - exists (row "A" "192.168.1.0" "/24" "10.0.1.2"). vm_compute. reflexivity.
  - exists (row "B" "192.168.1.0" "/24" "10.0.1.1"). vm_compute. reflexivity.
Defined.

(** * Further properties of the engine *)

(** ** The path followed by the loop *)

Lemma path_to_app start hs stop h next :
  path_to start hs stop ->
  Hop.currentEquipment h = stop -> Hop.nextEquipment h = Some next ->
  path_to start (hs ++ [h]) next.
Proof.
  revert start. induction hs as [|h0 hs IH]; intros start Hp Hc Hn; simpl in *.
  - subst stop. split; [exact Hc|]. exists next. auto.
  - destruct Hp as [Hc0 [n0 [Hn0 Hp]]]. split; [exact Hc0|].
    exists n0. split; [exact Hn0|]. apply IH; assumption.
Qed.

Lemma path_to_linked start hs stop : path_to start hs stop -> linked start hs.
Proof.
  revert start. induction hs as [|h hs IH]; intros start Hp; simpl in *; [exact I|].
  destruct Hp as [Hc [n [Hn Hp]]]. split; [exact Hc|]. rewrite Hn. now apply IH.
Qed.

Lemma path_to_linked_final start hs stop t :
  path_to start hs stop ->
  Hop.currentEquipment t = stop -> Hop.nextEquipment t = None ->
  linked start (hs ++ [t]).
Proof.
  revert start. induction hs as [|h hs IH]; intros start Hp Hc Hn; simpl in *.
  - subst stop. split; [exact Hc|]. now rewrite Hn.
  - destruct Hp as [Hc0 [n0 [Hn0 Hp]]]. split; [exact Hc0|].
    rewrite Hn0. apply IH; assumption.
Qed.

Lemma has_false_iff visited d : has visited d = false <-> ~ In d visited.
Proof.
  unfold has. split.
  - intros H Hin. assert (existsb (String.eqb d) visited = true); [|congruence].
    apply existsb_exists. exists d. split; [exact Hin | apply String.eqb_refl].
  - intros H. apply not_true_is_false. intros Hex.
    apply existsb_exists in Hex. destruct Hex as [x [Hin Heq]].
    apply String.eqb_eq in Heq. subst x. exact (H Hin).
Qed.

Section Invariant.

Variables (sE sIP dIP : string) (table : list route).

Lemma initial_invariant : loop_invariant sE dIP table (initial sE).
Proof. split; simpl; auto; constructor. Qed.

Lemma loop_body_invariant st st' :
  loop_invariant sE dIP table st ->
  loop_body sE sIP dIP table st = inl st' ->
  loop_invariant sE dIP table st'.
Proof.
  intros [Hp Hv Hn Hr] Hb.
  pose proof (loop_body_outcome sE sIP dIP table st) as Ho.
  rewrite Hb in Ho. inversion Ho as [| | | | r next Hhas Hnext Hd Hne Heq]; subst st'.
  split; simpl.
  - apply (path_to_app _ _ _ _ next Hp); reflexivity.
  - rewrite map_app. f_equal. exact Hv.
  - apply NoDup_app; [exact Hn | constructor; [intros [] | constructor] |].
    intros x Hin [<- | []]. apply has_false_iff in Hhas. exact (Hhas Hin).
  - apply Forall_app. split; [exact Hr|]. constructor; [|constructor].
    exists r, next. simpl. auto.
Qed.

Lemma state_after_invariant n :
  forall st st',
    loop_invariant sE dIP table st ->
    state_after sE sIP dIP table n st = Some st' ->
    loop_invariant sE dIP table st'.
Proof.
  induction n as [|n IH]; intros st st' Hi Ha; simpl in Ha.
  - injection Ha as <-. exact Hi.
  - destruct (loop_body sE sIP dIP table st) as [st1|r] eqn:Hb; [|discriminate].
    apply (IH st1 st'); [|exact Ha]. exact (loop_body_invariant st st1 Hi Hb).
Qed.

(** How a result comes about: from the checks made before the loop, or
    from a turn that returns, or from the end of the loop, in a state that
    satisfies the invariant. *)
Lemma executeTraceroute_cases :
  let r := executeTraceroute sE sIP dIP table in
  ((sE = "" \/ sIP = "" \/ dIP = "" \/ table = [])
   /\ r = failed sE sIP dIP InvalidInput [])
  \/ (sE <> "" /\ sIP <> "" /\ dIP <> "" /\ table <> []
      /\ (forall x, In x table -> Equipo x <> sE)
      /\ r = failed sE sIP dIP (UnknownDevice sE) [])
  \/ (sE <> "" /\ sIP <> "" /\ dIP <> "" /\ owns_row table sE
      /\ exists k st,
           (k <= MAX_HOPS)%nat
           /\ state_after sE sIP dIP table k (initial sE) = Some st
           /\ List.length (Loop.hops st) = k
           /\ loop_invariant sE dIP table st
           /\ (((k < MAX_HOPS)%nat /\ turn_outcome sE sIP dIP table st (inr r))
               \/ (k = MAX_HOPS /\ r = failed sE sIP dIP HopLimitExceeded (Loop.hops st)))).
Proof.
  intros r. subst r. unfold executeTraceroute.
  destruct (string_dec sE "") as [H1 | H1]; [left; subst sE; auto|].
  destruct (string_dec sIP "") as [H2 | H2].
  { left. subst sIP. simpl. rewrite orb_true_r. auto. }
  destruct (string_dec dIP "") as [H3 | H3].
  { left. subst dIP. simpl. rewrite !orb_true_r. auto. }
  destruct table as [|x0 t0] eqn:Et.
  { left. simpl. rewrite !orb_true_r. auto. }
  rewrite <- Et in *.
  assert (Ht : table <> []) by (rewrite Et; discriminate).
  assert (Hv : negb (truthy sE) || negb (truthy sIP) || negb (truthy dIP)
               || Nat.eqb (List.length table) 0 = false).
  { apply truthy_true in H1, H2, H3. rewrite H1, H2, H3, Et. reflexivity. }
  rewrite Hv. clear Hv.
  destruct (existsb (fun x => String.eqb (Equipo x) sE) table) eqn:Hex; simpl negb; cbv iota.
  - right. right. repeat split; auto.
    + apply existsb_exists in Hex. destruct Hex as [x [Hin Heq]].
      exists x. split; [exact Hin | now apply String.eqb_eq].
    + destruct (for_loop_stops sE sIP dIP table MAX_HOPS (initial sE))
        as [k [stk [Hk [Ha Hc]]]].
      exists k, stk. split; [exact Hk|]. split; [exact Ha|].
      destruct (state_after_hops _ _ _ _ _ _ _ Ha) as [pushed [Hp [Hlen _]]].
      split; [rewrite Hp; simpl; exact Hlen|].
      split; [exact (state_after_invariant k _ _ initial_invariant Ha)|].
      destruct Hc as [[Hlt Hb] | [Hn Hl]].
      * left. split; [exact Hlt|]. rewrite <- Hb. apply loop_body_outcome.
      * right. auto.
  - right. left. repeat split; auto.
    intros x Hin Heq.
    assert (existsb (fun x => String.eqb (Equipo x) sE) table = true); [|congruence].
    apply existsb_exists. exists x. split; [exact Hin | now apply String.eqb_eq].
Qed.

End Invariant.

Ltac result_cases sE sIP dIP table r :=
  let Hc := fresh "Hcases" in
  pose proof (executeTraceroute_cases sE sIP dIP table) as Hc;
  cbv zeta in Hc; fold r in Hc; clearbody r;
  destruct Hc as
    [[Hempty ->]
    | [[HsE [HsIP [HdIP [Htable [Hnone ->]]]]]
      | [HsE [HsIP [HdIP [Hown [k [st [Hk [Hafter [Hlen [Hinv
          [[Hlt Hturn] | [Hklim ->]]]]]]]]]]]]]].

(** X1. The result always carries the three arguments it was called with,
    and its two status fields agree: [success] is true exactly when [error]
    is null. *)
Theorem result_echoes_arguments (sE sIP dIP : string) (table : list route) :
  let r := executeTraceroute sE sIP dIP table in
  Trace.sourceEquipment r = sE /\ Trace.sourceIP r = sIP /\ Trace.destIP r = dIP
  /\ (Trace.success r = true <-> Trace.error r = None).
Proof.
  intros r. result_cases sE sIP dIP table r; simpl;
    try (repeat split; intros; discriminate).
  inversion Hturn; subst; simpl; repeat split; intros; try discriminate; reflexivity.
Qed.

(** X2. The hops of every result, success or failure, form one path from
    the source equipment: the first hop is at the source, every hop is at
    the equipment the hop before it names as next, and only the last hop may
    name none. *)
Theorem hops_form_a_path (sE sIP dIP : string) (table : list route) :
  linked sE (Trace.hops (executeTraceroute sE sIP dIP table)).
Proof.
  set (r := executeTraceroute sE sIP dIP table).
  result_cases sE sIP dIP table r; simpl; auto.
  - destruct Hinv as [Hp _ _ _].
    inversion Hturn; subst; simpl; try exact (path_to_linked _ _ _ Hp).
    apply (path_to_linked_final _ _ _ _ Hp); reflexivity.
  - destruct Hinv as [Hp _ _ _]. exact (path_to_linked _ _ _ Hp).
Qed.

(** X3. No equipment is visited twice: the hops of a result are at pairwise
    distinct equipment. *)
Theorem hops_visit_distinct_equipment (sE sIP dIP : string) (table : list route) :
  NoDup (map Hop.currentEquipment (Trace.hops (executeTraceroute sE sIP dIP table))).
Proof.
  set (r := executeTraceroute sE sIP dIP table).
  result_cases sE sIP dIP table r; simpl; try constructor.
  - destruct Hinv as [_ Hv Hn _].
    inversion Hturn as [| |routeEntry Hhas Hroute Hd| |]; subst; simpl;
      rewrite <- Hv in *; try exact Hn.
    rewrite map_app. simpl.
    apply NoDup_app; [exact Hn | constructor; [intros [] | constructor] |].
    intros x Hin [<- | []]. apply has_false_iff in Hhas. exact (Hhas Hin).
  - destruct Hinv as [_ Hv Hn _]. rewrite <- Hv in Hn. exact Hn.
Qed.

Lemma forward_hop_follows_route dIP table h :
  (exists routeEntry next,
     next_hop dIP table (Hop.currentEquipment h) = Some (routeEntry, next)
     /\ h = forward_hop (Hop.currentEquipment h) routeEntry next) ->
  hop_follows_route dIP table h.
Proof.
  intros [routeEntry [next [Hn Hh]]].
  destruct (next_hop_spec _ _ _ _ _ Hn) as [Hr [Hd [Hg [Hne _]]]].
  exists routeEntry. rewrite Hh. simpl. repeat split; auto.
Qed.

Lemma executeTraceroute_hops_routes (sE sIP dIP : string) (table : list route) :
  forall h, In h (Trace.hops (executeTraceroute sE sIP dIP table)) ->
            hop_follows_route dIP table h.
Proof.
  set (r := executeTraceroute sE sIP dIP table).
  result_cases sE sIP dIP table r; simpl; try (intros h []).
  - destruct Hinv as [_ _ _ Hr]. rewrite Forall_forall in Hr.
    inversion Hturn as [| |routeEntry Hhas Hroute Hd| |]; subst; simpl;
      try (intros h Hin; apply forward_hop_follows_route; now apply Hr).
    intros h Hin. apply in_app_or in Hin. destruct Hin as [Hin | [<- | []]].
    + apply forward_hop_follows_route. now apply Hr.
    + exists routeEntry. simpl. auto.
  - destruct Hinv as [_ _ _ Hr]. rewrite Forall_forall in Hr.
    intros h Hin. apply forward_hop_follows_route. now apply Hr.
Qed.

(** X4. Every hop of every result reports what the code selected at its
    equipment: its network is the one of the row [findRouteEntry] returns
    there for the destination; a hop with a next equipment carries the
    gateway of that row, which [findEquipmentByGateway] resolves to that
    next equipment; a hop without one stands for a row whose gateway is
    "directo" in any letter case. *)
Theorem hops_follow_selected_routes (sE sIP dIP : string) (table : list route) :
  forall h, In h (Trace.hops (executeTraceroute sE sIP dIP table)) ->
            hop_follows_route dIP table h.
Proof. exact (executeTraceroute_hops_routes sE sIP dIP table). Qed.

Lemma hops_follow_selected_routes_witness :
  hop_follows_route "192.168.1.50" scenario_table
    (forward_hop "A" (row "A" "192.168.1.0" "/24" "10.0.1.2") "B").
Proof.
  apply (hops_follow_selected_routes "A" "192.168.1.1" "192.168.1.50" scenario_table).
  vm_compute. left. reflexivity.
Defined.

Lemma findEquipmentByGateway_row gateway table current next :
  findEquipmentByGateway gateway table current = Some next ->
  exists x, In x table /\ Equipo x = next /\ resolves gateway current x = true.
Proof.
  unfold findEquipmentByGateway.
  destruct (find _ table) as [x|] eqn:Hf; [|discriminate].
  simpl. intros H. injection H as <-.
  apply find_some in Hf. exists x. unfold resolves. tauto.
Qed.

Lemma executeTraceroute_hops_in_table (sE sIP dIP : string) (table : list route) :
  forall h, In h (Trace.hops (executeTraceroute sE sIP dIP table)) ->
    (exists x, In x table /\ Equipo x = Hop.currentEquipment h
               /\ Hop.destNetwork h = (IP_Destino x ++ Mascara x)%string
               /\ isIPInNetwork dIP (IP_Destino x) (Mascara x) = true)
    /\ (forall next, Hop.nextEquipment h = Some next ->
          owns_row table next /\ next <> Hop.currentEquipment h /\ next <> "").
Proof.
  intros h Hin.
  destruct (executeTraceroute_hops_routes sE sIP dIP table h Hin)
    as [routeEntry [Hr [Hnet Hnext]]].
  destruct (findRouteEntry_candidate _ _ _ _ Hr) as [Hinr Hc].
  unfold candidate in Hc. apply andb_true_iff in Hc. destruct Hc as [Ho Hm].
  apply String.eqb_eq in Ho.
  split; [exists routeEntry; auto|].
  intros next Hn. rewrite Hn in Hnext. destruct Hnext as [_ [_ [Hg Hne]]].
  split; [|split; [exact (findEquipmentByGateway_other _ _ _ _ Hg) | exact Hne]].
  destruct (findEquipmentByGateway_row _ _ _ _ Hg) as [x [Hx [Hex _]]].
  exists x. auto.
Qed.

(** X5. Every hop of every result is at an equipment that owns a row of
    the table whose network, the one the hop reports, contains the
    destination for [isIPInNetwork]; and the next equipment a hop names owns
    a row too, differs from the equipment of the hop and is not empty. *)
Theorem hops_stay_in_the_table (sE sIP dIP : string) (table : list route) :
  forall h, In h (Trace.hops (executeTraceroute sE sIP dIP table)) ->
    (exists x, In x table /\ Equipo x = Hop.currentEquipment h
               /\ Hop.destNetwork h = (IP_Destino x ++ Mascara x)%string
               /\ isIPInNetwork dIP (IP_Destino x) (Mascara x) = true)
    /\ (forall next, Hop.nextEquipment h = Some next ->
          owns_row table next /\ next <> Hop.currentEquipment h /\ next <> "").
Proof. exact (executeTraceroute_hops_in_table sE sIP dIP table). Qed.

Lemma hops_stay_in_the_table_witness :
  exists x, In x scenario_table /\ Equipo x = "B"
            /\ Hop.destNetwork (final_hop "B" (row "B" "192.168.1.0" "/24" "directo"))
               = (IP_Destino x ++ Mascara x)%string
            /\ isIPInNetwork "192.168.1.50" (IP_Destino x) (Mascara x) = true.
Proof.
  apply (hops_stay_in_the_table "A" "192.168.1.1" "192.168.1.50" scenario_table
           (final_hop "B" (row "B" "192.168.1.0" "/24" "directo"))).
  vm_compute. right. left. reflexivity.
Defined.

Lemma findRouteEntry_none equipment destIP table :
  findRouteEntry equipment destIP table = None <->
  (forall x, In x table -> candidate equipment destIP x = false).
Proof.
  rewrite findRouteEntry_matches.
  destruct (filter (candidate equipment destIP) table) as [|first others] eqn:Hm.
  - split; [|reflexivity]. intros _ x Hin.
    apply not_true_is_false. intros Hc.
    assert (Hf : In x (filter (candidate equipment destIP) table))
      by (apply filter_In; auto).
    rewrite Hm in Hf. destruct Hf.
  - split; [discriminate|]. intros H.
    assert (Hf : In first (filter (candidate equipment destIP) table))
      by (rewrite Hm; now left).
    apply filter_In in Hf. destruct Hf as [Hin Hc].
    rewrite (H first Hin) in Hc. discriminate.
Qed.

Lemma has_true_In visited d : has visited d = true -> In d visited.
Proof.
  unfold has. intros H. apply existsb_exists in H.
  destruct H as [x [Hin Heq]]. apply String.eqb_eq in Heq. now subst x.
Qed.

Lemma executeTraceroute_error_cause (sE sIP dIP : string) (table : list route) :
  let r := executeTraceroute sE sIP dIP table in
  match Trace.error r with
  | None => Trace.success r = true
  | Some InvalidInput =>
      (sE = "" \/ sIP = "" \/ dIP = "" \/ table = []) /\ Trace.hops r = []
  | Some (UnknownDevice e) =>
      e = sE /\ table <> [] /\ (forall x, In x table -> Equipo x <> sE)
      /\ Trace.hops r = []
  | Some (RoutingLoop d) =>
      path_to sE (Trace.hops r) d /\ In d (map Hop.currentEquipment (Trace.hops r))
  | Some (NoRoute a d) =>
      a = dIP /\ path_to sE (Trace.hops r) d
      /\ (forall x, In x table -> candidate d dIP x = false)
  | Some (UnresolvedGateway g d) =>
      path_to sE (Trace.hops r) d
      /\ (exists routeEntry,
            findRouteEntry d dIP table = Some routeEntry /\ Gateway routeEntry = g)
      /\ is_directo g = false
      /\ (findEquipmentByGateway g table d = None
          \/ findEquipmentByGateway g table d = Some "")
  | Some HopLimitExceeded =>
      List.length (Trace.hops r) = 30%nat /\ exists d, path_to sE (Trace.hops r) d
  end.
Proof.
  intros r. result_cases sE sIP dIP table r; simpl; auto.
  - destruct Hinv as [Hp Hv _ _].
    inversion Hturn as [Hhas | Hhas Hroute | routeEntry Hhas Hroute Hd
                        | routeEntry Hhas Hroute Hd Hnext | ]; subst; simpl.
    + split; [exact Hp|]. rewrite <- Hv in Hhas. exact (has_true_In _ _ Hhas).
    + repeat split; auto. now apply findRouteEntry_none.
    + reflexivity.
    + split; [exact Hp|]. split; [exists routeEntry; auto|]. split; [exact Hd|].
      unfold next_hop in Hnext. rewrite Hroute, Hd in Hnext.
      destruct (findEquipmentByGateway _ _ _) as [[|c e]|]; auto. discriminate.
  - split; [rewrite Hlen; exact Hklim|].
    destruct Hinv as [Hp _ _ _]. eexists. exact Hp.
Qed.

(** X6. Every error has its cause, at the equipment where the path of the
    hops stops.  [InvalidInput]: an argument or the table is empty.
    [UnknownDevice]: no row is owned by the source.  [RoutingLoop] at [d]:
    the hops lead to [d], which an earlier hop already was at.  [NoRoute]:
    the hops lead to [d], where no owned row contains the destination.
    [UnresolvedGateway g] at [d]: the hops lead to [d], the row selected
    there has the gateway [g], not "directo", and [findEquipmentByGateway]
    finds nothing for it, or a row whose equipment name is empty.
    [HopLimitExceeded]: exactly 30 hops were made. *)
Theorem every_error_has_its_cause (sE sIP dIP : string) (table : list route) :
  let r := executeTraceroute sE sIP dIP table in
  match Trace.error r with
  | None => Trace.success r = true
  | Some InvalidInput =>
      (sE = "" \/ sIP = "" \/ dIP = "" \/ table = []) /\ Trace.hops r = []
  | Some (UnknownDevice e) =>
      e = sE /\ table <> [] /\ (forall x, In x table -> Equipo x <> sE)
      /\ Trace.hops r = []
  | Some (RoutingLoop d) =>
      path_to sE (Trace.hops r) d /\ In d (map Hop.currentEquipment (Trace.hops r))
  | Some (NoRoute a d) =>
      a = dIP /\ path_to sE (Trace.hops r) d
      /\ (forall x, In x table -> candidate d dIP x = false)
  | Some (UnresolvedGateway g d) =>
      path_to sE (Trace.hops r) d
      /\ (exists routeEntry,
            findRouteEntry d dIP table = Some routeEntry /\ Gateway routeEntry = g)
      /\ is_directo g = false
      /\ (findEquipmentByGateway g table d = None
          \/ findEquipmentByGateway g table d = Some "")
  | Some HopLimitExceeded =>
      List.length (Trace.hops r) = 30%nat /\ exists d, path_to sE (Trace.hops r) d
  end.
Proof. exact (executeTraceroute_error_cause sE sIP dIP table). Qed.

(** ** Reaching the destination *)

Lemma last_nonempty {A : Type} (l : list A) (b d1 d2 : A) :
  last (b :: l) d1 = last (b :: l) d2.
Proof.
  revert b. induction l as [|c l IH]; intros b; [reflexivity|].
  apply (IH c).
Qed.

(** Along a chain of distinct equipment not yet visited, whose last selects
    a directly connected row, the loop pushes one hop per equipment and
    returns a success. *)
Lemma for_loop_reaches sE sIP dIP table :
  forall ds n st,
    (List.length ds <= n)%nat -> NoDup ds ->
    hd_error ds = Some (Loop.currentEquipment st) ->
    chain dIP table ds ->
    ends_direct dIP table (last ds (Loop.currentEquipment st)) ->
    (forall d, In d ds -> has (Loop.visitedEquipment st) d = false) ->
    exists pushed,
      for_loop sE sIP dIP table n st = reached sE sIP dIP (Loop.hops st ++ pushed)
      /\ map Hop.currentEquipment pushed = ds.
Proof.
  induction ds as [|a ds IH]; intros n st Hlen Hnd Hhd Hch Hend Hvis; [discriminate|].
  simpl in Hhd. injection Hhd as Ha. subst a.
  destruct n as [|n]; [simpl in Hlen; lia|].
  assert (Hva : has (Loop.visitedEquipment st) (Loop.currentEquipment st) = false).
  { apply Hvis. now left. }
  destruct ds as [|b rest].
  - simpl in Hend. destruct Hend as [routeEntry [Hr Hd]].
    exists [final_hop (Loop.currentEquipment st) routeEntry].
    simpl for_loop. unfold loop_body. rewrite Hva, Hr, Hd.
    split; reflexivity.
  - destruct Hch as [[r Hfw] Hch].
    pose proof (loop_body_forward sE sIP dIP table st r b Hva Hfw) as Hb.
    simpl for_loop. rewrite Hb.
    set (st1 := {| Loop.hops := _; Loop.visitedEquipment := _;
                   Loop.currentEquipment := b |}).
    inversion Hnd as [|x l Hnotin Hnd']; subst x l.
    destruct (IH n st1) as [pushed [Hrun Hcur]].
    + simpl in Hlen |- *. lia.
    + exact Hnd'.
    + reflexivity.
    + exact Hch.
    + simpl Loop.currentEquipment.
      change (last (Loop.currentEquipment st :: b :: rest) (Loop.currentEquipment st))
        with (last (b :: rest) (Loop.currentEquipment st)) in Hend.
      rewrite (last_nonempty rest b _ b) in Hend. exact Hend.
    + simpl Loop.visitedEquipment. intros d Hd. rewrite has_app.
      rewrite (Hvis d (or_intror Hd)). simpl.
      apply String.eqb_neq. intros ->. apply Hnotin. exact Hd.
    + exists (forward_hop (Loop.currentEquipment st) r b :: pushed).
      rewrite Hrun. simpl Loop.hops. rewrite <- app_assoc. simpl.
      now rewrite Hcur.
Qed.

(** X7. When following the selected routes from the source goes through
    at most 30 distinct equipment, each forwarding to the next, and the last
    one selects a directly connected row, the result is a success with one
    hop per equipment of that chain, in order. *)
Theorem success_along_a_chain (sE sIP dIP : string) (table : list route) (ds : list string) :
  sE <> "" -> sIP <> "" -> dIP <> "" ->
  hd_error ds = Some sE -> (List.length ds <= 30)%nat -> NoDup ds ->
  chain dIP table ds -> ends_direct dIP table (last ds sE) ->
  let r := executeTraceroute sE sIP dIP table in
  Trace.success r = true /\ Trace.error r = None
  /\ map Hop.currentEquipment (Trace.hops r) = ds
  /\ List.length (Trace.hops r) = List.length ds.
Proof.
  intros H1 H2 H3 Hhd Hlen Hnd Hch Hend r.
  assert (Hex : existsb (fun x => String.eqb (Equipo x) sE) table = true).
  { destruct ds as [|a [|b rest]]; [discriminate| |];
      simpl in Hhd; injection Hhd as ->.
    - destruct Hend as [routeEntry [Hr _]]. simpl in Hr.
      apply existsb_exists. exists routeEntry.
      split; [apply (findRouteEntry_candidate _ _ _ _ Hr)|].
      apply String.eqb_eq. apply (findRouteEntry_owner _ _ _ _ Hr).
    - destruct Hch as [Hfw _]. apply (forwards_owner _ _ _ _ Hfw). }
  pose proof (executeTraceroute_loop sE sIP dIP table H1 H2 H3 Hex) as Hrun.
  fold r in Hrun.
  destruct (for_loop_reaches sE sIP dIP table ds MAX_HOPS (initial sE))
    as [pushed [Hres Hcur]]; auto.
  rewrite Hres in Hrun. clearbody r. subst r. simpl.
  repeat split; auto. rewrite <- Hcur. now rewrite length_map.
Qed.

Lemma success_along_a_chain_witness :
  let r := executeTraceroute "A" "192.168.1.1" "192.168.1.50" scenario_table in
  Trace.success r = true /\ Trace.error r = None
  /\ map Hop.currentEquipment (Trace.hops r) = ["A"; "B"]
  /\ List.length (Trace.hops r) = 2%nat.
Proof.
  apply (success_along_a_chain "A" "192.168.1.1" "192.168.1.50" scenario_table ["A"; "B"]).
  - discriminate.
  - discriminate.
  - discriminate.
  - reflexivity.
  - simpl. lia.
  - apply NoDup_test. vm_compute. reflexivity.
  - apply chainb_chain. vm_compute. reflexivity.
  - exists (row "B" "192.168.1.0" "/24" "directo"). vm_compute. split; reflexivity.
Defined.

Lemma path_chain dIP table :
  forall hs start stop,
    path_to start hs stop ->
    Forall (fun h =>
              exists routeEntry next,
                next_hop dIP table (Hop.currentEquipment h) = Some (routeEntry, next)
                /\ h = forward_hop (Hop.currentEquipment h) routeEntry next) hs ->
    chain dIP table (map Hop.currentEquipment hs ++ [stop])
    /\ hd_error (map Hop.currentEquipment hs ++ [stop]) = Some start.
Proof.
  induction hs as [|h hs IH]; intros start stop Hp Hf; simpl in Hp.
  - subst stop. simpl. auto.
  - destruct Hp as [Hc [n [Hn Hp]]].
    inversion Hf as [|x l [routeEntry [next [Hnh Hh]]] Hf']; subst x l.
    assert (next = n).
    { rewrite Hh in Hn. simpl in Hn. congruence. }
    subst next.
    destruct (IH n stop Hp Hf') as [Hch Hhd].
    simpl map. rewrite Hc in *.
    change ((start :: map Hop.currentEquipment hs) ++ [stop])%list
      with (start :: (map Hop.currentEquipment hs ++ [stop]))%list.
    destruct (map Hop.currentEquipment hs ++ [stop])%list as [|b l] eqn:El;
      [discriminate|].
    simpl in Hhd. injection Hhd as ->.
    split; [|reflexivity]. split; [|exact Hch]. now exists routeEntry.
Qed.

(** X8. A success is never reported without a route: when the result is a
    success, the equipment of its hops are at most 30, pairwise distinct,
    start at the source, each forwards to the next, and the last one selects
    a directly connected row for the destination. *)
Theorem success_means_a_chain (sE sIP dIP : string) (table : list route) :
  let r := executeTraceroute sE sIP dIP table in
  Trace.success r = true ->
  let ds := map Hop.currentEquipment (Trace.hops r) in
  hd_error ds = Some sE /\ (List.length ds <= 30)%nat /\ NoDup ds
  /\ chain dIP table ds /\ ends_direct dIP table (last ds sE).
Proof.
  intros r. result_cases sE sIP dIP table r; simpl; try discriminate.
  inversion Hturn as [| |routeEntry Hhas Hroute Hd| |]; subst; simpl; try discriminate.
  intros _. destruct Hinv as [Hp Hv Hn Hr].
  destruct (path_chain dIP table _ _ _ Hp Hr) as [Hch Hhd].
  rewrite map_app. simpl map.
  split; [exact Hhd|].
  split; [rewrite length_app, length_map; unfold MAX_HOPS in *; simpl; lia|].
  split; [|split; [exact Hch|]].
  - rewrite <- Hv in Hn, Hhas.
    apply NoDup_app; [exact Hn | constructor; [intros [] | constructor] |].
    intros x Hin [<- | []]. apply has_false_iff in Hhas. exact (Hhas Hin).
  - rewrite last_last. exists routeEntry. auto.
Qed.

(** ** The two lookups *)

(** X9. [findRouteEntry] returns nothing exactly when the equipment owns no
    row whose network contains the destination; what it returns is a row of
    the table, owned by the equipment, whose network contains the
    destination. *)
Theorem findRouteEntry_finds_a_matching_row (equipment destIP : string) (table : list route) :
  (findRouteEntry equipment destIP table = None <->
   forall x, In x table -> Equipo x = equipment ->
             isIPInNetwork destIP (IP_Destino x) (Mascara x) = false)
  /\
  (forall r, findRouteEntry equipment destIP table = Some r ->
     In r table /\ Equipo r = equipment
     /\ isIPInNetwork destIP (IP_Destino r) (Mascara r) = true).
Proof.
  split.
  - rewrite findRouteEntry_none. unfold candidate. split; intros H x Hin.
    + intros Ho. specialize (H x Hin).
      apply String.eqb_eq in Ho. now rewrite Ho in H.
    + destruct (String.eqb_spec (Equipo x) equipment) as [Ho | Ho]; [|reflexivity].
      simpl. exact (H x Hin Ho).
  - intros r Hr. destruct (findRouteEntry_candidate _ _ _ _ Hr) as [Hin Hc].
    unfold candidate in Hc. apply andb_true_iff in Hc. destruct Hc as [Ho Hm].
    apply String.eqb_eq in Ho. auto.
Qed.

Lemma find_first {A : Type} (p : A -> bool) (l : list A) :
  match find p l with
  | Some x => exists before after,
                l = (before ++ x :: after)%list /\ p x = true
                /\ forall y, In y before -> p y = false
  | None => forall y, In y l -> p y = false
  end.
Proof.
  induction l as [|a l IH]; simpl; [intros y []|].
  destruct (p a) eqn:Hp.
  - exists [], l. repeat split; auto. intros y [].
  - destruct (find p l) as [x|].
    + destruct IH as [before [after [E [Hx Hb]]]].
      exists (a :: before), after. rewrite E. repeat split; auto.
      intros y [<- | Hin]; auto.
    + intros y [<- | Hin]; auto.
Qed.

(** X10. [findEquipmentByGateway] returns the owner of the first row, in
    table order, that belongs to another equipment than the current one, is
    directly connected ("directo" in any letter case) and whose network
    contains the gateway; it returns nothing exactly when there is no such
    row.  It never returns the current equipment. *)
Theorem findEquipmentByGateway_first_row (gateway current : string) (table : list route) :
  match findEquipmentByGateway gateway table current with
  | Some next =>
      next <> current
      /\ exists before x after,
           table = (before ++ x :: after)%list /\ Equipo x = next
           /\ resolves gateway current x = true
           /\ forall y, In y before -> resolves gateway current y = false
  | None => forall y, In y table -> resolves gateway current y = false
  end.
Proof.
  unfold findEquipmentByGateway.
  pose proof (find_first (resolves gateway current) table) as Hf.
  change (find _ table) with (find (resolves gateway current) table).
  destruct (find (resolves gateway current) table) as [x|]; simpl; [|exact Hf].
  destruct Hf as [before [after [E [Hx Hb]]]].
  split.
  - unfold resolves in Hx. apply andb_true_iff in Hx. destruct Hx as [Hx _].
    apply andb_true_iff in Hx. destruct Hx as [Hx _].
    apply negb_true_iff in Hx. now apply String.eqb_neq.
  - exists before, x, after. auto.
Qed.

Lemma success_means_a_chain_witness :
  let ds := map Hop.currentEquipment
              (Trace.hops (executeTraceroute "A" "192.168.1.1" "192.168.1.50" scenario_table)) in
  hd_error ds = Some "A" /\ (List.length ds <= 30)%nat /\ NoDup ds
  /\ chain "192.168.1.50" scenario_table ds
  /\ ends_direct "192.168.1.50" scenario_table (last ds "A").
Proof.
  apply (success_means_a_chain "A" "192.168.1.1" "192.168.1.50" scenario_table).
  vm_compute. reflexivity.
Defined.

(** ** Bits of 32-bit values *)

Lemma int32_testbit z i :
  0 <= i -> Z.testbit (int32 z) i = Z.testbit z (Z.min i 31).
Proof.
  intros Hi. unfold int32.
  pose proof (Z.mod_pos_bound z (2 ^ 32) ltac:(lia)) as Hu.
  set (u := z mod 2 ^ 32) in *.
  assert (Hlow : forall j, 0 <= j < 32 -> Z.testbit u j = Z.testbit z j).
  { intros j Hj. unfold u. apply Z.mod_pow2_bits_low. lia. }
  destruct (Z.ltb_spec u (2 ^ 31)) as [Hsmall | Hbig].
  - assert (H31 : forall j, 31 <= j -> Z.testbit u j = false).
    { intros j Hj. destruct (Z.eq_dec u 0) as [-> | Hnz]; [apply Z.bits_0|].
      apply Z.bits_above_log2; [lia|].
      assert (Z.log2 u < 31) by (apply Z.log2_lt_pow2; lia). lia. }
    destruct (Z_lt_ge_dec i 31) as [Hlt | Hge].
    + rewrite Z.min_l by lia. apply Hlow. lia.
    + rewrite Z.min_r by lia. rewrite <- (Hlow 31) by lia.
      rewrite (H31 i), (H31 31) by lia. reflexivity.
  - assert (Hv : (u - 2 ^ 32) mod 2 ^ 32 = u).
    { symmetry. apply Z.mod_unique with (q := -1); lia. }
    assert (H31 : Z.testbit u 31 = true).
    { apply Z.testbit_true; [lia|].
      replace (u / 2 ^ 31) with 1; [reflexivity|].
      apply Z.div_unique with (r := u - 2 ^ 31); lia. }
    destruct (Z_lt_ge_dec i 32) as [Hlt | Hge].
    + rewrite <- (Z.mod_pow2_bits_low (u - 2 ^ 32) 32 i) by lia.
      rewrite Hv.
      destruct (Z_lt_ge_dec i 31); [rewrite Z.min_l by lia; apply Hlow; lia|].
      rewrite Z.min_r by lia. replace i with 31 by lia. apply Hlow. lia.
    + rewrite Z.min_r by lia. rewrite <- (Hlow 31), H31 by lia.
      apply Z.bits_above_log2_neg; [lia|].
      destruct (Z.eq_dec (Z.pred (- (u - 2 ^ 32))) 0) as [-> | Hnz]; [simpl; lia|].
      assert (Z.log2 (Z.pred (- (u - 2 ^ 32))) < 31) by (apply Z.log2_lt_pow2; lia).
      lia.
Qed.

Lemma testbit_neg_pow2 k j : 0 <= k -> 0 <= j -> Z.testbit (- 2 ^ k) j = (k <=? j).
Proof.
  intros Hk Hj.
  replace (- 2 ^ k) with (Z.lnot (Z.ones k))
    by (rewrite Z.ones_equiv; unfold Z.lnot; lia).
  rewrite Z.lnot_spec by lia.
  destruct (Z.leb_spec k j).
  - rewrite Z.ones_spec_high by lia. reflexivity.
  - rewrite Z.ones_spec_low by lia. reflexivity.
Qed.

Lemma maskNumOf_prefix p :
  1 <= p <= 32 -> int32 (maskNumOf (of_Z p)) = - 2 ^ (32 - p).
Proof.
  intros Hp.
  assert (Hc : In p (map Z.of_nat (seq 1 32))).
  { apply in_map_iff. exists (Z.to_nat p). split; [lia|]. apply in_seq. lia. }
  simpl in Hc.
  repeat (destruct Hc as [<- | Hc]; [vm_compute; reflexivity|]). destruct Hc.
Qed.

Lemma band_prefix_bits x m k i :
  0 <= k <= 31 -> int32 m = - 2 ^ k -> 0 <= i ->
  Z.testbit (band x m) i = (k <=? Z.min i 31) && Z.testbit x (Z.min i 31).
Proof.
  intros Hk Hm Hi. unfold band. rewrite Hm.
  rewrite int32_testbit, Z.land_spec by lia.
  rewrite int32_testbit, testbit_neg_pow2 by lia.
  replace (Z.min (Z.min i 31) 31) with (Z.min i 31) by lia. apply andb_comm.
Qed.

Lemma band_prefix_eq x y m k :
  0 <= k <= 31 -> int32 m = - 2 ^ k ->
  (band x m = band y m <->
   forall i, k <= i <= 31 -> Z.testbit x i = Z.testbit y i).
Proof.
  intros Hk Hm. split.
  - intros H i Hi.
    assert (Hb : Z.testbit (band x m) i = Z.testbit (band y m) i) by now rewrite H.
    rewrite !(band_prefix_bits _ m k) in Hb by lia.
    rewrite Z.min_l in Hb by lia.
    replace (k <=? i) with true in Hb by (symmetry; apply Z.leb_le; lia).
    exact Hb.
  - intros H. apply Z.bits_inj'. intros i Hi.
    rewrite !(band_prefix_bits _ m k) by lia.
    destruct (Z.leb_spec k (Z.min i 31)); [|reflexivity].
    simpl. apply H. lia.
Qed.

(** ** The address matcher on prefix lengths 1 to 32 *)

Lemma isIPInNetwork_leading_bits (ip network mask : string) (p : Z) :
  ip <> "" -> network <> "" -> mask <> "" ->
  maskBitsOf mask = of_Z p -> 1 <= p <= 32 ->
  (isIPInNetwork ip network mask = true <->
   forall i, 32 - p <= i <= 31 ->
             Z.testbit (ipToNumber ip) i = Z.testbit (ipToNumber network) i).
Proof.
  intros H1 H2 H3 Hm Hp.
  rewrite isIPInNetwork_unfold, Hm.
  apply truthy_true in H1, H2, H3. rewrite H1, H2, H3, !andb_true_l.
  rewrite Z.eqb_eq.
  apply band_prefix_eq; [lia|]. now apply maskNumOf_prefix.
Qed.

(** X11. For a mask that reads as a prefix length [p] from 1 to 32,
    [isIPInNetwork] is the CIDR test: it returns true exactly when the
    32-bit values of the address and of the network have the same [p]
    leading bits (bits 31 down to 32 - p). *)
Theorem isIPInNetwork_compares_leading_bits (ip network mask : string) (p : Z) :
  ip <> "" -> network <> "" -> mask <> "" ->
  maskBitsOf mask = of_Z p -> 1 <= p <= 32 ->
  (isIPInNetwork ip network mask = true <->
   forall i, 32 - p <= i <= 31 ->
             Z.testbit (ipToNumber ip) i = Z.testbit (ipToNumber network) i).
Proof. exact (isIPInNetwork_leading_bits ip network mask p). Qed.

Lemma isIPInNetwork_compares_leading_bits_witness :
  isIPInNetwork "192.168.1.50" "192.168.1.0" "/24" = true <->
  forall i, 32 - 24 <= i <= 31 ->
            Z.testbit (ipToNumber "192.168.1.50") i = Z.testbit (ipToNumber "192.168.1.0") i.
Proof.
  apply (isIPInNetwork_compares_leading_bits "192.168.1.50" "192.168.1.0" "/24" 24);
    try discriminate; try (vm_compute; reflexivity).
  lia.
Defined.

(** X12. A shorter prefix contains what a longer one contains: when an
    address is in a network under a prefix length [p] from 1 to 32, it is in
    the same network under every prefix length [q] from 1 to [p]. *)
Theorem isIPInNetwork_shorter_prefix (ip network mask mask' : string) (p q : Z) :
  mask' <> "" ->
  maskBitsOf mask = of_Z p -> maskBitsOf mask' = of_Z q -> 1 <= q <= p -> p <= 32 ->
  isIPInNetwork ip network mask = true -> isIPInNetwork ip network mask' = true.
Proof.
  intros H3 Hm Hm' Hq Hp Hin.
  assert (Ht : truthy ip = true /\ truthy network = true /\ truthy mask = true).
  { rewrite isIPInNetwork_unfold in Hin.
    destruct (truthy ip), (truthy network), (truthy mask); auto; discriminate. }
  destruct Ht as [T1 [T2 T3]]. apply truthy_true in T1, T2, T3.
  rewrite (isIPInNetwork_leading_bits ip network mask p) in Hin by (auto; lia).
  rewrite (isIPInNetwork_leading_bits ip network mask' q) by (auto; lia).
  intros i Hi. apply Hin. lia.
Qed.

Lemma isIPInNetwork_shorter_prefix_witness :
  isIPInNetwork "192.168.1.50" "192.168.1.0" "/16" = true.
Proof.
  apply (isIPInNetwork_shorter_prefix "192.168.1.50" "192.168.1.0" "/24" "/16" 24 16);
    try discriminate; try (vm_compute; reflexivity); lia.
Defined.

(** ** Dotted quads *)

Lemma jsnum_eqb_eq a b : jsnum_eqb a b = true -> a = b.
Proof.
  destruct a as [|s|[pn pd]], b as [|t|[qn qd]]; simpl; try discriminate; auto.
  - intros H. apply Bool.eqb_prop in H. now subst.
  - unfold Q_eqb. simpl. intros H. apply andb_true_iff in H. destruct H as [Hn Hd].
    apply Z.eqb_eq in Hn. apply Pos.eqb_eq in Hd. now subst.
Qed.

Lemma is_decimal_digit_In c : is_decimal_digit c = true -> In c digit_chars.
Proof.
  destruct c as [[] [] [] [] [] [] [] []]; intros H;
    try discriminate H; vm_compute; tauto.
Qed.

Lemma digit_strings_In g :
  (1 <= String.length g <= 3)%nat ->
  forallb is_decimal_digit (list_ascii_of_string g) = true ->
  In g digit_strings.
Proof.
  intros Hlen Hd. unfold digit_strings.
  destruct g as [|a [|b [|c [|d g]]]]; simpl in Hlen; try lia; simpl in Hd.
  - apply andb_true_iff in Hd. destruct Hd as [Ha _].
    apply in_or_app. left.
    apply (in_map (fun a => String a "") digit_chars a). now apply is_decimal_digit_In.
  - apply andb_true_iff in Hd. destruct Hd as [Ha Hd].
    apply andb_true_iff in Hd. destruct Hd as [Hb _].
    apply in_or_app. right. apply in_or_app. left.
    apply in_flat_map. exists a. split; [now apply is_decimal_digit_In|].
    apply (in_map (fun b => String a (String b "")) digit_chars b).
    now apply is_decimal_digit_In.
  - apply andb_true_iff in Hd. destruct Hd as [Ha Hd].
    apply andb_true_iff in Hd. destruct Hd as [Hb Hd].
    apply andb_true_iff in Hd. destruct Hd as [Hc _].
    apply in_or_app. right. apply in_or_app. right.
    apply in_flat_map. exists a. split; [now apply is_decimal_digit_In|].
    apply in_flat_map. exists b. split; [now apply is_decimal_digit_In|].
    apply (in_map (fun c => String a (String b (String c ""))) digit_chars c).
    now apply is_decimal_digit_In.
Qed.

Lemma digit_strings_read : forallb reads_as_decimal digit_strings = true.
Proof. vm_compute. reflexivity. Qed.

Lemma digits_read g :
  (1 <= String.length g <= 3)%nat ->
  forallb is_decimal_digit (list_ascii_of_string g) = true ->
  Number g = of_Z (decimal_value g)
  /\ parseInt g (Some 10) = of_Z (decimal_value g)
  /\ parseInt g None = of_Z (decimal_value g)
  /\ 0 <= decimal_value g <= 999.
Proof.
  intros Hlen Hd. pose proof (digit_strings_In g Hlen Hd) as Hin.
  pose proof digit_strings_read as Hall. rewrite forallb_forall in Hall.
  specialize (Hall g Hin). unfold reads_as_decimal in Hall.
  apply andb_true_iff in Hall. destruct Hall as [Hall H5].
  apply andb_true_iff in Hall. destruct Hall as [Hall H4].
  apply andb_true_iff in Hall. destruct Hall as [Hall H3].
  apply andb_true_iff in Hall. destruct Hall as [H1 H2].
  apply Z.leb_le in H4, H5.
  repeat split; try (now apply jsnum_eqb_eq); assumption.
Qed.

Lemma le_of_Z a b : le (of_Z a) (of_Z b) = (a <=? b).
Proof.
  unfold le, gt, of_Z. rewrite negb_involutive.
  unfold Qle_bool, inject_Z. simpl. now rewrite !Z.mul_1_r.
Qed.

Lemma group_shape_spec g :
  Nat.leb 1 (String.length g) && Nat.leb (String.length g) 3
  && forallb is_decimal_digit (list_ascii_of_string g) = true
  <-> (1 <= String.length g <= 3)%nat
      /\ forallb is_decimal_digit (list_ascii_of_string g) = true.
Proof.
  rewrite !andb_true_iff, !Nat.leb_le. tauto.
Qed.

Lemma validateIP_groups ip :
  validateIP ip = true <->
  List.length (split "." ip) = 4%nat /\ Forall octet_string (split "." ip).
Proof.
  unfold validateIP, ipRegex_test.
  set (gs := split "." ip). split.
  - intros H.
    destruct (Nat.eqb (List.length gs) 4 && forallb _ gs) eqn:Hre; [|discriminate].
    simpl in H. apply andb_true_iff in Hre. destruct Hre as [Hlen Hshape].
    apply Nat.eqb_eq in Hlen. split; [exact Hlen|].
    rewrite forallb_forall in Hshape, H. apply Forall_forall. intros g Hin.
    specialize (Hshape g Hin). apply group_shape_spec in Hshape.
    destruct Hshape as [Hl Hd]. split; [exact Hl|]. split; [exact Hd|].
    specialize (H g Hin). cbv zeta in H.
    destruct (digits_read g Hl Hd) as [_ [Hp _]]. rewrite Hp, !le_of_Z in H.
    apply andb_true_iff in H. destruct H as [_ H]. now apply Z.leb_le.
  - intros [Hlen Hall]. rewrite Forall_forall in Hall.
    replace (Nat.eqb (List.length gs) 4 && forallb _ gs) with true.
    + change (negb true) with false. cbv iota.
      apply forallb_forall. intros g Hin.
      destruct (Hall g Hin) as [Hl [Hd Hv]].
      destruct (digits_read g Hl Hd) as [_ [Hp [_ Hr]]].
      cbv zeta. rewrite Hp, !le_of_Z. apply andb_true_iff. split; apply Z.leb_le; lia.
    + symmetry. apply andb_true_iff. split; [now apply Nat.eqb_eq|].
      apply forallb_forall. intros g Hin.
      destruct (Hall g Hin) as [Hl [Hd Hv]]. apply group_shape_spec. auto.
Qed.

(** X13. [validateIP] accepts exactly the dotted quads: the strings made of
    four groups separated by points, each group of one to three decimal
    digits that denote a number from 0 to 255 (leading zeros allowed). *)
Theorem validateIP_accepts_dotted_quads (ip : string) :
  validateIP ip = true <->
  List.length (split "." ip) = 4%nat /\ Forall octet_string (split "." ip).
Proof. exact (validateIP_groups ip). Qed.

Lemma lor_disjoint a b n :
  0 <= n -> 0 <= b < 2 ^ n -> Z.lor (a * 2 ^ n) b = a * 2 ^ n + b.
Proof.
  intros Hn Hb. rewrite <- Z.add_lor_land.
  replace (Z.land (a * 2 ^ n) b) with 0; [lia|].
  symmetry. apply Z.bits_inj'. intros i Hi.
  rewrite Z.land_spec, Z.bits_0.
  destruct (Z_lt_ge_dec i n) as [Hlt | Hge].
  - rewrite Z.mul_pow2_bits_low by lia. reflexivity.
  - replace (Z.testbit b i) with false; [apply andb_false_r|].
    symmetry. destruct (Z.eq_dec b 0) as [-> | Hnz]; [apply Z.bits_0|].
    apply Z.bits_above_log2; [lia|].
    assert (Z.log2 b < n) by (apply Z.log2_lt_pow2; lia). lia.
Qed.

Lemma int32_unique r z :
  - 2 ^ 31 <= r < 2 ^ 31 -> r mod 2 ^ 32 = z mod 2 ^ 32 -> int32 z = r.
Proof.
  intros Hr Hm. rewrite <- (int32_small r Hr). unfold int32. now rewrite Hm.
Qed.

Lemma shl_small o n :
  0 <= o <= 255 -> 0 <= n <= 31 -> shl o n = int32 (o * 2 ^ n).
Proof.
  intros Ho Hn. unfold shl. rewrite (int32_small o) by lia.
  unfold uint32. rewrite (Z.mod_small n (2 ^ 32)) by lia.
  rewrite (Z.mod_small n 32) by lia. now rewrite Z.shiftl_mul_pow2 by lia.
Qed.

Lemma bor_disjoint a b n :
  0 <= n <= 31 -> 0 <= b < 2 ^ n -> - 2 ^ 31 <= a * 2 ^ n -> a * 2 ^ n + b < 2 ^ 31 ->
  bor (a * 2 ^ n) b = a * 2 ^ n + b.
Proof.
  intros Hn Hb Hlo Hhi. unfold bor.
  assert (Hpow : 2 ^ n <= 2 ^ 31) by (apply Z.pow_le_mono_r; lia).
  rewrite (int32_small (a * 2 ^ n)), (int32_small b) by lia.
  rewrite lor_disjoint by lia. apply int32_small. lia.
Qed.

Lemma pack_octets o0 o1 o2 o3 :
  0 <= o0 <= 255 -> 0 <= o1 <= 255 -> 0 <= o2 <= 255 -> 0 <= o3 <= 255 ->
  bor (bor (bor (shl o0 24) (shl o1 16)) (shl o2 8)) o3
  = int32 (o0 * 2 ^ 24 + o1 * 2 ^ 16 + o2 * 2 ^ 8 + o3).
Proof.
  intros H0 H1 H2 H3.
  rewrite !shl_small by lia.
  rewrite (int32_small (o1 * 2 ^ 16)), (int32_small (o2 * 2 ^ 8)) by lia.
  assert (Ha : exists a, int32 (o0 * 2 ^ 24) = a * 2 ^ 24 /\ - 128 <= a <= 127
                         /\ (a = o0 \/ a = o0 - 256)).
  { unfold int32. rewrite (Z.mod_small (o0 * 2 ^ 24)) by lia.
    destruct (Z.ltb_spec (o0 * 2 ^ 24) (2 ^ 31)).
    - exists o0. lia.
    - exists (o0 - 256). lia. }
  destruct Ha as [a [-> [Ha Hc]]].
  rewrite (bor_disjoint a (o1 * 2 ^ 16) 24) by lia.
  replace (a * 2 ^ 24 + o1 * 2 ^ 16) with ((a * 2 ^ 8 + o1) * 2 ^ 16) by lia.
  rewrite (bor_disjoint (a * 2 ^ 8 + o1) (o2 * 2 ^ 8) 16) by lia.
  replace ((a * 2 ^ 8 + o1) * 2 ^ 16 + o2 * 2 ^ 8)
    with ((a * 2 ^ 16 + o1 * 2 ^ 8 + o2) * 2 ^ 8) by lia.
  rewrite (bor_disjoint (a * 2 ^ 16 + o1 * 2 ^ 8 + o2) o3 8) by lia.
  symmetry. apply int32_unique; [lia|].
  destruct Hc as [-> | ->]; [f_equal; lia|].
  replace (((o0 - 256) * 2 ^ 16 + o1 * 2 ^ 8 + o2) * 2 ^ 8 + o3)
    with (o0 * 2 ^ 24 + o1 * 2 ^ 16 + o2 * 2 ^ 8 + o3 + (-1) * 2 ^ 32) by lia.
  apply Z.mod_add. lia.
Qed.

Lemma ToInt32_of_Z z : ToInt32 (of_Z z) = int32 z.
Proof. unfold ToInt32, of_Z. now rewrite truncate_inject_Z. Qed.

Lemma dotted_quad_groups ip :
  validateIP ip = true ->
  exists g0 g1 g2 g3,
    split "." ip = [g0; g1; g2; g3]
    /\ octet_string g0 /\ octet_string g1 /\ octet_string g2 /\ octet_string g3.
Proof.
  intros H. apply validateIP_groups in H. destruct H as [Hlen Hall].
  destruct (split "." ip) as [|g0 [|g1 [|g2 [|g3 [|g4 l]]]]]; try discriminate.
  inversion Hall as [|? ? H0 Hall1]; subst.
  inversion Hall1 as [|? ? H1 Hall2]; subst.
  inversion Hall2 as [|? ? H2 Hall3]; subst.
  inversion Hall3 as [|? ? H3 _]; subst.
  exists g0, g1, g2, g3. auto.
Qed.

Lemma octet_string_value g :
  octet_string g -> Number g = of_Z (decimal_value g) /\ 0 <= decimal_value g <= 255.
Proof.
  intros [Hl [Hd Hv]]. destruct (digits_read g Hl Hd) as [Hn [_ [_ Hr]]].
  split; [exact Hn | lia].
Qed.

Lemma ipToNumber_dotted_quad ip :
  validateIP ip = true ->
  exists o0 o1 o2 o3,
    octets ip = [o0; o1; o2; o3]
    /\ 0 <= o0 <= 255 /\ 0 <= o1 <= 255 /\ 0 <= o2 <= 255 /\ 0 <= o3 <= 255
    /\ ipToNumber ip = int32 (o0 * 2 ^ 24 + o1 * 2 ^ 16 + o2 * 2 ^ 8 + o3).
Proof.
  intros H. destruct (dotted_quad_groups ip H) as [g0 [g1 [g2 [g3 [E [S0 [S1 [S2 S3]]]]]]]].
  destruct (octet_string_value g0 S0) as [N0 R0].
  destruct (octet_string_value g1 S1) as [N1 R1].
  destruct (octet_string_value g2 S2) as [N2 R2].
  destruct (octet_string_value g3 S3) as [N3 R3].
  exists (decimal_value g0), (decimal_value g1), (decimal_value g2), (decimal_value g3).
  split; [unfold octets; rewrite E; reflexivity|].
  repeat (split; [assumption|]).
  unfold ipToNumber. rewrite E. cbv zeta.
  change (map Number [g0; g1; g2; g3]) with [Number g0; Number g1; Number g2; Number g3].
  unfold part. cbn [nth]. rewrite N0, N1, N2, N3, !ToInt32_of_Z.
  rewrite !int32_small by lia. apply pack_octets; assumption.
Qed.

(** X14. On a string that [validateIP] accepts, [ipToNumber] is the 32-bit
    number whose four bytes are the numbers of the four groups, the first
    group in the most significant byte, read as a signed 32-bit integer. *)
Theorem ipToNumber_packs_the_octets (ip : string) :
  validateIP ip = true ->
  exists o0 o1 o2 o3,
    octets ip = [o0; o1; o2; o3]
    /\ 0 <= o0 <= 255 /\ 0 <= o1 <= 255 /\ 0 <= o2 <= 255 /\ 0 <= o3 <= 255
    /\ ipToNumber ip = int32 (o0 * 2 ^ 24 + o1 * 2 ^ 16 + o2 * 2 ^ 8 + o3).
Proof. exact (ipToNumber_dotted_quad ip). Qed.

Lemma ipToNumber_packs_the_octets_witness :
  exists o0 o1 o2 o3,
    octets "192.168.1.50" = [o0; o1; o2; o3]
    /\ 0 <= o0 <= 255 /\ 0 <= o1 <= 255 /\ 0 <= o2 <= 255 /\ 0 <= o3 <= 255
    /\ ipToNumber "192.168.1.50" = int32 (o0 * 2 ^ 24 + o1 * 2 ^ 16 + o2 * 2 ^ 8 + o3).
Proof.
  apply (ipToNumber_packs_the_octets "192.168.1.50"). vm_compute. reflexivity.
Defined.

Lemma int32_inj_unsigned u v :
  0 <= u < 2 ^ 32 -> 0 <= v < 2 ^ 32 -> int32 u = int32 v -> u = v.
Proof.
  intros Hu Hv. unfold int32.
  rewrite (Z.mod_small u), (Z.mod_small v) by lia.
  destruct (Z.ltb_spec u (2 ^ 31)), (Z.ltb_spec v (2 ^ 31)); lia.
Qed.

Lemma validateIP_nonempty ip : validateIP ip = true -> ip <> "".
Proof. intros H ->. vm_compute in H. discriminate. Qed.

(** X15. Between two strings that [validateIP] accepts, the prefix length
    32 is the equality of addresses: [isIPInNetwork a b "/32"] is true
    exactly when the four numbers of [a] are those of [b]; the strings
    themselves may differ by leading zeros. *)
Theorem prefix_32_is_equality_of_octets (a b : string) :
  validateIP a = true -> validateIP b = true ->
  (isIPInNetwork a b "/32" = true <-> octets a = octets b).
Proof.
  intros Ha Hb.
  pose proof (validateIP_nonempty a Ha) as Na.
  pose proof (validateIP_nonempty b Hb) as Nb.
  rewrite isIPInNetwork_unfold.
  apply truthy_true in Na, Nb. rewrite Na, Nb.
  replace (maskNumOf (maskBitsOf "/32")) with 4294967295 by (vm_compute; reflexivity).
  rewrite !band_all_ones, !ipToNumber_int32.
  change (truthy "/32") with true. rewrite !andb_true_l, Z.eqb_eq.
  destruct (ipToNumber_dotted_quad a Ha) as [a0 [a1 [a2 [a3 [Ea [A0 [A1 [A2 [A3 Eqa]]]]]]]]].
  destruct (ipToNumber_dotted_quad b Hb) as [b0 [b1 [b2 [b3 [Eb [B0 [B1 [B2 [B3 Eqb]]]]]]]]].
  rewrite Ea, Eb, Eqa, Eqb. split.
  - intros H. apply int32_inj_unsigned in H; [|lia|lia].
    assert (a0 = b0 /\ a1 = b1 /\ a2 = b2 /\ a3 = b3) by lia.
    destruct H0 as [-> [-> [-> ->]]]. reflexivity.
  - intros H. injection H as -> -> -> ->. reflexivity.
Qed.

Lemma prefix_32_is_equality_of_octets_witness :
  isIPInNetwork "010.0.1.2" "10.0.01.002" "/32" = true
  <-> octets "010.0.1.2" = octets "10.0.01.002".
Proof.
  apply (prefix_32_is_equality_of_octets "010.0.1.2" "10.0.01.002");
    vm_compute; reflexivity.
Defined.

(** ** Tables loaded from a file *)

Lemma complete_cell_tests c :
  truthy_cell c && not_blank c = true <-> complete_cell c.
Proof.
  unfold complete_cell. destruct c as [s|]; simpl.
  - rewrite andb_true_iff, truthy_true, negb_true_iff, String.eqb_neq. split.
    + intros [H1 H2]. exists s. auto.
    + intros [s' [E [H1 H2]]]. injection E as <-. auto.
  - split; [discriminate|]. intros [s [E _]]. discriminate.
Qed.

Lemma cleanCSVData_In data row :
  In row (cleanCSVData data) <-> In row data /\ complete_row row.
Proof.
  unfold cleanCSVData, complete_row. rewrite filter_In.
  rewrite <- !complete_cell_tests, !andb_true_iff. tauto.
Qed.

Lemma filter_idem {A : Type} (p : A -> bool) (l : list A) :
  filter p (filter p l) = filter p l.
Proof.
  induction l as [|a l IH]; simpl; [reflexivity|].
  destruct (p a) eqn:Hp; simpl; [rewrite Hp, IH|]; auto.
Qed.

(** X16. What [onDataLoaded] receives from the loader: never an empty
    table, and only lines in which each of the four cells is present, not
    empty and not made of white space alone; these are the complete lines of
    the file, all of them, and cleaning them again changes nothing.  A file
    with no line, with a first line that lacks one of the four columns, or
    with no complete line gives an error message instead. *)
Theorem loader_delivers_complete_rows (data : list Csv.row) :
  match complete data with
  | inr cleaned =>
      cleaned <> []
      /\ (forall row, In row cleaned <-> In row data /\ complete_row row)
      /\ cleanCSVData cleaned = cleaned
  | inl message =>
      data = []
      \/ (exists first rest, data = first :: rest
            /\ (Csv.Equipo first = None \/ Csv.IP_Destino first = None
                \/ Csv.Mascara first = None \/ Csv.Gateway first = None))
      \/ (forall row, In row data -> ~ complete_row row)
  end.
Proof.
  unfold complete, validateCSVStructure.
  destruct data as [|first rest]; [left; reflexivity|].
  destruct (filter _ requiredColumns) as [|c cs] eqn:Hmiss.
  - destruct (cleanCSVData (first :: rest)) as [|r0 l] eqn:Hc.
    + simpl. right. right. intros row Hin Hrow.
      assert (Hf : In row (cleanCSVData (first :: rest)))
        by (apply cleanCSVData_In; auto).
      rewrite Hc in Hf. destruct Hf.
    + cbv beta iota zeta delta [List.length Nat.eqb].
      split; [discriminate|]. split.
      * intros row. rewrite <- Hc. apply cleanCSVData_In.
      * rewrite <- Hc. apply filter_idem.
  - right. left. exists first, rest. split; [reflexivity|].
    unfold requiredColumns in Hmiss. simpl in Hmiss.
    destruct (Csv.Equipo first); auto. destruct (Csv.IP_Destino first); auto.
    destruct (Csv.Mascara first); auto. destruct (Csv.Gateway first); auto.
    discriminate.
Qed.

Lemma loader_rows (data : list Csv.row) :
  match complete data with
  | inr cleaned => cleaned <> [] /\ forall row, In row cleaned -> complete_row row
  | inl _ => True
  end.
Proof.
  unfold complete. destruct (validateCSVStructure data); [exact I|].
  destruct (cleanCSVData data) as [|r0 l] eqn:Hc;
    cbv beta iota zeta delta [List.length Nat.eqb]; [exact I|].
  split; [discriminate|]. intros row Hin. rewrite <- Hc in Hin.
  apply cleanCSVData_In in Hin. apply Hin.
Qed.

Lemma route_of_complete row :
  complete_row row ->
  Equipo (route_of row) <> "" /\ IP_Destino (route_of row) <> ""
  /\ Mascara (route_of row) <> "" /\ Gateway (route_of row) <> "".
Proof.
  intros [[e [E1 [He _]]] [[i [E2 [Hi _]]] [[m [E3 [Hm _]]] [g [E4 [Hg _]]]]]].
  unfold route_of. rewrite E1, E2, E3, E4. simpl. auto.
Qed.

(** X17. On a table loaded from a file, the traversal never blames the
    table for an invalid input: [InvalidInput] means that an argument of
    the form is empty; and [UnresolvedGateway g] at [d] means that no row
    of another equipment declares directly a network that contains [g]. *)
Theorem traversal_of_a_loaded_table (data cleaned : list Csv.row)
  (sE sIP dIP : string) :
  complete data = inr cleaned ->
  let table := map route_of cleaned in
  match Trace.error (executeTraceroute sE sIP dIP table) with
  | Some InvalidInput => sE = "" \/ sIP = "" \/ dIP = ""
  | Some (UnresolvedGateway g d) =>
      forall x, In x table -> resolves g d x = false
  | _ => True
  end.
Proof.
  intros Hload table.
  pose proof (loader_rows data) as Hrows. rewrite Hload in Hrows.
  destruct Hrows as [Hne Hall].
  assert (Hnames : forall x, In x table -> Equipo x <> "").
  { intros x Hin. apply in_map_iff in Hin. destruct Hin as [row [<- Hin]].
    apply (route_of_complete row). apply (Hall row Hin). }
  pose proof (executeTraceroute_error_cause sE sIP dIP table) as Hcause.
  cbv zeta in Hcause.
  destruct (Trace.error (executeTraceroute sE sIP dIP table)) as [[| | | |g d|]|]; auto.
  - destruct Hcause as [[H | [H | [H | H]]] _]; auto.
    exfalso. destruct cleaned; [now apply Hne | discriminate].
  - destruct Hcause as [_ [_ [_ [Hnone | Hempty]]]].
    + unfold findEquipmentByGateway in Hnone.
      pose proof (find_first (resolves g d) table) as Hf.
      change (find _ table) with (find (resolves g d) table) in Hnone.
      destruct (find (resolves g d) table); [discriminate | exact Hf].
    + exfalso. destruct (findEquipmentByGateway_row _ _ _ _ Hempty) as [x [Hin [Hx _]]].
      exact (Hnames x Hin Hx).
Qed.

Lemma traversal_of_a_loaded_table_witness :
  complete unresolved_file = inr unresolved_file_cleaned
  /\ (let table := map route_of unresolved_file_cleaned in
      match Trace.error (executeTraceroute "A" "192.168.1.1" "192.168.1.50" table) with
      | Some InvalidInput => "A" = "" \/ "192.168.1.1" = "" \/ "192.168.1.50" = ""
      | Some (UnresolvedGateway g d) =>
          forall x, In x table -> resolves g d x = false
      | _ => True
      end).
Proof.
  assert (H : complete unresolved_file = inr unresolved_file_cleaned)
    by (vm_compute; reflexivity).
  split; [exact H|].
  exact (traversal_of_a_loaded_table unresolved_file unresolved_file_cleaned
           "A" "192.168.1.1" "192.168.1.50" H).
Defined.

(** ** Two tables that behave alike along a run *)

Section TwoTables.

Variables (sE sIP dIP : string) (t1 t2 : list route).

Lemma for_loop_extends n :
  forall st, exists rest,
    Trace.hops (for_loop sE sIP dIP t1 n st) = (Loop.hops st ++ rest)%list.
Proof.
  intros st.
  destruct (for_loop_stops sE sIP dIP t1 n st) as [k [stk [Hk [Ha Hc]]]].
  destruct (state_after_hops _ _ _ _ _ _ _ Ha) as [pushed [Hp _]].
  destruct Hc as [[Hlt Hb] | [-> Hl]].
  - destruct (Trace.success (for_loop sE sIP dIP t1 n st)) eqn:Hs.
    + destruct (loop_body_success _ _ _ _ _ _ Hb Hs) as [t [Ht _]].
      exists (pushed ++ [t])%list. rewrite Ht, Hp. now rewrite app_assoc.
    + destruct (loop_body_failure _ _ _ _ _ _ Hb Hs) as [Hh _].
      exists pushed. now rewrite Hh.
  - exists pushed. rewrite Hl. exact Hp.
Qed.

(** A state the run goes through either returns the result of the run, or
    goes on to a state whose hops the result extends. *)
Lemma state_after_final k :
  forall n st stk,
    state_after sE sIP dIP t1 k st = Some stk -> (k < n)%nat ->
    match loop_body sE sIP dIP t1 stk with
    | inr r => for_loop sE sIP dIP t1 n st = r
    | inl st' =>
        exists rest,
          Trace.hops (for_loop sE sIP dIP t1 n st) = (Loop.hops st' ++ rest)%list
    end.
Proof.
  induction k as [|k IH]; intros n st stk Ha Hlt.
  - simpl in Ha. injection Ha as <-.
    destruct n as [|n]; [lia|]. simpl for_loop.
    destruct (loop_body sE sIP dIP t1 st) as [st'|r]; [|reflexivity].
    apply for_loop_extends.
  - simpl in Ha. destruct n as [|n]; [lia|]. simpl for_loop.
    destruct (loop_body sE sIP dIP t1 st) as [st1|r] eqn:Hb; [|discriminate].
    apply (IH n st1 stk Ha). lia.
Qed.

Lemma for_loop_same_turns n :
  forall st,
    (forall k stk, (k < n)%nat -> state_after sE sIP dIP t1 k st = Some stk ->
                   loop_body sE sIP dIP t2 stk = loop_body sE sIP dIP t1 stk) ->
    for_loop sE sIP dIP t2 n st = for_loop sE sIP dIP t1 n st.
Proof.
  induction n as [|n IH]; intros st H; [reflexivity|].
  simpl. rewrite (H 0%nat st) by (simpl; auto; lia).
  destruct (loop_body sE sIP dIP t1 st) as [st1|r] eqn:Hb; [|reflexivity].
  apply IH. intros k stk Hk Ha. apply (H (S k) stk); [lia|].
  simpl. now rewrite Hb.
Qed.

(** The two tables give a turn the same outcome when they select the same
    row at the current equipment and resolve its gateway alike. *)
Lemma loop_body_same st :
  findRouteEntry (Loop.currentEquipment st) dIP t2
  = findRouteEntry (Loop.currentEquipment st) dIP t1 ->
  (forall r, findRouteEntry (Loop.currentEquipment st) dIP t1 = Some r ->
             is_directo (Gateway r) = false ->
             has (Loop.visitedEquipment st) (Loop.currentEquipment st) = false ->
             findEquipmentByGateway (Gateway r) t2 (Loop.currentEquipment st)
             = findEquipmentByGateway (Gateway r) t1 (Loop.currentEquipment st)) ->
  loop_body sE sIP dIP t2 st = loop_body sE sIP dIP t1 st.
Proof.
  intros Hr Hg. unfold loop_body. rewrite Hr.
  destruct (has _ _) eqn:Hv; [reflexivity|].
  destruct (findRouteEntry _ dIP t1) as [r|] eqn:Hr1; [|reflexivity].
  destruct (is_directo (Gateway r)) eqn:Hd; [reflexivity|].
  now rewrite (Hg r eq_refl Hd eq_refl).
Qed.

End TwoTables.

Lemma path_to_stop start hs stop :
  path_to start hs stop ->
  stop = start \/ exists h, In h hs /\ Hop.nextEquipment h = Some stop.
Proof.
  revert start. induction hs as [|h hs IH]; intros start Hp; simpl in Hp.
  - left. exact Hp.
  - destruct Hp as [_ [n [Hn Hp]]]. right.
    destruct (IH n Hp) as [-> | [h' [Hin Hn']]].
    + exists h. split; [now left | exact Hn].
    + exists h'. split; [now right | exact Hn'].
Qed.

Lemma filter_ext_in {A : Type} (p q : A -> bool) (l : list A) :
  (forall x, In x l -> p x = q x) -> filter p l = filter q l.
Proof.
  induction l as [|a l IH]; intros H; simpl; [reflexivity|].
  rewrite (H a (or_introl eq_refl)), IH; [reflexivity|].
  intros x Hin. apply H. now right.
Qed.

Lemma findRouteEntry_same_rows equipment destIP t t' :
  filter (fun r => String.eqb (Equipo r) equipment) t'
  = filter (fun r => String.eqb (Equipo r) equipment) t ->
  findRouteEntry equipment destIP t' = findRouteEntry equipment destIP t.
Proof. intros H. unfold findRouteEntry. now rewrite H. Qed.

Lemma find_filter_keep {A : Type} (p q : A -> bool) (l : list A) :
  match find p l with Some x => q x = true | None => True end ->
  find p (filter q l) = find p l.
Proof.
  induction l as [|a l IH]; simpl; [reflexivity|].
  destruct (p a) eqn:Hp.
  - intros Hq. rewrite Hq. simpl. now rewrite Hp.
  - intros H. destruct (q a); simpl; [rewrite Hp|]; apply IH; exact H.
Qed.

Lemma find_app_found {A : Type} (p : A -> bool) (l l' : list A) :
  find p l <> None -> find p (l ++ l') = find p l.
Proof.
  induction l as [|a l IH]; simpl; [congruence|].
  destruct (p a); [reflexivity | exact IH].
Qed.

(** ** Deleting an equipment from the diagram *)

Section Deletion.

Variables (nodeId : string) (table : list route).

Lemma remaining_In x : In x (without_equipment nodeId table) <-> In x table /\ Equipo x <> nodeId.
Proof.
  unfold without_equipment. rewrite filter_In, negb_true_iff, String.eqb_neq. tauto.
Qed.

Lemma findRouteEntry_remaining equipment destIP :
  equipment <> nodeId ->
  findRouteEntry equipment destIP (without_equipment nodeId table) = findRouteEntry equipment destIP table.
Proof.
  intros Hne. apply findRouteEntry_same_rows. unfold without_equipment.
  rewrite filter_filter. apply filter_ext_in. intros x _.
  destruct (String.eqb_spec (Equipo x) nodeId) as [E | E]; simpl; [|reflexivity].
  symmetry. apply String.eqb_neq. congruence.
Qed.

Lemma findEquipmentByGateway_remaining gateway current :
  findEquipmentByGateway gateway table current <> Some nodeId ->
  findEquipmentByGateway gateway (without_equipment nodeId table) current
  = findEquipmentByGateway gateway table current.
Proof.
  unfold findEquipmentByGateway, without_equipment. intros H.
  rewrite find_filter_keep; [reflexivity|].
  destruct (find _ table) as [x|]; [|exact I].
  apply negb_true_iff, String.eqb_neq. intros E. apply H. simpl. now rewrite E.
Qed.

End Deletion.

Lemma state_after_prefix sE sIP dIP table k n st stk :
  state_after sE sIP dIP table k st = Some stk -> (k < n)%nat ->
  exists rest,
    Trace.hops (for_loop sE sIP dIP table n st) = (Loop.hops stk ++ rest)%list.
Proof.
  intros Ha Hlt.
  pose proof (state_after_final sE sIP dIP table k n st stk Ha Hlt) as Hf.
  destruct (loop_body sE sIP dIP table stk) as [st'|r] eqn:Hb.
  - destruct Hf as [rest Hf].
    destruct (loop_body_pushes _ _ _ _ _ _ Hb) as [h [Hh _]].
    exists (h :: rest). rewrite Hf, Hh, <- app_assoc. reflexivity.
  - rewrite Hf. destruct (Trace.success r) eqn:Hs.
    + destruct (loop_body_success _ _ _ _ _ _ Hb Hs) as [t [Ht _]].
      exists [t]. exact Ht.
    + destruct (loop_body_failure _ _ _ _ _ _ Hb Hs) as [Hh _].
      exists []. now rewrite app_nil_r.
Qed.

Lemma next_hop_intro destIP table a r b :
  findRouteEntry a destIP table = Some r -> is_directo (Gateway r) = false ->
  findEquipmentByGateway (Gateway r) table a = Some b -> b <> "" ->
  next_hop destIP table a = Some (r, b).
Proof.
  intros Hr Hd Hg Hb. unfold next_hop. rewrite Hr, Hd, Hg.
  destruct b; [congruence | reflexivity].
Qed.

Lemma existsb_without_equipment nodeId table sE :
  sE <> nodeId ->
  existsb (fun r => String.eqb (Equipo r) sE) (without_equipment nodeId table)
  = existsb (fun r => String.eqb (Equipo r) sE) table.
Proof.
  intros Hne. induction table as [|a l IH]; [reflexivity|].
  unfold without_equipment in *. simpl.
  destruct (String.eqb_spec (Equipo a) nodeId) as [E | E]; simpl.
  - rewrite IH. replace (String.eqb (Equipo a) sE) with false; [reflexivity|].
    symmetry. apply String.eqb_neq. congruence.
  - now rewrite IH.
Qed.

Lemma handleDeleteNode_table editMode confirmed nodeId table table' :
  handleDeleteNode editMode confirmed nodeId table = Some table' ->
  table' = without_equipment nodeId table.
Proof.
  unfold handleDeleteNode, without_equipment.
  destruct editMode, confirmed; simpl; intros E; try discriminate.
  now injection E as <-.
Qed.

(** X18. After an equipment is deleted from the diagram, the table holds
    exactly the rows of the other equipment, and no traversal of it meets
    the deleted equipment again: no hop is at it, no hop names it as next,
    and a traversal started at it fails without a hop. *)
Theorem deleted_equipment_is_gone (editMode confirmed : bool) (nodeId : string)
  (table table' : list route) :
  handleDeleteNode editMode confirmed nodeId table = Some table' ->
  (forall x, In x table' <-> In x table /\ Equipo x <> nodeId)
  /\ (forall sE sIP dIP h,
        In h (Trace.hops (executeTraceroute sE sIP dIP table')) ->
        Hop.currentEquipment h <> nodeId /\ Hop.nextEquipment h <> Some nodeId)
  /\ (forall sIP dIP,
        Trace.success (executeTraceroute nodeId sIP dIP table') = false
        /\ Trace.hops (executeTraceroute nodeId sIP dIP table') = []).
Proof.
  intros H. apply handleDeleteNode_table in H. subst table'.
  split; [apply remaining_In|]. split.
  - intros sE sIP dIP h Hin.
    destruct (executeTraceroute_hops_in_table _ _ _ _ h Hin) as [[x [Hx [Ex _]]] Hnext].
    apply remaining_In in Hx. split; [rewrite <- Ex; apply Hx|].
    intros Hn. destruct (Hnext nodeId Hn) as [[y [Hy Ey]] _].
    apply remaining_In in Hy. now apply Hy.
  - intros sIP dIP.
    set (r := executeTraceroute nodeId sIP dIP (without_equipment nodeId table)).
    result_cases nodeId sIP dIP (without_equipment nodeId table) r; simpl; auto;
      exfalso; destruct Hown as [x [Hx Ex]]; apply remaining_In in Hx; now apply Hx.
Qed.

Lemma deleted_equipment_is_gone_witness :
  Trace.success (executeTraceroute "B" "192.168.1.1" "192.168.1.50"
                   (without_equipment "B" scenario_table)) = false
  /\ Trace.hops (executeTraceroute "B" "192.168.1.1" "192.168.1.50"
                   (without_equipment "B" scenario_table)) = [].
Proof.
  apply (proj2 (proj2 (deleted_equipment_is_gone true true "B" scenario_table
                         (without_equipment "B" scenario_table) eq_refl))).
Defined.

(** X19. Deleting an equipment changes no traversal that did not involve
    it: when the traversal of the table starts elsewhere and none of its
    hops names the deleted equipment as next, the traversal of the table
    without that equipment gives the same result (the name deleted is not
    empty and some row remains). *)
Theorem deletion_keeps_other_traversals (editMode confirmed : bool)
  (nodeId sE sIP dIP : string) (table table' : list route) :
  handleDeleteNode editMode confirmed nodeId table = Some table' ->
  nodeId <> "" -> sE <> nodeId -> table' <> [] ->
  (forall h, In h (Trace.hops (executeTraceroute sE sIP dIP table)) ->
             Hop.nextEquipment h <> Some nodeId) ->
  executeTraceroute sE sIP dIP table' = executeTraceroute sE sIP dIP table.
Proof.
  intros H Hid HsE Hrem Hhops. apply handleDeleteNode_table in H. subst table'.
  assert (Htab : table <> []).
  { intros ->. now apply Hrem. }
  unfold executeTraceroute in *.
  rewrite (existsb_without_equipment nodeId table sE HsE).
  destruct (without_equipment nodeId table) as [|y0 l0] eqn:Ew; [congruence|].
  destruct table as [|x0 t0] eqn:Et; [congruence|].
  rewrite <- Ew, <- Et in *. clear Hrem Htab.
  replace (Nat.eqb (List.length (without_equipment nodeId table)) 0) with false
    by (rewrite Ew; reflexivity).
  replace (Nat.eqb (List.length table) 0) with false in * by (rewrite Et; reflexivity).
  destruct (negb (truthy sE) || negb (truthy sIP) || negb (truthy dIP) || false);
    [reflexivity|].
  destruct (negb (existsb _ table)); [reflexivity|].
  apply for_loop_same_turns. intros k stk Hk Ha.
  pose proof (state_after_invariant sE sIP dIP table k _ _
                (initial_invariant sE dIP table) Ha) as [Hp _ _ _].
  destruct (state_after_prefix _ _ _ _ _ _ _ _ Ha Hk) as [rest Hpre].
  assert (Hcur : Loop.currentEquipment stk <> nodeId).
  { destruct (path_to_stop _ _ _ Hp) as [-> | [h [Hin Hn]]]; [exact HsE|].
    intros E. apply (Hhops h); [|now rewrite Hn, E].
    rewrite Hpre. apply in_or_app. now left. }
  apply loop_body_same; [now apply findRouteEntry_remaining|].
  intros r Hr Hd Hv. apply findEquipmentByGateway_remaining. intros Hg.
  pose proof (next_hop_intro _ _ _ _ _ Hr Hd Hg Hid) as Hn.
  pose proof (loop_body_forward sE sIP dIP table stk r nodeId Hv Hn) as Hb.
  pose proof (state_after_final sE sIP dIP table k MAX_HOPS _ stk Ha Hk) as Hf.
  rewrite Hb in Hf. destruct Hf as [rest' Hf]. cbn [Loop.hops] in Hf.
  apply (Hhops (forward_hop (Loop.currentEquipment stk) r nodeId)); [|reflexivity].
  rewrite Hf. apply in_or_app. left. apply in_or_app. right. now left.
Qed.

Lemma deletion_keeps_other_traversals_witness :
  executeTraceroute "A" "192.168.1.1" "192.168.1.50" (without_equipment "C" three_table)
  = executeTraceroute "A" "192.168.1.1" "192.168.1.50" three_table.
Proof.
  apply (deletion_keeps_other_traversals true true "C" "A" "192.168.1.1" "192.168.1.50"
           three_table (without_equipment "C" three_table)).
  - reflexivity.
  - discriminate.
  - discriminate.
  - vm_compute. discriminate.
  - intros h Hin. vm_compute in Hin.
    destruct Hin as [<- | [<- | []]]; discriminate.
Defined.

(** ** Adding an equipment from the diagram *)

(** The equipment a run is at is the one it started from or one that owns
    a row. *)
Lemma reached_equipment sE sIP dIP table k stk :
  state_after sE sIP dIP table k (initial sE) = Some stk ->
  Loop.currentEquipment stk = sE \/ owns_row table (Loop.currentEquipment stk).
Proof.
  intros Ha.
  pose proof (state_after_invariant sE sIP dIP table k _ _
                (initial_invariant sE dIP table) Ha) as [Hp _ _ Hr].
  destruct (path_to_stop _ _ _ Hp) as [-> | [h [Hin Hn]]]; [now left|].
  right. rewrite Forall_forall in Hr.
  destruct (Hr h Hin) as [r [next [Hnext Hh]]].
  rewrite Hh in Hn. simpl in Hn. injection Hn as ->.
  destruct (next_hop_spec _ _ _ _ _ Hnext) as [_ [_ [Hg _]]].
  destruct (findEquipmentByGateway_row _ _ _ _ Hg) as [x [Hx [Ex _]]].
  exists x. split; assumption.
Qed.

Lemma handleAddNode_table editMode name ipDestino mascara table table' :
  handleAddNode editMode (Some name) ipDestino mascara table = Some table' ->
  name <> "" /\ (forall x, In x table -> Equipo x <> name)
  /\ exists ip mask, ipDestino = Some ip /\ mascara = Some mask
                     /\ table' = (table ++ [row name ip mask "directo"])%list.
Proof.
  unfold handleAddNode. destruct editMode; simpl; [|discriminate].
  destruct (truthy name) eqn:Hn; simpl; [|discriminate].
  destruct (String.eqb (trim name) ""); [discriminate|].
  destruct (existsb _ table) eqn:Hex; [discriminate|].
  destruct ipDestino as [ip|]; simpl; [|discriminate].
  destruct (truthy ip); simpl; [|discriminate].
  destruct mascara as [mask|]; simpl; [|discriminate].
  destruct (truthy mask); simpl; [|discriminate].
  intros E. injection E as <-.
  split; [now apply truthy_true|]. split.
  - intros x Hin Ex.
    assert (existsb (fun r => String.eqb (Equipo r) name) table = true); [|congruence].
    apply existsb_exists. exists x. split; [exact Hin | now apply String.eqb_eq].
  - exists ip, mask. repeat split.
Qed.

Lemma filter_equipment_app equipment table x :
  Equipo x <> equipment ->
  filter (fun r => String.eqb (Equipo r) equipment) (table ++ [x])
  = filter (fun r => String.eqb (Equipo r) equipment) table.
Proof.
  intros Hne. rewrite filter_app. simpl.
  replace (String.eqb (Equipo x) equipment) with false; [apply app_nil_r|].
  symmetry. now apply String.eqb_neq.
Qed.

Lemma existsb_equipment_app equipment table x :
  Equipo x <> equipment ->
  existsb (fun r => String.eqb (Equipo r) equipment) (table ++ [x])
  = existsb (fun r => String.eqb (Equipo r) equipment) table.
Proof.
  intros Hne. rewrite existsb_app. simpl.
  replace (String.eqb (Equipo x) equipment) with false; [now rewrite !orb_false_r|].
  symmetry. now apply String.eqb_neq.
Qed.

(** X20. Adding an equipment from the diagram changes no traversal that
    starts at another equipment of a table that is not empty, except one
    that stopped at a gateway no equipment reached directly (which the new
    equipment may now reach). *)
Theorem added_equipment_keeps_traversals (editMode : bool) (name : string)
  (ipDestino mascara : option string) (sE sIP dIP : string) (table table' : list route) :
  handleAddNode editMode (Some name) ipDestino mascara table = Some table' ->
  table <> [] -> sE <> name ->
  (forall g d, Trace.error (executeTraceroute sE sIP dIP table)
               <> Some (UnresolvedGateway g d)) ->
  executeTraceroute sE sIP dIP table' = executeTraceroute sE sIP dIP table.
Proof.
  intros H Htab HsE Herr.
  destruct (handleAddNode_table _ _ _ _ _ _ H) as [Hname [Hfresh [ip [mask [_ [_ ->]]]]]].
  clear H. set (new := row name ip mask "directo") in *.
  assert (Hnew : Equipo new = name) by reflexivity. clearbody new.
  unfold executeTraceroute in *.
  rewrite (existsb_equipment_app sE table new) by congruence.
  replace (Nat.eqb (List.length (table ++ [new])) 0) with false
    by (rewrite length_app; simpl; destruct (List.length table); reflexivity).
  replace (Nat.eqb (List.length table) 0) with false in *
    by (destruct table; [congruence | reflexivity]).
  destruct (negb (truthy sE) || negb (truthy sIP) || negb (truthy dIP) || false);
    [reflexivity|].
  destruct (negb (existsb _ table)); [reflexivity|].
  apply for_loop_same_turns. intros k stk Hk Ha.
  assert (Hcur : Loop.currentEquipment stk <> name).
  { destruct (reached_equipment _ _ _ _ _ _ Ha) as [-> | [x [Hx Ex]]]; [exact HsE|].
    rewrite <- Ex. now apply Hfresh. }
  apply loop_body_same.
  - apply findRouteEntry_same_rows. apply filter_equipment_app. congruence.
  - intros r Hr Hd Hv. unfold findEquipmentByGateway.
    destruct (findEquipmentByGateway (Gateway r) table (Loop.currentEquipment stk))
      as [b|] eqn:Hg.
    + rewrite find_app_found; [reflexivity|].
      unfold findEquipmentByGateway in Hg. intros Hnone. now rewrite Hnone in Hg.
    + exfalso.
      pose proof (state_after_final sE sIP dIP table k MAX_HOPS _ stk Ha Hk) as Hf.
      unfold loop_body in Hf. rewrite Hv, Hr, Hd, Hg in Hf.
      apply (Herr (Gateway r) (Loop.currentEquipment stk)). now rewrite Hf.
Qed.

Lemma added_equipment_keeps_traversals_witness :
  executeTraceroute "A" "192.168.1.1" "192.168.1.50" three_table
  = executeTraceroute "A" "192.168.1.1" "192.168.1.50" scenario_table.
Proof.
  apply (added_equipment_keeps_traversals true "C" (Some "172.16.0.0") (Some "/16")
           "A" "192.168.1.1" "192.168.1.50" scenario_table three_table).
  - vm_compute. reflexivity.
  - discriminate.
  - discriminate.
  - intros g d. vm_compute. discriminate.
Defined.

Lemma filter_equipment_none equipment table :
  (forall x, In x table -> Equipo x <> equipment) ->
  filter (fun r => String.eqb (Equipo r) equipment) table = [].
Proof.
  intros H. induction table as [|a l IH]; [reflexivity|]. simpl.
  replace (String.eqb (Equipo a) equipment) with false.
  - apply IH. intros x Hin. apply H. now right.
  - symmetry. apply String.eqb_neq. apply H. now left.
Qed.

(** X21. An equipment added from the diagram reaches its own network: a
    traversal started at it towards an address of the network entered for
    it succeeds with one hop, the direct delivery from the new equipment. *)
Theorem added_equipment_reaches_its_network (editMode : bool)
  (name ip mask sIP dIP : string) (table table' : list route) :
  handleAddNode editMode (Some name) (Some ip) (Some mask) table = Some table' ->
  sIP <> "" -> dIP <> "" ->
  isIPInNetwork dIP ip mask = true ->
  executeTraceroute name sIP dIP table'
  = reached name sIP dIP [final_hop name (row name ip mask "directo")].
Proof.
  intros H HsIP HdIP Hin.
  destruct (handleAddNode_table _ _ _ _ _ _ H)
    as [Hname [Hfresh [ip' [mask' [Eip [Emask ->]]]]]].
  injection Eip as <-. injection Emask as <-. clear H.
  set (new := row name ip mask "directo") in *.
  assert (Hr : findRouteEntry name dIP (table ++ [new]) = Some new).
  { unfold findRouteEntry. rewrite filter_app, (filter_equipment_none name table Hfresh).
    cbv beta iota zeta delta [filter List.app new row Equipo IP_Destino Mascara].
    rewrite String.eqb_refl, Hin. reflexivity. }
  assert (Hd : is_directo (Gateway new) = true) by reflexivity.
  assert (Hex : existsb (fun r => String.eqb (Equipo r) name) (table ++ [new]) = true).
  { rewrite existsb_app. unfold new, row. simpl. rewrite String.eqb_refl.
    now rewrite orb_true_r. }
  clearbody new.
  unfold executeTraceroute. rewrite Hex.
  apply truthy_true in Hname, HsIP, HdIP. rewrite Hname, HsIP, HdIP.
  replace (Nat.eqb (List.length (table ++ [new])) 0) with false
    by (rewrite length_app; simpl; destruct (List.length table); reflexivity).
  cbv beta iota zeta delta [negb orb].
  unfold MAX_HOPS. cbv beta iota delta [for_loop]. fold for_loop.
  unfold loop_body. cbv beta iota zeta delta [initial Loop.hops Loop.visitedEquipment
                                               Loop.currentEquipment has existsb].
  rewrite Hr, Hd. reflexivity.
Qed.

Lemma added_equipment_reaches_its_network_witness :
  executeTraceroute "C" "172.16.0.1" "172.16.3.4" three_table
  = reached "C" "172.16.0.1" "172.16.3.4"
      [final_hop "C" (row "C" "172.16.0.0" "/16" "directo")].
Proof.
  apply (added_equipment_reaches_its_network true "C" "172.16.0.0" "/16"
           "172.16.0.1" "172.16.3.4" scenario_table three_table).
  - vm_compute. reflexivity.
  - discriminate.
  - discriminate.
  - vm_compute. reflexivity.
Defined.

(** ** Renaming an equipment from the diagram *)

Lemma filter_map_comm {A B : Type} (f : A -> B) (p : B -> bool) (l : list A) :
  filter p (map f l) = map f (filter (fun x => p (f x)) l).
Proof.
  induction l as [|a l IH]; [reflexivity|]. cbn [map filter].
  destruct (p (f a)); cbn [map]; now rewrite IH.
Qed.

Lemma find_map_comm {A B : Type} (f : A -> B) (p : B -> bool) (l : list A) :
  find p (map f l) = option_map f (find (fun x => p (f x)) l).
Proof.
  induction l as [|a l IH]; [reflexivity|]. cbn [map find].
  destruct (p (f a)); [reflexivity | exact IH].
Qed.

Lemma find_ext_in {A : Type} (p q : A -> bool) (l : list A) :
  (forall x, In x l -> p x = q x) -> find p l = find q l.
Proof.
  induction l as [|a l IH]; intros H; [reflexivity|]. cbn [find].
  rewrite (H a (or_introl eq_refl)), IH; [reflexivity|].
  intros x Hin. apply H. now right.
Qed.

Section Renaming.

Variables (label newName : string) (table : list route).
Hypothesis Hlabel : label <> "".
Hypothesis HnewName : newName <> "".
Hypothesis Hfresh : forall x, In x table -> Equipo x <> newName.

Lemma rename_eqb a b :
  a <> newName -> b <> newName ->
  String.eqb (rename label newName a) (rename label newName b) = String.eqb a b.
Proof.
  intros Ha Hb. unfold rename.
  destruct (String.eqb_spec a label) as [Ea|Ea], (String.eqb_spec b label) as [Eb|Eb].
  - subst. now rewrite !String.eqb_refl.
  - transitivity false; [apply String.eqb_neq | symmetry; apply String.eqb_neq]; congruence.
  - transitivity false; [apply String.eqb_neq | symmetry; apply String.eqb_neq]; congruence.
  - reflexivity.
Qed.

Lemma rename_empty s : rename label newName s = "" <-> s = "".
Proof.
  unfold rename. destruct (String.eqb_spec s label); split; intros; congruence.
Qed.

Lemma rename_truthy s : truthy (rename label newName s) = truthy s.
Proof.
  destruct (truthy s) eqn:Hs.
  - apply truthy_true. apply truthy_true in Hs. now rewrite rename_empty.
  - apply truthy_false. apply truthy_false in Hs. now rewrite rename_empty.
Qed.

Lemma rename_row_fields r :
  Equipo (rename_row label newName r) = rename label newName (Equipo r)
  /\ IP_Destino (rename_row label newName r) = IP_Destino r
  /\ Mascara (rename_row label newName r) = Mascara r
  /\ Gateway (rename_row label newName r) = Gateway r.
Proof.
  unfold rename_row, rename. destruct (String.eqb (Equipo r) label); repeat split.
Qed.

Lemma fold_more_specific_rename others :
  forall best,
    fold_left more_specific (map (rename_row label newName) others)
      (rename_row label newName best)
    = rename_row label newName (fold_left more_specific others best).
Proof.
  induction others as [|a l IH]; intros best; [reflexivity|].
  cbn [map fold_left]. rewrite <- IH. f_equal.
  unfold more_specific.
  destruct (rename_row_fields best) as [_ [_ [-> _]]].
  destruct (rename_row_fields a) as [_ [_ [-> _]]].
  now destruct (gt _ _).
Qed.

Lemma findRouteEntry_rename equipment destIP :
  equipment <> newName ->
  findRouteEntry (rename label newName equipment) destIP
    (map (rename_row label newName) table)
  = option_map (rename_row label newName) (findRouteEntry equipment destIP table).
Proof.
  intros He. unfold findRouteEntry. cbv zeta.
  rewrite filter_map_comm.
  rewrite (filter_ext_in _ (fun r => String.eqb (Equipo r) equipment) table).
  2:{ intros x Hin. destruct (rename_row_fields x) as [-> _].
      apply rename_eqb; [now apply Hfresh | exact He]. }
  rewrite filter_map_comm.
  rewrite (filter_ext_in _ (fun r => isIPInNetwork destIP (IP_Destino r) (Mascara r))).
  2:{ intros x _. now destruct (rename_row_fields x) as [_ [-> [-> _]]]. }
  destruct (filter _ (filter _ table)) as [|first others]; [reflexivity|].
  cbn [map option_map]. unfold reduce. now rewrite fold_more_specific_rename.
Qed.

Lemma findEquipmentByGateway_rename gateway current :
  current <> newName ->
  findEquipmentByGateway gateway (map (rename_row label newName) table)
    (rename label newName current)
  = option_map (rename label newName) (findEquipmentByGateway gateway table current).
Proof.
  intros Hc. unfold findEquipmentByGateway. rewrite find_map_comm.
  rewrite (find_ext_in _ (fun route =>
             negb (String.eqb (Equipo route) current) && is_directo (Gateway route)
             && isIPInNetwork gateway (IP_Destino route) (Mascara route)) table).
  2:{ intros x Hin. destruct (rename_row_fields x) as [-> [-> [-> ->]]].
      rewrite rename_eqb; [reflexivity | now apply Hfresh | exact Hc]. }
  destruct (find _ table) as [x|]; [|reflexivity].
  cbn [option_map]. now destruct (rename_row_fields x) as [-> _].
Qed.

Lemma has_rename visited current :
  (forall v, In v visited -> v <> newName) -> current <> newName ->
  has (map (rename label newName) visited) (rename label newName current)
  = has visited current.
Proof.
  intros Hv Hc. unfold has. induction visited as [|a l IH]; [reflexivity|].
  cbn [map existsb]. rewrite rename_eqb, IH; auto.
  - intros v Hin. apply Hv. now right.
  - apply Hv. now left.
Qed.

Lemma existsb_rename equipment :
  equipment <> newName ->
  existsb (fun r => String.eqb (Equipo r) (rename label newName equipment))
    (map (rename_row label newName) table)
  = existsb (fun r => String.eqb (Equipo r) equipment) table.
Proof.
  intros He. revert Hfresh. generalize table. intros l Hl.
  induction l as [|a l IH]; [reflexivity|]. cbn [map existsb].
  destruct (rename_row_fields a) as [-> _].
  rewrite rename_eqb, IH; auto.
  - intros x Hin. apply Hl. now right.
  - apply Hl. now left.
Qed.

Lemma loop_body_rename sE sIP dIP st :
  old_names newName st ->
  loop_body (rename label newName sE) sIP dIP (map (rename_row label newName) table)
    (rename_state label newName st)
  = match loop_body sE sIP dIP table st with
    | inl st' => inl (rename_state label newName st')
    | inr r => inr (rename_result label newName r)
    end.
Proof.
  intros [Hc Hv]. unfold loop_body. cbv zeta.
  cbn [rename_state Loop.hops Loop.visitedEquipment Loop.currentEquipment].
  rewrite (has_rename _ _ Hv Hc), (findRouteEntry_rename _ dIP Hc).
  destruct (has _ _); [reflexivity|].
  destruct (findRouteEntry _ dIP table) as [r|]; [|reflexivity].
  cbn [option_map].
  destruct (rename_row_fields r) as [_ [-> [-> ->]]].
  destruct (is_directo (Gateway r)).
  { unfold rename_result, reached. cbn. now rewrite map_app. }
  rewrite (findEquipmentByGateway_rename _ _ Hc).
  destruct (findEquipmentByGateway (Gateway r) table (Loop.currentEquipment st))
    as [[|c e]|]; cbn [option_map].
  - replace (rename label newName "") with "" by (symmetry; now apply rename_empty).
    reflexivity.
  - destruct (rename label newName (String c e)) as [|c' e'] eqn:En.
    + apply (proj1 (rename_empty _)) in En. discriminate.
    + rewrite <- En. unfold rename_state. cbn. now rewrite !map_app.
  - reflexivity.
Qed.

Lemma loop_body_old_names sE sIP dIP st st' :
  loop_body sE sIP dIP table st = inl st' -> old_names newName st -> old_names newName st'.
Proof.
  intros Hb [Hc Hv]. unfold loop_body in Hb.
  destruct (has _ _); [discriminate|].
  destruct (findRouteEntry _ dIP table) as [r|]; [|discriminate].
  destruct (is_directo (Gateway r)); [discriminate|].
  destruct (findEquipmentByGateway _ _ _) as [[|c e]|] eqn:Hg; try discriminate.
  injection Hb as <-. split; cbn.
  - destruct (findEquipmentByGateway_row _ _ _ _ Hg) as [x [Hx [Ex _]]].
    rewrite <- Ex. now apply Hfresh.
  - intros v Hin. apply in_app_or in Hin. destruct Hin as [Hin | [<- | []]]; auto.
Qed.

Lemma for_loop_rename sE sIP dIP n :
  forall st, old_names newName st ->
    for_loop (rename label newName sE) sIP dIP (map (rename_row label newName) table) n
      (rename_state label newName st)
    = rename_result label newName (for_loop sE sIP dIP table n st).
Proof.
  induction n as [|n IH]; intros st Hst; [reflexivity|].
  cbn [for_loop]. rewrite (loop_body_rename _ _ _ _ Hst).
  destruct (loop_body sE sIP dIP table st) as [st'|r] eqn:Hb; [|reflexivity].
  apply IH. exact (loop_body_old_names _ _ _ _ _ Hb Hst).
Qed.

Lemma executeTraceroute_rename sE sIP dIP :
  sE <> newName ->
  executeTraceroute (rename label newName sE) sIP dIP
    (map (rename_row label newName) table)
  = rename_result label newName (executeTraceroute sE sIP dIP table).
Proof.
  intros HsE. unfold executeTraceroute. cbv zeta.
  rewrite rename_truthy, length_map, (existsb_rename _ HsE).
  destruct (negb (truthy sE) || negb (truthy sIP) || negb (truthy dIP)
            || Nat.eqb (List.length table) 0); [reflexivity|].
  destruct (negb (existsb _ table)); [reflexivity|].
  change (initial (rename label newName sE))
    with (rename_state label newName (initial sE)).
  apply for_loop_rename. split; [exact HsE | intros v []].
Qed.

End Renaming.

Lemma onNodeDoubleClick_table editMode label newName table table' :
  onNodeDoubleClick editMode label (Some newName) table = Some table' ->
  newName <> "" /\ (forall x, In x table -> Equipo x <> newName)
  /\ table' = map (rename_row label newName) table.
Proof.
  unfold onNodeDoubleClick. destruct editMode; simpl; [|discriminate].
  destruct (truthy newName) eqn:Hn; simpl; [|discriminate].
  destruct (String.eqb (trim newName) ""); simpl; [discriminate|].
  destruct (String.eqb newName label); simpl; [discriminate|].
  destruct (existsb _ table) eqn:Hex; [discriminate|].
  intros E. injection E as <-.
  split; [now apply truthy_true|]. split; [|reflexivity].
  intros x Hin Ex.
  assert (existsb (fun r => String.eqb (Equipo r) newName) table = true); [|congruence].
  apply existsb_exists. exists x. split; [exact Hin | now apply String.eqb_eq].
Qed.

(** X22. Renaming an equipment from the diagram renames it in every
    traversal and changes nothing else: the traversal of the renamed table
    from the renamed start is the traversal of the table with the name
    replaced in the start, the hops and the error (the old name is not
    empty and the start is not the new name, which the table did not
    hold). *)
Theorem renaming_renames_the_traversal (editMode : bool) (label newName : string)
  (sE sIP dIP : string) (table table' : list route) :
  onNodeDoubleClick editMode label (Some newName) table = Some table' ->
  label <> "" -> sE <> newName ->
  executeTraceroute (rename label newName sE) sIP dIP table'
  = rename_result label newName (executeTraceroute sE sIP dIP table).
Proof.
  intros H Hlabel HsE.
  destruct (onNodeDoubleClick_table _ _ _ _ _ H) as [Hnew [Hfresh ->]].
  now apply executeTraceroute_rename.
Qed.

Lemma renaming_renames_the_traversal_witness :
  executeTraceroute (rename "B" "R2" "A") "192.168.1.1" "192.168.1.50"
    (map (rename_row "B" "R2") scenario_table)
  = rename_result "B" "R2"
      (executeTraceroute "A" "192.168.1.1" "192.168.1.50" scenario_table).
Proof.
  apply (renaming_renames_the_traversal true "B" "R2" "A" "192.168.1.1" "192.168.1.50"
           scenario_table (map (rename_row "B" "R2") scenario_table)).
  - vm_compute. reflexivity.
  - discriminate.
  - discriminate.
Defined.

(** ** Exporting the table *)

Lemma contains_cons c a s :
  contains c (String a s) = Ascii.eqb c a || contains c s.
Proof. reflexivity. Qed.

Lemma contains_app c s t : contains c (s ++ t) = contains c s || contains c t.
Proof.
  induction s as [|a s IH]; [reflexivity|].
  cbn [String.append]. rewrite !contains_cons, IH. now rewrite orb_assoc.
Qed.

Lemma split_no_sep c s : contains c s = false -> split c s = [s].
Proof.
  induction s as [|a s IH]; intros H; [reflexivity|].
  rewrite contains_cons in H. apply orb_false_elim in H. destruct H as [Ha Hs].
  cbn [split]. rewrite Ascii.eqb_sym, Ha, (IH Hs). reflexivity.
Qed.

Lemma split_app_sep c s t :
  contains c s = false -> split c (s ++ String c t) = s :: split c t.
Proof.
  induction s as [|a s IH]; intros H.
  - cbn [String.append split]. now rewrite Ascii.eqb_refl.
  - rewrite contains_cons in H. apply orb_false_elim in H. destruct H as [Ha Hs].
    cbn [String.append split]. rewrite Ascii.eqb_sym, Ha, (IH Hs). reflexivity.
Qed.

Lemma join_cons sep s s' rest :
  join sep (s :: s' :: rest) = (s ++ sep ++ join sep (s' :: rest))%string.
Proof. reflexivity. Qed.

Lemma split_join c l :
  l <> [] -> (forall s, In s l -> contains c s = false) ->
  split c (join (String c "") l) = l.
Proof.
  induction l as [|s [|s' rest] IH]; intros Hne H; [congruence| |].
  - apply split_no_sep. apply H. now left.
  - rewrite join_cons. cbn [String.append].
    rewrite split_app_sep by (apply H; now left).
    f_equal. apply IH; [discriminate|]. intros x Hin. apply H. now right.
Qed.

Lemma contains_join c sep l :
  contains c sep = false -> (forall s, In s l -> contains c s = false) ->
  contains c (join sep l) = false.
Proof.
  intros Hsep. induction l as [|s [|s' rest] IH]; intros H; [reflexivity| |].
  - apply H. now left.
  - rewrite join_cons, !contains_app, Hsep, IH, (H s (or_introl eq_refl)); [reflexivity|].
    intros x Hin. apply H. now right.
Qed.

Lemma or_empty_id s : or_empty s = s.
Proof. now destruct s. Qed.

Lemma export_cells_fields r : export_cells r = fields r.
Proof. unfold export_cells, fields. now rewrite !or_empty_id. Qed.

Lemma Some_eq {A : Type} (a b : A) : Some a = Some b -> a = b.
Proof. intros H. now injection H. Qed.

Lemma exportToCSV_read_back data content :
  exportToCSV data = Some content ->
  (forall r s, In r data -> In s (fields r) ->
               contains "," s = false /\ contains (ascii_of_N 10) s = false) ->
  read_back content = ["Equipo"; "IP_Destino"; "Mascara"; "Gateway"] :: map fields data.
Proof.
  unfold exportToCSV, read_back. destruct data as [|r0 data0] eqn:Ed; [discriminate|].
  rewrite <- Ed. replace (Nat.eqb (List.length data) 0) with false by now rewrite Ed.
  clear Ed r0 data0. cbv zeta. intros E H. apply Some_eq in E. subst content.
  unfold newline. rewrite split_join.
  - cbn [map]. f_equal. rewrite !map_map.
    apply map_ext_in. intros r Hin. rewrite export_cells_fields.
    apply split_join; [discriminate|]. intros s Hs. now apply (H r s).
  - discriminate.
  - intros line [<- | Hin]; [reflexivity|].
    apply in_map_iff in Hin. destruct Hin as [cells [<- Hin]].
    apply in_map_iff in Hin. destruct Hin as [r [<- Hin]].
    rewrite export_cells_fields. apply contains_join; [reflexivity|].
    intros s Hs. now apply (H r s).
Qed.

(** X23. The text [exportToCSV] offers for download reads back as the
    table: when no field holds a comma or a line feed, its lines split at
    the commas are the line of the four column names followed by the four
    fields of each row, in order.  (An empty table gives no text.) *)
Theorem exported_text_reads_back (data : list route) (content : string) :
  exportToCSV data = Some content ->
  (forall r s, In r data -> In s (fields r) ->
               contains "," s = false /\ contains (ascii_of_N 10) s = false) ->
  data <> []
  /\ read_back content = ["Equipo"; "IP_Destino"; "Mascara"; "Gateway"] :: map fields data.
Proof.
  intros E H. split; [|now apply exportToCSV_read_back].
  intros ->. discriminate.
Qed.

Lemma exported_text_reads_back_witness :
  exportToCSV scenario_table
  = Some (join newline (map (join ",") (["Equipo"; "IP_Destino"; "Mascara"; "Gateway"]
                                         :: map fields scenario_table)))
  /\ scenario_table <> []
  /\ read_back (join newline (map (join ",") (["Equipo"; "IP_Destino"; "Mascara"; "Gateway"]
                                               :: map fields scenario_table)))
     = ["Equipo"; "IP_Destino"; "Mascara"; "Gateway"] :: map fields scenario_table.
Proof.
  assert (E : exportToCSV scenario_table
              = Some (join newline
                        (map (join ",") (["Equipo"; "IP_Destino"; "Mascara"; "Gateway"]
                                          :: map fields scenario_table))))
    by (vm_compute; reflexivity).
  split; [exact E|].
  apply (exported_text_reads_back scenario_table _ E).
  intros r s Hr Hs. vm_compute in Hr.
  destruct Hr as [<- | [<- | [<- | [<- | []]]]]; vm_compute in Hs;
    destruct Hs as [<- | [<- | [<- | [<- | []]]]]; vm_compute; split; reflexivity.
Defined.

(** ** Connecting two equipment in the diagram *)

Lemma find_app_none {A : Type} (p : A -> bool) (l l' : list A) :
  find p l = None -> find p (l ++ l') = find p l'.
Proof.
  induction l as [|a l IH]; [reflexivity|]. cbn [find List.app].
  destruct (p a); [discriminate | exact IH].
Qed.

Lemma existsb_equipment_none equipment rows :
  (forall x, In x rows -> Equipo x <> equipment) ->
  existsb (fun r => String.eqb (Equipo r) equipment) rows = false.
Proof.
  intros H. induction rows as [|a l IH]; [reflexivity|]. cbn [existsb].
  replace (String.eqb (Equipo a) equipment) with false.
  - apply IH. intros x Hin. apply H. now right.
  - symmetry. apply String.eqb_neq. apply H. now left.
Qed.

(** Rows appended to the table change no traversal that reaches none of
    their equipment, unless one of them is directly connected and the
    traversal stopped at a gateway that nothing reached. *)
Lemma appended_rows_same sE sIP dIP table extra :
  table <> [] ->
  (forall x, In x extra -> Equipo x <> sE) ->
  (forall h x, In h (Trace.hops (executeTraceroute sE sIP dIP table)) -> In x extra ->
               Hop.nextEquipment h <> Some (Equipo x)) ->
  (forall x g d, In x extra -> is_directo (Gateway x) = true ->
                 Trace.error (executeTraceroute sE sIP dIP table)
                 <> Some (UnresolvedGateway g d)) ->
  executeTraceroute sE sIP dIP (table ++ extra) = executeTraceroute sE sIP dIP table.
Proof.
  intros Htab HsE Hhops Herr.
  unfold executeTraceroute in *.
  rewrite existsb_app, (existsb_equipment_none sE extra HsE), orb_false_r.
  replace (Nat.eqb (List.length (table ++ extra)) 0) with false
    by (destruct table; [congruence | reflexivity]).
  replace (Nat.eqb (List.length table) 0) with false in *
    by (destruct table; [congruence | reflexivity]).
  destruct (negb (truthy sE) || negb (truthy sIP) || negb (truthy dIP) || false);
    [reflexivity|].
  destruct (negb (existsb _ table)); [reflexivity|].
  apply for_loop_same_turns. intros k stk Hk Ha.
  pose proof (state_after_invariant sE sIP dIP table k _ _
                (initial_invariant sE dIP table) Ha) as [Hp _ _ _].
  destruct (state_after_prefix _ _ _ _ _ _ _ _ Ha Hk) as [rest Hpre].
  assert (Hcur : forall x, In x extra -> Equipo x <> Loop.currentEquipment stk).
  { intros x Hx E.
    destruct (path_to_stop _ _ _ Hp) as [Hs | [h [Hin Hn]]].
    - apply (HsE x Hx). congruence.
    - apply (Hhops h x); [|exact Hx|now rewrite Hn, E].
      rewrite Hpre. apply in_or_app. now left. }
  apply loop_body_same.
  - apply findRouteEntry_same_rows.
    rewrite filter_app, (filter_equipment_none _ extra Hcur). apply app_nil_r.
  - intros r Hr Hd Hv. unfold findEquipmentByGateway.
    destruct (findEquipmentByGateway (Gateway r) table (Loop.currentEquipment stk))
      as [b|] eqn:Hg.
    + rewrite find_app_found; [reflexivity|].
      unfold findEquipmentByGateway in Hg. intros Hnone. now rewrite Hnone in Hg.
    + unfold findEquipmentByGateway in Hg.
      destruct (find _ table) as [y|] eqn:Hft; [discriminate|].
      rewrite (find_app_none _ table extra Hft).
      destruct (find _ extra) as [x|] eqn:Hfe; [|reflexivity].
      exfalso. apply find_some in Hfe. destruct Hfe as [Hx Hpx].
      apply andb_prop in Hpx. destruct Hpx as [Hpx _].
      apply andb_prop in Hpx. destruct Hpx as [_ Hdx].
      pose proof (state_after_final sE sIP dIP table k MAX_HOPS _ stk Ha Hk) as Hf.
      unfold loop_body, findEquipmentByGateway in Hf. rewrite Hv, Hr, Hd, Hft in Hf.
      apply (Herr x (Gateway r) (Loop.currentEquipment stk) Hx Hdx). now rewrite Hf.
Qed.

Lemma onConnect_table editMode isConnecting source target ipDestino mascara gateway
  table table' :
  onConnect editMode isConnecting source target ipDestino mascara gateway table
  = Some table' ->
  match getEquipmentNetwork target table with
  | Some net =>
      table' = (table ++ [row source (IP_Destino net) (Mascara net) (cell gateway)])%list
  | None =>
      table' = (table ++ [row target (cell ipDestino) (cell mascara) "directo";
                          row source (cell ipDestino) (cell mascara) (cell gateway)])%list
  end.
Proof.
  unfold onConnect.
  destruct (negb editMode || isConnecting); [discriminate|].
  destruct (String.eqb source target); [discriminate|].
  destruct (negb (truthy source) || negb (truthy target)); [discriminate|].
  cbv zeta. destruct (find _ table); [discriminate|].
  destruct (getEquipmentNetwork target table) as [net|].
  - destruct (negb (truthy_cell gateway)); [discriminate|].
    intros E. now apply Some_eq in E.
  - destruct (negb (truthy_cell ipDestino)); [discriminate|].
    destruct (negb (truthy_cell mascara)); [discriminate|].
    destruct (negb (truthy_cell gateway)); [discriminate|].
    intros E. now apply Some_eq in E.
Qed.

(** X24. Connecting a source to a target in the diagram changes no
    traversal of a table that is not empty and that does not reach the
    source, when the gateway entered is not the word for a direct
    connection.  When the target had no network of its own yet, a row is
    added for it as well: then the traversal must not reach the target
    either, nor have stopped at a gateway that nothing reached. *)
Theorem connecting_keeps_other_traversals (editMode isConnecting : bool)
  (source target : string) (ipDestino mascara gateway : option string)
  (sE sIP dIP : string) (table table' : list route) :
  onConnect editMode isConnecting source target ipDestino mascara gateway table
  = Some table' ->
  table <> [] ->
  is_directo (cell gateway) = false ->
  sE <> source ->
  (forall h, In h (Trace.hops (executeTraceroute sE sIP dIP table)) ->
             Hop.nextEquipment h <> Some source) ->
  (getEquipmentNetwork target table = None ->
   sE <> target
   /\ (forall h, In h (Trace.hops (executeTraceroute sE sIP dIP table)) ->
                 Hop.nextEquipment h <> Some target)
   /\ (forall g d, Trace.error (executeTraceroute sE sIP dIP table)
                   <> Some (UnresolvedGateway g d))) ->
  executeTraceroute sE sIP dIP table' = executeTraceroute sE sIP dIP table.
Proof.
  intros H Htab Hgw HsE Hhops Htarget.
  apply onConnect_table in H.
  destruct (getEquipmentNetwork target table) as [net|].
  - subst table'. apply appended_rows_same; [exact Htab| | |].
    + intros x [<- | []]. cbn. congruence.
    + intros h x Hh [<- | []]. cbn. now apply Hhops.
    + intros x g d [<- | []] Hd.
      change (is_directo (cell gateway) = true) in Hd. congruence.
  - destruct (Htarget eq_refl) as [HsE' [Hhops' Herr]].
    subst table'. apply appended_rows_same; [exact Htab| | |].
    + intros x [<- | [<- | []]]; cbn; congruence.
    + intros h x Hh [<- | [<- | []]]; cbn; auto.
    + intros x g d _ _. apply Herr.
Qed.

Lemma connecting_keeps_other_traversals_witness :
  executeTraceroute "A" "192.168.1.1" "192.168.1.50"
    (three_table ++ [row "C" "10.0.1.0" "/24" "10.0.1.1"])
  = executeTraceroute "A" "192.168.1.1" "192.168.1.50" three_table.
Proof.
  apply (connecting_keeps_other_traversals true false "C" "A" None None (Some "10.0.1.1")
           "A" "192.168.1.1" "192.168.1.50" three_table
           (three_table ++ [row "C" "10.0.1.0" "/24" "10.0.1.1"])).
  - vm_compute. reflexivity.
  - discriminate.
  - vm_compute. reflexivity.
  - discriminate.
  - intros h Hin. vm_compute in Hin.
    destruct Hin as [<- | [<- | []]]; discriminate.
  - intros Hnone. vm_compute in Hnone. discriminate.
Defined.

(** ** The form and the application *)

Lemma handleSubmit_request sE sIP dIP request :
  handleSubmit sE sIP dIP = Some request ->
  request = (sE, sIP, dIP) /\ sE <> ""
  /\ validateIP sIP = true /\ validateIP dIP = true.
Proof.
  unfold handleSubmit. cbv zeta.
  destruct (truthy sE) eqn:H1; [|discriminate].
  destruct (truthy sIP); [|discriminate].
  destruct (validateIP sIP); [|discriminate].
  destruct (truthy dIP); [|rewrite orb_true_r; discriminate].
  destruct (validateIP dIP); [|rewrite orb_true_r; discriminate].
  cbv beta iota delta [negb orb]. intros E. apply Some_eq in E.
  repeat split; auto. now apply truthy_true.
Qed.

(** X25. A request the form submits for an equipment of the table enters
    the traversal: the form passes on the three values as they are, both
    addresses are dotted quads that [validateIP] accepts, and the result
    the application stores is neither the error of a missing input nor the
    error of an unknown equipment. *)
Theorem submitted_request_enters_the_traversal (sE sIP dIP : string)
  (request : string * string * string) (table : list route) :
  handleSubmit sE sIP dIP = Some request ->
  owns_row table sE ->
  request = (sE, sIP, dIP)
  /\ validateIP sIP = true /\ validateIP dIP = true
  /\ Trace.error (handleExecuteTraceroute request table) <> Some InvalidInput
  /\ forall e, Trace.error (handleExecuteTraceroute request table)
               <> Some (UnknownDevice e).
Proof.
  intros H [x [Hx Ex]].
  destruct (handleSubmit_request _ _ _ _ H) as [-> [HsE [HsIP HdIP]]].
  repeat split; auto; unfold handleExecuteTraceroute;
    pose proof (executeTraceroute_error_cause sE sIP dIP table) as Hc;
    cbv zeta in Hc.
  - intros E. rewrite E in Hc. destruct Hc as [[H1 | [H1 | [H1 | H1]]] _].
    + contradiction.
    + apply validateIP_nonempty in HsIP. contradiction.
    + apply validateIP_nonempty in HdIP. contradiction.
    + subst table. destruct Hx.
  - intros e E. rewrite E in Hc. destruct Hc as [_ [_ [Hnone _]]].
    exact (Hnone x Hx Ex).
Qed.

Lemma submitted_request_enters_the_traversal_witness :
  Trace.error (handleExecuteTraceroute ("A", "192.168.1.1", "192.168.1.50") scenario_table)
  <> Some InvalidInput.
Proof.
  assert (H : handleSubmit "A" "192.168.1.1" "192.168.1.50"
              = Some ("A", "192.168.1.1", "192.168.1.50")) by (vm_compute; reflexivity).
  assert (Hown : owns_row scenario_table "A").
  { exists (row "A" "10.0.1.0" "/24" "directo"). split; [now left | reflexivity]. }
  exact (proj1 (proj2 (proj2 (proj2
           (submitted_request_enters_the_traversal "A" "192.168.1.1" "192.168.1.50"
              ("A", "192.168.1.1", "192.168.1.50") scenario_table H Hown))))).
Defined.

Lemma isIPInNetwork_zero_prefix ip :
  isIPInNetwork ip "0.0.0.0" "/0" = truthy ip && (ipToNumber ip =? 0).
Proof.
  rewrite isIPInNetwork_unfold.
  replace (maskNumOf (maskBitsOf "/0")) with 4294967295 by (vm_compute; reflexivity).
  rewrite !band_all_ones, !ipToNumber_int32.
  replace (ipToNumber "0.0.0.0") with 0 by (vm_compute; reflexivity).
  simpl truthy. now rewrite !andb_true_r.
Qed.

(** X26. The equipment that entering the edit mode creates in an empty
    table, with the route 0.0.0.0/0, delivers only to the addresses whose
    32-bit value is 0: a traversal from it succeeds exactly when both
    addresses are given and the destination reads as 0. *)
Theorem first_equipment_delivers_only_to_zero (sIP dIP : string) (table : list route) :
  toggleEditMode false [] = (true, table) ->
  Trace.success (executeTraceroute "Equipo1" sIP dIP table)
  = truthy sIP && truthy dIP && (ipToNumber dIP =? 0).
Proof.
  intros H. injection H as <-.
  set (r0 := {| Equipo := "Equipo1"; IP_Destino := "0.0.0.0"; Mascara := "/0";
                Gateway := "directo" |}).
  assert (Hr : findRouteEntry "Equipo1" dIP [r0]
               = if isIPInNetwork dIP "0.0.0.0" "/0" then Some r0 else None).
  { unfold findRouteEntry.
    cbv beta iota zeta delta [filter r0 Equipo IP_Destino Mascara].
    rewrite String.eqb_refl. cbv iota.
    now destruct (isIPInNetwork dIP "0.0.0.0" "/0"). }
  assert (Hd : is_directo (Gateway r0) = true) by reflexivity.
  assert (Hex : existsb (fun r => String.eqb (Equipo r) "Equipo1") [r0] = true)
    by reflexivity.
  clearbody r0.
  unfold executeTraceroute. rewrite Hex.
  destruct (truthy sIP); [|reflexivity].
  destruct (truthy dIP) eqn:HdIP; [|reflexivity].
  cbv beta iota zeta delta [truthy negb orb andb List.length Nat.eqb].
  unfold MAX_HOPS. cbv beta iota delta [for_loop]. fold for_loop.
  unfold loop_body. cbv beta iota zeta delta [initial Loop.hops Loop.visitedEquipment
                                               Loop.currentEquipment has existsb].
  rewrite Hr, isIPInNetwork_zero_prefix, HdIP. cbv beta iota delta [andb].
  destruct (ipToNumber dIP =? 0); [rewrite Hd|]; reflexivity.
Qed.

Lemma first_equipment_delivers_only_to_zero_witness :
  Trace.success (executeTraceroute "Equipo1" "10.0.0.1" "192.168.1.50"
                   (snd (toggleEditMode false [])))
  = truthy "10.0.0.1" && truthy "192.168.1.50" && (ipToNumber "192.168.1.50" =? 0).
Proof.
  apply (first_equipment_delivers_only_to_zero "10.0.0.1" "192.168.1.50"
           (snd (toggleEditMode false []))).
  reflexivity.
Defined.
